(** * Induced-dipole polarization pair style (lj/cut/coul/long/polarization)

    A shallow embedding of the polarization part of
    [pair_lj_cut_coul_long_polarization.cpp]: the dipole field matrix
    builder, the iterative dipole solver and the polarization section of
    [compute], followed by the properties established about them.  Beside
    it, in modules of their own: the forward communication of the ghost
    particles ([pack_comm], [unpack_comm]) and the object-level functions
    [allocate], [settings], [coeff] and the four that write and read the
    restart file, where an [int] member is a [Z] whatever its use.

    Numbers.  A C [double] is an IEEE-754 binary64 value, modelled by Rocq's
    primitive [float]: every operation rounds to nearest even, as the source
    does when compiled without fused multiply-add or extended precision, and
    there is one NaN.  An [int] used as a counter is a [Z]; the counter of
    the solver stays at most [iterations_max + 1], which is taken to fit.  An
    [int] used as an index or a size is a [nat]; an [int] used as a truth
    value is a [bool].

    Memory.  [double *] and [double **] arrays are total maps from indices
    to values; a store [a[i][p] = v] is [set2 a i p v].  The code only reads
    and writes in range, so nothing is said about other cells.

    Effects.  The solver runs in a state that holds the arrays it writes
    and a log of events: one per sweep, one per evaluation of the precision
    branch, one for the warning.  The [while] loop takes fuel; with more
    fuel than [iterations_max] it returns. *)

From Stdlib Require Import ZArith List Bool Lia PeanoNat.
From Stdlib Require Import Uint63 Floats.
From Stdlib Require String.
Import ListNotations.
Set Warnings "-inexact-float".

(** ** Arithmetic of doubles *)

Module Dbl.
Local Open Scope float_scope.

(** [DBL_MAX] of <float.h>. *)
Definition DBL_MAX : float := 0x1.fffffffffffffp1023.

(** [pow(d,2)]: the square, which the C library returns correctly rounded. *)
Definition pow2 (d : float) : float := d * d.

(** [a > b], [a != b], [a >= b] of C on doubles (false on NaN for [>]). *)
Definition gt (a b : float) : bool := b <? a.
Definition ne (a b : float) : bool := negb (a =? b).


(** [(double) n] for a non-negative [int]. *)
Definition of_nat (n : nat) : float := of_uint63 (Uint63.of_Z (Z.of_nat n)).
End Dbl.

(** ** Arrays and counted loops *)

Definition arr1 := nat -> float.
Definition arr2 := nat -> nat -> float.

Definition set1 (a : arr1) (i : nat) (v : float) : arr1 :=
  fun k => if Nat.eqb k i then v else a k.

Definition set2 (a : arr2) (i p : nat) (v : float) : arr2 :=
  fun k l => if (Nat.eqb k i && Nat.eqb l p)%bool then v else a k l.

Definition seti (a : nat -> nat) (i : nat) (v : nat) : nat -> nat :=
  fun k => if Nat.eqb k i then v else a k.

(** [for (i = lo; i < lo + n; i++) body], threading the state. *)
Fixpoint for_from {S : Type} (lo n : nat) (body : nat -> S -> S) (s : S) : S :=
  match n with
  | O => s
  | Datatypes.S n' => for_from (Datatypes.S lo) n' body (body lo s)
  end.

(** [for (i = lo; i < hi; i++) body]. *)
Definition for_range {S : Type} (lo hi : nat) (body : nat -> S -> S) (s : S) : S :=
  for_from lo (hi - lo) body s.

(** ** Settings, atoms and the mutable state *)

Inductive damping := DAMPING_EXPONENTIAL | DAMPING_NONE.

(** The members set by the constructor and by [settings]/[init_style]. *)
Record settings := {
  iterations_max : Z;
  damping_type : damping;
  polar_damp : float;
  zodid : bool;
  polar_precision : float;
  fixed_iteration : bool;
  polar_gs : bool;
  polar_gs_ranked : bool;
  polar_gamma : float;
  use_previous : bool;
  cut_coul : float;
  cut_coulsq : float;
  qqrd2e : float
}.

(** What one force evaluation reads of [atom] and does not write. *)
Record atoms := {
  nlocal : nat;
  nghost : nat;
  x : arr2;
  q : arr1;
  molecule : nat -> Z;
  static_polarizability : arr1
}.

(** Observable effects, in program order. [EvSweep] marks one pass of the
    contraction loop of the solver, [EvPrecisionTest] one evaluation of the
    precision branch, [EvWarning] the call of [error->warning]. *)
Inductive event := EvSweep | EvPrecisionTest | EvWarning.

Definition is_sweep (e : event) : bool :=
  match e with EvSweep => true | _ => false end.

Definition is_precision_test (e : event) : bool :=
  match e with EvPrecisionTest => true | _ => false end.

Definition is_warning (e : event) : bool :=
  match e with EvWarning => true | _ => false end.

(** How many events of a log satisfy a test. *)
Definition count_events (test : event -> bool) (log : list event) : nat :=
  length (filter test log).

(** The arrays written during a force evaluation: [ef_static], [mu_induced]
    and [f] of [atom]; the buffers owned by the pair style; the polarization
    energy; the log of events. *)
Record state := {
  ef_static : arr2;
  mu_induced : arr2;
  f : arr2;
  ef_induced : arr2;
  mu_induced_new : arr2;
  mu_induced_old : arr2;
  dipole_field_matrix : arr2;
  ranked_array : nat -> nat;
  rank_metric : arr1;
  eng_pol : float;
  events : list event
}.

Definition set_ef_static (s : state) (v : arr2) : state :=
  {| ef_static := v; mu_induced := mu_induced s; f := f s;
     ef_induced := ef_induced s; mu_induced_new := mu_induced_new s;
     mu_induced_old := mu_induced_old s;
     dipole_field_matrix := dipole_field_matrix s;
     ranked_array := ranked_array s; rank_metric := rank_metric s;
     eng_pol := eng_pol s; events := events s |}.

Definition set_mu_induced (s : state) (v : arr2) : state :=
  {| ef_static := ef_static s; mu_induced := v; f := f s;
     ef_induced := ef_induced s; mu_induced_new := mu_induced_new s;
     mu_induced_old := mu_induced_old s;
     dipole_field_matrix := dipole_field_matrix s;
     ranked_array := ranked_array s; rank_metric := rank_metric s;
     eng_pol := eng_pol s; events := events s |}.

Definition set_f (s : state) (v : arr2) : state :=
  {| ef_static := ef_static s; mu_induced := mu_induced s; f := v;
     ef_induced := ef_induced s; mu_induced_new := mu_induced_new s;
     mu_induced_old := mu_induced_old s;
     dipole_field_matrix := dipole_field_matrix s;
     ranked_array := ranked_array s; rank_metric := rank_metric s;
     eng_pol := eng_pol s; events := events s |}.

Definition set_ef_induced (s : state) (v : arr2) : state :=
  {| ef_static := ef_static s; mu_induced := mu_induced s; f := f s;
     ef_induced := v; mu_induced_new := mu_induced_new s;
     mu_induced_old := mu_induced_old s;
     dipole_field_matrix := dipole_field_matrix s;
     ranked_array := ranked_array s; rank_metric := rank_metric s;
     eng_pol := eng_pol s; events := events s |}.

Definition set_mu_induced_new (s : state) (v : arr2) : state :=
  {| ef_static := ef_static s; mu_induced := mu_induced s; f := f s;
     ef_induced := ef_induced s; mu_induced_new := v;
     mu_induced_old := mu_induced_old s;
     dipole_field_matrix := dipole_field_matrix s;
     ranked_array := ranked_array s; rank_metric := rank_metric s;
     eng_pol := eng_pol s; events := events s |}.

Definition set_mu_induced_old (s : state) (v : arr2) : state :=
  {| ef_static := ef_static s; mu_induced := mu_induced s; f := f s;
     ef_induced := ef_induced s; mu_induced_new := mu_induced_new s;
     mu_induced_old := v;
     dipole_field_matrix := dipole_field_matrix s;
     ranked_array := ranked_array s; rank_metric := rank_metric s;
     eng_pol := eng_pol s; events := events s |}.

Definition set_dipole_field_matrix (s : state) (v : arr2) : state :=
  {| ef_static := ef_static s; mu_induced := mu_induced s; f := f s;
     ef_induced := ef_induced s; mu_induced_new := mu_induced_new s;
     mu_induced_old := mu_induced_old s;
     dipole_field_matrix := v;
     ranked_array := ranked_array s; rank_metric := rank_metric s;
     eng_pol := eng_pol s; events := events s |}.

Definition set_ranked_array (s : state) (v : nat -> nat) : state :=
  {| ef_static := ef_static s; mu_induced := mu_induced s; f := f s;
     ef_induced := ef_induced s; mu_induced_new := mu_induced_new s;
     mu_induced_old := mu_induced_old s;
     dipole_field_matrix := dipole_field_matrix s;
     ranked_array := v; rank_metric := rank_metric s;
     eng_pol := eng_pol s; events := events s |}.

Definition set_rank_metric (s : state) (v : arr1) : state :=
  {| ef_static := ef_static s; mu_induced := mu_induced s; f := f s;
     ef_induced := ef_induced s; mu_induced_new := mu_induced_new s;
     mu_induced_old := mu_induced_old s;
     dipole_field_matrix := dipole_field_matrix s;
     ranked_array := ranked_array s; rank_metric := v;
     eng_pol := eng_pol s; events := events s |}.

Definition set_eng_pol (s : state) (v : float) : state :=
  {| ef_static := ef_static s; mu_induced := mu_induced s; f := f s;
     ef_induced := ef_induced s; mu_induced_new := mu_induced_new s;
     mu_induced_old := mu_induced_old s;
     dipole_field_matrix := dipole_field_matrix s;
     ranked_array := ranked_array s; rank_metric := rank_metric s;
     eng_pol := v; events := events s |}.

(** Events are logged most recent first. *)
Definition emit (e : event) (s : state) : state :=
  {| ef_static := ef_static s; mu_induced := mu_induced s; f := f s;
     ef_induced := ef_induced s; mu_induced_new := mu_induced_new s;
     mu_induced_old := mu_induced_old s;
     dipole_field_matrix := dipole_field_matrix s;
     ranked_array := ranked_array s; rank_metric := rank_metric s;
     eng_pol := eng_pol s; events := e :: events s |}.

(** ** Forward communication: [pack_comm] and [unpack_comm] *)

Module Comm.

(** The per-particle arrays of [atom] that the pair style sends to the
    ghost particles. *)
Record particles := {
  static_polarizability : arr1;
  ef_static : arr2;
  mu_induced : arr2
}.

(** [pack_comm(n, list, buf, pbc_flag, pbc)]: seven doubles for each of the
    [n] particles of [list], stored from [buf[0]] on; [pbc_flag] and [pbc]
    are not used.  The result is the buffer and the value returned. *)
Definition pack_comm (n : nat) (list : nat -> nat) (buf : arr1) (a : particles)
  : arr1 * Z :=
  let '(buf, _) :=
    for_range 0 n (fun i '(buf, m) =>
      let j := list i in
      let buf := set1 buf m (static_polarizability a j) in
      let m := Datatypes.S m in
      let buf := set1 buf m (ef_static a j 0%nat) in
      let m := Datatypes.S m in
      let buf := set1 buf m (ef_static a j 1%nat) in
      let m := Datatypes.S m in
      let buf := set1 buf m (ef_static a j 2%nat) in
      let m := Datatypes.S m in
      let buf := set1 buf m (mu_induced a j 0%nat) in
      let m := Datatypes.S m in
      let buf := set1 buf m (mu_induced a j 1%nat) in
      let m := Datatypes.S m in
      let buf := set1 buf m (mu_induced a j 2%nat) in
      let m := Datatypes.S m in
      (buf, m)) (buf, 0%nat) in
  (buf, 7%Z).

(** [unpack_comm(n, first, buf)]: the same seven doubles read back, in the
    same order, into the particles [first .. first + n - 1]. *)
Definition unpack_comm (n first : nat) (buf : arr1) (a : particles) : particles :=
  let last := (first + n)%nat in
  fst (for_range first last (fun i '(a, m) =>
    let sp := set1 (static_polarizability a) i (buf m) in
    let m := Datatypes.S m in
    let ef := set2 (ef_static a) i 0 (buf m) in
    let m := Datatypes.S m in
    let ef := set2 ef i 1 (buf m) in
    let m := Datatypes.S m in
    let ef := set2 ef i 2 (buf m) in
    let m := Datatypes.S m in
    let mu := set2 (mu_induced a) i 0 (buf m) in
    let m := Datatypes.S m in
    let mu := set2 mu i 1 (buf m) in
    let m := Datatypes.S m in
    let mu := set2 mu i 2 (buf m) in
    let m := Datatypes.S m in
    ({| static_polarizability := sp; ef_static := ef; mu_induced := mu |}, m))
    (a, 0%nat)).

End Comm.

(** ** The pair style as an object: [allocate], [settings], [coeff] and
    the restart file *)

Module Style.
Import String.

(** The [int] members of the class that these functions read or write.
    [damping_type] holds a value of the anonymous [enum]:
    [DAMPING_EXPONENTIAL = 0], [DAMPING_NONE = 1]. *)
Inductive int_member :=
| offset_flag | mix_flag | iterations_max | damping_type | zodid
| fixed_iteration | polar_gs | polar_gs_ranked | debug | use_previous
| allocated.

(** The [double] members. *)
Inductive double_member :=
| cut_lj_global | cut_coul | polar_damp | polar_precision | polar_gamma.

Lemma int_member_eq_dec (a b : int_member) : {a = b} + {a <> b}.
Proof. decide equality. Defined.

Lemma double_member_eq_dec (a b : double_member) : {a = b} + {a <> b}.
Proof. decide equality. Defined.

(** The object: its scalar members and the per-type-pair arrays that
    [coeff] sets ([setflag] is an [int **]). *)
Record style := {
  ints : int_member -> Z;
  doubles : double_member -> float;
  setflag : nat -> nat -> Z;
  epsilon : arr2;
  sigma : arr2;
  cut_lj : arr2
}.

Definition set_int (st : style) (m : int_member) (v : Z) : style :=
  {| ints := fun k => if int_member_eq_dec k m then v else ints st k;
     doubles := doubles st; setflag := setflag st;
     epsilon := epsilon st; sigma := sigma st; cut_lj := cut_lj st |}.

Definition set_double (st : style) (m : double_member) (v : float) : style :=
  {| ints := ints st;
     doubles := fun k => if double_member_eq_dec k m then v else doubles st k;
     setflag := setflag st;
     epsilon := epsilon st; sigma := sigma st; cut_lj := cut_lj st |}.

Definition set_setflag (st : style) (i j : nat) (v : Z) : style :=
  {| ints := ints st; doubles := doubles st;
     setflag := fun k l => if (Nat.eqb k i && Nat.eqb l j)%bool then v else setflag st k l;
     epsilon := epsilon st; sigma := sigma st; cut_lj := cut_lj st |}.

Definition set_epsilon (st : style) (i j : nat) (v : float) : style :=
  {| ints := ints st; doubles := doubles st; setflag := setflag st;
     epsilon := set2 (epsilon st) i j v; sigma := sigma st; cut_lj := cut_lj st |}.

Definition set_sigma (st : style) (i j : nat) (v : float) : style :=
  {| ints := ints st; doubles := doubles st; setflag := setflag st;
     epsilon := epsilon st; sigma := set2 (sigma st) i j v; cut_lj := cut_lj st |}.

Definition set_cut_lj (st : style) (i j : nat) (v : float) : style :=
  {| ints := ints st; doubles := doubles st; setflag := setflag st;
     epsilon := epsilon st; sigma := sigma st; cut_lj := set2 (cut_lj st) i j v |}.

(** An [int] used as a condition. *)
Definition truth (z : Z) : bool := negb (Z.eqb z 0).

(** The calls of [error->all], which end the run, by message. *)
Inductive failure :=
| Illegal_pair_style_command
| Zodid_with_polar_gs
| Mutually_exclusive
| Incorrect_args
| Library_error.

(** A call either returns or ends the run in [error->all]. *)
Inductive outcome (A : Type) :=
| Done (a : A)
| Abort (e : failure).

Arguments Done {A} a.
Arguments Abort {A} e.

Definition bind {A B : Type} (r : outcome A) (k : A -> outcome B) : outcome B :=
  match r with
  | Done a => k a
  | Abort e => Abort e
  end.

Local Notation "x <- r ;; k" := (bind r (fun x => k))
  (at level 61, r at next level, right associativity).

(** What [memory->create] hands out: arrays whose content is not
    determined. *)
Record created := {
  new_setflag : nat -> nat -> Z;
  new_epsilon : arr2;
  new_sigma : arr2;
  new_cut_lj : arr2
}.

Section Parsing.

(** [atom->ntypes]. *)
Variable ntypes : nat.

(** [force->numeric] and [force->inumeric]: the number a string spells, or
    no result where they end the run with an error of their own. *)
Variable numeric : string -> option float.
Variable inumeric : string -> option Z.

(** [force->bounds(str, nmax, nlo, nhi)]: the range of types a string
    spells, or no result where it ends the run ("Numeric index is out of
    bounds").  It returns with [1 <= nlo]; an upper bound below zero, under
    which no loop body runs, is given as [0]. *)
Variable bounds : string -> nat -> option (nat * nat).

(** The arrays that [allocate] creates. *)
Variable fresh : created.

Definition force_numeric (s : string) : outcome float :=
  match numeric s with Some d => Done d | None => Abort Library_error end.

Definition force_inumeric (s : string) : outcome Z :=
  match inumeric s with Some z => Done z | None => Abort Library_error end.

Definition force_bounds (s : string) : outcome (nat * nat) :=
  match bounds s ntypes with Some b => Done b | None => Abort Library_error end.

(** *** [allocate] *)

(** [allocated = 1]; [setflag] is created anew and cleared for
    [1 <= i <= j <= n]; then [cut_lj], [epsilon] and [sigma] are created
    anew.  The arrays that [coeff] does not set ([cutsq], [cut_ljsq],
    [lj1] to [lj4], [offset]) are not part of the object here. *)
Definition allocate (st : style) : style :=
  let st := set_int st allocated 1 in
  let n := ntypes in
  let st := {| ints := ints st; doubles := doubles st;
               setflag := new_setflag fresh;
               epsilon := epsilon st; sigma := sigma st; cut_lj := cut_lj st |} in
  let st := for_range 1 (n + 1) (fun i =>
              for_range i (n + 1) (fun j st => set_setflag st i j 0)) st in
  {| ints := ints st; doubles := doubles st; setflag := setflag st;
     epsilon := new_epsilon fresh; sigma := new_sigma fresh;
     cut_lj := new_cut_lj fresh |}.

(** *** [settings] *)

(** The value of a [yes]/[no] keyword. *)
Definition yes_no (value : string) : outcome Z :=
  if String.eqb "yes" value then Done 1%Z
  else if String.eqb "no" value then Done 0%Z
  else Abort Illegal_pair_style_command.

(** One turn of the [while] loop: the keyword [arg[iarg]] with its value
    [arg[iarg+1]]. *)
Definition keyword (key value : string) (st : style) : outcome style :=
  if String.eqb "precision" key then
    d <- force_numeric value ;; Done (set_double st polar_precision d)
  else if String.eqb "zodid" key then
    if (truth (ints st polar_gs) || truth (ints st polar_gs_ranked))%bool
    then Abort Zodid_with_polar_gs
    else v <- yes_no value ;; Done (set_int st zodid v)
  else if String.eqb "fixed_iteration" key then
    v <- yes_no value ;; Done (set_int st fixed_iteration v)
  else if String.eqb "damp" key then
    d <- force_numeric value ;; Done (set_double st polar_damp d)
  else if String.eqb "max_iterations" key then
    z <- force_inumeric value ;; Done (set_int st iterations_max z)
  else if String.eqb "damp_type" key then
    if String.eqb "exponential" value then Done (set_int st damping_type 0)
    else if String.eqb "none" value then Done (set_int st damping_type 1)
    else Abort Illegal_pair_style_command
  else if String.eqb "polar_gs" key then
    if truth (ints st polar_gs_ranked) then Abort Mutually_exclusive
    else v <- yes_no value ;; Done (set_int st polar_gs v)
  else if String.eqb "polar_gs_ranked" key then
    if truth (ints st polar_gs) then Abort Mutually_exclusive
    else v <- yes_no value ;; Done (set_int st polar_gs_ranked v)
  else if String.eqb "polar_gamma" key then
    d <- force_numeric value ;; Done (set_double st polar_gamma d)
  else if String.eqb "debug" key then
    v <- yes_no value ;; Done (set_int st debug v)
  else if String.eqb "use_previous" key then
    v <- yes_no value ;; Done (set_int st use_previous v)
  else Abort Illegal_pair_style_command.

(** The [while (iarg < narg)] loop over [arg[iarg ..]], [iarg] advancing by
    two; a keyword without a value is [iarg+2 > narg]. *)
Fixpoint keywords (args : list string) (st : style) : outcome style :=
  match args with
  | [] => Done st
  | [_] => Abort Illegal_pair_style_command
  | key :: value :: rest => st <- keyword key value st ;; keywords rest st
  end.

(** "reset cutoffs that have been explicitly set" *)
Definition reset_cut_lj (st : style) : style :=
  for_range 1 (ntypes + 1) (fun i =>
    for_range (i + 1) (ntypes + 1) (fun j st =>
      if truth (setflag st i j)
      then set_cut_lj st i j (doubles st cut_lj_global)
      else st)) st.

Definition settings (arg : list string) (st : style) : outcome style :=
  match arg with
  | [] => Abort Illegal_pair_style_command
  | a0 :: rest =>
      g <- force_numeric a0 ;;
      let st := set_double st cut_lj_global g in
      st <- match rest with
            | [] => Done (set_double st cut_coul (doubles st cut_lj_global))
            | a1 :: _ => c <- force_numeric a1 ;; Done (set_double st cut_coul c)
            end ;;
      st <- keywords (tl rest) st ;;
      Done (if truth (ints st allocated) then reset_cut_lj st else st)
  end.

(** *** [coeff] *)

(** The two nested loops of [coeff] with the counter [count], which stays
    below the square of the number of types. *)
Definition coeff_loops (ilo ihi jlo jhi : nat) (epsilon_one sigma_one cut_lj_one : float)
    (st : style) : style * Z :=
  for_range ilo (ihi + 1) (fun i =>
    for_range (Nat.max jlo i) (jhi + 1) (fun j '(st, count) =>
      let st := set_epsilon st i j epsilon_one in
      let st := set_sigma st i j sigma_one in
      let st := set_cut_lj st i j cut_lj_one in
      let st := set_setflag st i j 1 in
      (st, (count + 1)%Z))) (st, 0%Z).

Definition coeff (arg : list string) (st : style) : outcome style :=
  let narg := List.length arg in
  if (Nat.ltb narg 4 || Nat.ltb 5 narg)%bool then Abort Incorrect_args
  else
    let st := if truth (ints st allocated) then st else allocate st in
    i <- force_bounds (nth 0 arg EmptyString) ;;
    j <- force_bounds (nth 1 arg EmptyString) ;;
    epsilon_one <- force_numeric (nth 2 arg EmptyString) ;;
    sigma_one <- force_numeric (nth 3 arg EmptyString) ;;
    cut_lj_one <- (if Nat.eqb narg 5 then force_numeric (nth 4 arg EmptyString)
                   else Done (doubles st cut_lj_global)) ;;
    let '(st, count) :=
      coeff_loops (fst i) (snd i) (fst j) (snd j) epsilon_one sigma_one cut_lj_one st in
    if Z.eqb count 0 then Abort Incorrect_args else Done st.

(** *** The restart file *)

(** What [fwrite] stores and [fread] reads: an [int] or a [double], kept
    whole.  A file is the list of its items from the current position. *)
Inductive cell :=
| Int (z : Z)
| Double (d : float).

Definition fwrite_int (z : Z) (fp : list cell) : list cell := fp ++ [Int z].
Definition fwrite_double (d : float) (fp : list cell) : list cell := fp ++ [Double d].

(** [fread(&v, sizeof(int), 1, fp)], whose result the code does not look
    at: at the end of the file [v] keeps its value.  An item of the other
    size would be read in part, which items kept whole cannot express:
    there is no result then. *)
Definition fread_int (old : Z) (fp : list cell) : option (Z * list cell) :=
  match fp with
  | [] => Some (old, [])
  | Int z :: fp => Some (z, fp)
  | Double _ :: _ => None
  end.

Definition fread_double (old : float) (fp : list cell) : option (float * list cell) :=
  match fp with
  | [] => Some (old, [])
  | Double d :: fp => Some (d, fp)
  | Int _ :: _ => None
  end.

Definition read_int (m : int_member) (r : option (style * list cell))
  : option (style * list cell) :=
  match r with
  | Some (st, fp) =>
      match fread_int (ints st m) fp with
      | Some (z, fp) => Some (set_int st m z, fp)
      | None => None
      end
  | None => None
  end.

Definition read_double (m : double_member) (r : option (style * list cell))
  : option (style * list cell) :=
  match r with
  | Some (st, fp) =>
      match fread_double (doubles st m) fp with
      | Some (d, fp) => Some (set_double st m d, fp)
      | None => None
      end
  | None => None
  end.

Definition write_restart_settings (st : style) (fp : list cell) : list cell :=
  let fp := fwrite_double (doubles st cut_lj_global) fp in
  let fp := fwrite_double (doubles st cut_coul) fp in
  let fp := fwrite_int (ints st offset_flag) fp in
  let fp := fwrite_int (ints st mix_flag) fp in
  let fp := fwrite_int (ints st iterations_max) fp in
  let fp := fwrite_int (ints st damping_type) fp in
  let fp := fwrite_double (doubles st polar_damp) fp in
  let fp := fwrite_int (ints st zodid) fp in
  let fp := fwrite_double (doubles st polar_precision) fp in
  let fp := fwrite_int (ints st fixed_iteration) fp in
  let fp := fwrite_int (ints st polar_gs) fp in
  let fp := fwrite_int (ints st polar_gs_ranked) fp in
  let fp := fwrite_double (doubles st polar_gamma) fp in
  fwrite_int (ints st debug) fp.

(** [read_restart_settings] on the process 0, which reads; the broadcasts
    that follow give every other process the same values. *)
Definition read_restart_settings (fp : list cell) (st : style)
  : option (style * list cell) :=
  let r := Some (st, fp) in
  let r := read_double cut_lj_global r in
  let r := read_double cut_coul r in
  let r := read_int offset_flag r in
  let r := read_int mix_flag r in
  let r := read_int iterations_max r in
  let r := read_int damping_type r in
  let r := read_double polar_damp r in
  let r := read_int zodid r in
  let r := read_double polar_precision r in
  let r := read_int fixed_iteration r in
  let r := read_int polar_gs r in
  let r := read_int polar_gs_ranked r in
  let r := read_double polar_gamma r in
  read_int debug r.

(** The body of the loops of [write_restart] for the pair [i], [j]. *)
Definition write_pair (st : style) (i j : nat) (fp : list cell) : list cell :=
  let fp := fwrite_int (setflag st i j) fp in
  if truth (setflag st i j) then
    let fp := fwrite_double (epsilon st i j) fp in
    let fp := fwrite_double (sigma st i j) fp in
    fwrite_double (cut_lj st i j) fp
  else fp.

Definition write_restart (st : style) (fp : list cell) : list cell :=
  let fp := write_restart_settings st fp in
  for_range 1 (ntypes + 1) (fun i =>
    for_range i (ntypes + 1) (fun j fp => write_pair st i j fp)) fp.

(** The body of the loops of [read_restart] for the pair [i], [j], on the
    process 0. *)
Definition read_pair (i j : nat) (r : option (style * list cell))
  : option (style * list cell) :=
  match r with
  | Some (st, fp) =>
      match fread_int (setflag st i j) fp with
      | Some (z, fp) =>
          let st := set_setflag st i j z in
          if truth (setflag st i j) then
            match fread_double (epsilon st i j) fp with
            | Some (e, fp) =>
                let st := set_epsilon st i j e in
                match fread_double (sigma st i j) fp with
                | Some (g, fp) =>
                    let st := set_sigma st i j g in
                    match fread_double (cut_lj st i j) fp with
                    | Some (c, fp) => Some (set_cut_lj st i j c, fp)
                    | None => None
                    end
                | None => None
                end
            | None => None
            end
          else Some (st, fp)
      | None => None
      end
  | None => None
  end.

Definition read_restart (fp : list cell) (st : style) : option (style * list cell) :=
  match read_restart_settings fp st with
  | Some (st, fp) =>
      let st := allocate st in
      for_range 1 (ntypes + 1) (fun i =>
        for_range i (ntypes + 1) (fun j r => read_pair i j r)) (Some (st, fp))
  | None => None
  end.

End Parsing.

End Style.

(** ** Reference configurations

    Concrete settings, particles and states on which the statements below
    are exercised. *)

Module Ref.
Import String.
Local Open Scope float_scope.

(** A domain with no periodic dimension: the closest image of [xj] is [xj]. *)
Definition open_domain (xi xj : nat -> float) : nat -> float := xj.

(** Stands for [exp] where damping is off and [exp] is never called. *)
Definition exp_unused (d : float) : float := 1.0.

Definition vec3 (a b c : float) : nat -> float :=
  fun p => match p with O => a | Datatypes.S O => b | _ => c end.

Definition zeros : arr2 := fun _ _ => 0.0.

(** The defaults of the constructor, with a Coulomb cutoff of 10 and the
    [qqrd2e] of "real" units. *)
Definition defaults : settings :=
  {| iterations_max := 50;
     damping_type := DAMPING_NONE;
     polar_damp := 2.1304;
     zodid := false;
     polar_precision := 0.00000000001;
     fixed_iteration := false;
     polar_gs := false;
     polar_gs_ranked := true;
     polar_gamma := 1.03;
     use_previous := false;
     cut_coul := 10.0;
     cut_coulsq := 100.0;
     qqrd2e := 332.06371 |}.

(** [fixed_iteration yes max_iterations n], otherwise the defaults. *)
Definition fixed (n : Z) : settings :=
  {| iterations_max := n;
     damping_type := DAMPING_NONE;
     polar_damp := 2.1304;
     zodid := false;
     polar_precision := 0.00000000001;
     fixed_iteration := true;
     polar_gs := false;
     polar_gs_ranked := true;
     polar_gamma := 1.03;
     use_previous := false;
     cut_coul := 10.0;
     cut_coulsq := 100.0;
     qqrd2e := 332.06371 |}.

(** The same with [polar_gs_ranked no]: Jacobi updates. *)
Definition fixed_jacobi (n : Z) : settings :=
  {| iterations_max := n;
     damping_type := DAMPING_NONE;
     polar_damp := 2.1304;
     zodid := false;
     polar_precision := 0.00000000001;
     fixed_iteration := true;
     polar_gs := false;
     polar_gs_ranked := false;
     polar_gamma := 1.03;
     use_previous := false;
     cut_coul := 10.0;
     cut_coulsq := 100.0;
     qqrd2e := 332.06371 |}.

(** Two local particles of polarizability 1, no charge, molecule id 0, the
    first at the origin and the second at [pos]. *)
Definition two_atoms (pos : nat -> float) : atoms :=
  {| nlocal := 2;
     nghost := 0;
     x := fun i => match i with O => vec3 0.0 0.0 0.0 | _ => pos end;
     q := fun _ => 0.0;
     molecule := fun _ => 0%Z;
     static_polarizability := fun _ => 1.0 |}.

(** The same two particles with charges [q0] and [q1], both in the
    molecule [mol], the second of polarizability [a1]. *)
Definition two_atoms_in (mol : Z) (q0 q1 a1 : float) (pos : nat -> float) : atoms :=
  {| nlocal := 2;
     nghost := 0;
     x := fun i => match i with O => vec3 0.0 0.0 0.0 | _ => pos end;
     q := fun i => match i with O => q0 | _ => q1 end;
     molecule := fun _ => mol;
     static_polarizability := fun i => match i with O => 1.0 | _ => a1 end |}.

(** Two particles of polarizability 1 at the origin and at [(0.01,0,0)],
    and a third of polarizability 0 at [(5,0,0)]; no charge, molecule id 0. *)
Definition three_atoms : atoms :=
  {| nlocal := 3;
     nghost := 0;
     x := fun i => match i with
                   | O => vec3 0.0 0.0 0.0
                   | Datatypes.S O => vec3 0.01 0.0 0.0
                   | _ => vec3 5.0 0.0 0.0
                   end;
     q := fun _ => 0.0;
     molecule := fun _ => 0%Z;
     static_polarizability :=
       fun i => match i with O => 1.0 | Datatypes.S O => 1.0 | _ => 0.0 end |}.

(** A state with every array cleared. *)
Definition cleared : state :=
  {| ef_static := zeros;
     mu_induced := zeros;
     f := zeros;
     ef_induced := zeros;
     mu_induced_new := zeros;
     mu_induced_old := zeros;
     dipole_field_matrix := zeros;
     ranked_array := fun i => i;
     rank_metric := fun _ => 0.0;
     eng_pol := 0.0;
     events := [] |}.

(** The state on entry to the solver when the static field of the first
    particle is [(1,0,0)], that of the second is zero, and the dipoles hold
    the first guess for polarizability 1 and [polar_gamma = 1.03]. *)
Definition unit_field : state :=
  {| ef_static := fun i => match i with O => vec3 1.0 0.0 0.0 | _ => vec3 0.0 0.0 0.0 end;
     mu_induced := fun i => match i with O => vec3 1.03 0.0 0.0 | _ => vec3 0.0 0.0 0.0 end;
     f := zeros;
     ef_induced := zeros;
     mu_induced_new := zeros;
     mu_induced_old := zeros;
     dipole_field_matrix := zeros;
     ranked_array := fun i => i;
     rank_metric := fun _ => 0.0;
     eng_pol := 0.0;
     events := [] |}.

(** [zodid yes] with both Gauss-Seidel switches off, otherwise the
    defaults. *)
Definition zodid_on : settings :=
  {| iterations_max := 50;
     damping_type := DAMPING_NONE;
     polar_damp := 2.1304;
     zodid := true;
     polar_precision := 0.00000000001;
     fixed_iteration := false;
     polar_gs := false;
     polar_gs_ranked := false;
     polar_gamma := 1.03;
     use_previous := false;
     cut_coul := 10.0;
     cut_coulsq := 100.0;
     qqrd2e := 332.06371 |}.

(** Two local particles two units apart and one ghost particle, all of
    polarizability 1 and charge 1, molecule id 0. *)
Definition two_local_one_ghost : atoms :=
  {| nlocal := 2;
     nghost := 1;
     x := fun i => match i with
                   | O => vec3 0.0 0.0 0.0
                   | Datatypes.S O => vec3 2.0 0.0 0.0
                   | _ => vec3 4.0 0.0 0.0
                   end;
     q := fun _ => 1.0;
     molecule := fun _ => 0%Z;
     static_polarizability := fun _ => 1.0 |}.

(** A cleared state in which the ghost particle holds a dipole and a
    static field. *)
Definition ghost_state : state :=
  {| ef_static := fun i => match i with
                           | Datatypes.S (Datatypes.S O) => vec3 0.25 0.0 0.0
                           | _ => vec3 0.0 0.0 0.0
                           end;
     mu_induced := fun i => match i with
                            | Datatypes.S (Datatypes.S O) => vec3 7.0 0.0 0.0
                            | _ => vec3 0.0 0.0 0.0
                            end;
     f := zeros;
     ef_induced := zeros;
     mu_induced_new := zeros;
     mu_induced_old := zeros;
     dipole_field_matrix := zeros;
     ranked_array := fun i => i;
     rank_metric := fun _ => 0.0;
     eng_pol := 0.0;
     events := [] |}.

(** Two charged particles that cannot be polarized, two units apart. *)
Definition inert_pair : atoms :=
  {| nlocal := 2;
     nghost := 0;
     x := fun i => match i with O => vec3 0.0 0.0 0.0 | _ => vec3 2.0 0.0 0.0 end;
     q := fun i => match i with O => 1.0 | _ => -1.0 end;
     molecule := fun _ => 0%Z;
     static_polarizability := fun _ => 0.0 |}.



(** A processor that owns no particle. *)
Definition no_atoms : atoms :=
  {| nlocal := 0;
     nghost := 0;
     x := fun _ => vec3 0.0 0.0 0.0;
     q := fun _ => 0.0;
     molecule := fun _ => 0%Z;
     static_polarizability := fun _ => 0.0 |}.

(** A cleared state with the ranking metrics 1, 3 and 2. *)
Definition ranked_state : state :=
  {| ef_static := zeros;
     mu_induced := zeros;
     f := zeros;
     ef_induced := zeros;
     mu_induced_new := zeros;
     mu_induced_old := zeros;
     dipole_field_matrix := zeros;
     ranked_array := fun i => i;
     rank_metric := fun i => match i with
                             | O => 1.0
                             | Datatypes.S O => 3.0
                             | _ => 2.0
                             end;
     eng_pol := 0.0;
     events := [] |}.

(** The pair style as the constructor leaves it, before [allocate]. *)
Definition style_defaults : Style.style :=
  {| Style.ints := fun m => match m with
                            | Style.iterations_max => 50%Z
                            | Style.damping_type => 1%Z
                            | Style.polar_gs_ranked => 1%Z
                            | _ => 0%Z
                            end;
     Style.doubles := fun m => match m with
                               | Style.polar_damp => 2.1304
                               | Style.polar_precision => 0.00000000001
                               | Style.polar_gamma => 1.03
                               | _ => 0.0
                               end;
     Style.setflag := fun _ _ => 0%Z;
     Style.epsilon := zeros;
     Style.sigma := zeros;
     Style.cut_lj := zeros |}.

(** The same after [pair_coeff 1 2] and [pair_coeff 1 1] with a cutoff of
    8. *)
Definition style_with_pairs : Style.style :=
  {| Style.ints := fun m => match m with
                            | Style.iterations_max => 50%Z
                            | Style.damping_type => 1%Z
                            | Style.polar_gs_ranked => 1%Z
                            | Style.allocated => 1%Z
                            | _ => 0%Z
                            end;
     Style.doubles := Style.doubles style_defaults;
     Style.setflag := fun i j => match i, j with
                                 | Datatypes.S O, Datatypes.S O => 1%Z
                                 | Datatypes.S O, Datatypes.S (Datatypes.S O) => 1%Z
                                 | _, _ => 0%Z
                                 end;
     Style.epsilon := zeros;
     Style.sigma := zeros;
     Style.cut_lj := fun _ _ => 8.0 |}.

(** Newly created arrays, here with 9 in every cell. *)
Definition created_ref : Style.created :=
  {| Style.new_setflag := fun _ _ => 9%Z;
     Style.new_epsilon := fun _ _ => 9.0;
     Style.new_sigma := fun _ _ => 9.0;
     Style.new_cut_lj := fun _ _ => 9.0 |}.

(** A few spellings of numbers and of type ranges, as [force->numeric],
    [force->inumeric] and [force->bounds] read them. *)
Definition numeric_ref (s : String.string) : option float :=
  if String.eqb s "0.5" then Some 0.5
  else if String.eqb s "3.4" then Some 3.4
  else if String.eqb s "10.0" then Some 10.0
  else if String.eqb s "12.0" then Some 12.0
  else None.

Definition inumeric_ref (s : String.string) : option Z :=
  if String.eqb s "100" then Some 100%Z else None.

Definition bounds_ref (s : String.string) (nmax : nat) : option (nat * nat) :=
  if String.eqb s "*" then Some (1%nat, nmax)
  else if String.eqb s "1" then (if Nat.leb 1 nmax then Some (1%nat, 1%nat) else None)
  else if String.eqb s "2" then (if Nat.leb 2 nmax then Some (2%nat, 2%nat) else None)
  else None.

End Ref.
(** ** The pair style *)

Section PairStyle.

(** [domain->closest_image(xi,xj,xjimage)]: the periodic image of [xj]
    nearest to [xi]; a collaborator of the pair style. *)
Variable closest_image : (nat -> float) -> (nat -> float) -> (nat -> float).

(** [exp] of <math.h>. *)
Variable c_exp : float -> float.

Variable cfg : settings.
Variable at_ : atoms.

Local Open Scope float_scope.

(** The test [(molecule[i]!=molecule[j])||molecule[i]==0]. *)
Definition molecule_gate (i j : nat) : bool :=
  (negb (Z.eqb (molecule at_ i) (molecule at_ j)) || Z.eqb (molecule at_ i) 0)%bool.

(** *** [build_dipole_field_matrix] *)

(** [r3] and [r5] of one pair, from [r = sqrt(r2)]. *)
Definition inverse_powers (r : float) : float * float :=
  if r =? 0.0 then (Dbl.DBL_MAX, Dbl.DBL_MAX)
  else (1.0 / (r * r * r), 1.0 / (r * r * r * r * r)).

(** [damping_term1] and [damping_term2] of one pair.  Both locals start at
    [1.0] and are assigned only in the exponential branch, on every pair. *)
Definition damping_terms (r r2 : float) : float * float :=
  match damping_type cfg with
  | DAMPING_EXPONENTIAL =>
      let pd := polar_damp cfg in
      (1.0 - c_exp (- pd * r) * (0.5 * pd * pd * r2 + pd * r + 1.0),
       1.0 - c_exp (- pd * r)
             * (pd * pd * pd * r2 * r / 6.0 + 0.5 * pd * pd * r2 + pd * r + 1.0))
  | DAMPING_NONE => (1.0, 1.0)
  end.

(** The body of the pair loop: the block [T_ij] and its copy below the
    diagonal. *)
Definition pair_block (i j : nat) (m : arr2) : arr2 :=
  let ii := (i * 3)%nat in
  let jj := (j * 3)%nat in
  let xi := x at_ i in
  let xj := x at_ j in
  let xjimage := closest_image xi xj in
  let r2 := Dbl.pow2 (xi 0%nat - xjimage 0%nat)
            + Dbl.pow2 (xi 1%nat - xjimage 1%nat)
            + Dbl.pow2 (xi 2%nat - xjimage 2%nat) in
  let r := sqrt r2 in
  let '(r3, r5) := inverse_powers r in
  let '(damping_term1, damping_term2) := damping_terms r r2 in
  let m :=
    for_range 0 3 (fun p =>
      for_range 0 3 (fun q m =>
        let m := set2 m (ii + p) (jj + q)
                   (-3.0 * (x at_ i p - xjimage p) * (x at_ i q - xjimage q)
                    * damping_term2 * r5) in
        if Nat.eqb p q
        then set2 m (ii + p) (jj + q) (m (ii + p)%nat (jj + q)%nat + damping_term1 * r3)
        else m)) m in
  for_range 0 3 (fun p =>
    for_range 0 3 (fun q m =>
      set2 m (jj + p) (ii + q) (m (ii + p)%nat (jj + q)%nat))) m.

Definition zero_matrix (N : nat) (m : arr2) : arr2 :=
  for_range 0 (3 * N) (fun i =>
    for_range 0 (3 * N) (fun j m => set2 m i j 0)) m.

Definition diagonal_blocks (N : nat) (m : arr2) : arr2 :=
  for_range 0 N (fun i m =>
    let ii := (i * 3)%nat in
    for_range 0 3 (fun p m =>
      if Dbl.ne (static_polarizability at_ i) 0.0
      then set2 m (ii + p) (ii + p) (1.0 / static_polarizability at_ i)
      else set2 m (ii + p) (ii + p) Dbl.DBL_MAX) m) m.

Definition pair_blocks (N : nat) (m : arr2) : arr2 :=
  for_range 0 (N - 1) (fun i =>
    for_range (i + 1) N (fun j m => pair_block i j m)) m.

Definition build_dipole_field_matrix (s : state) : state :=
  let N := nlocal at_ in
  set_dipole_field_matrix s
    (pair_blocks N (diagonal_blocks N (zero_matrix N (dipole_field_matrix s)))).

(** *** [DipoleSolverIterative] *)

(** One pass of the inner loop of the bubble sort, with its [sorted] flag. *)
Definition bubble_pass (rm : arr1) (ra : nat -> nat) : (nat -> nat) * bool :=
  for_range 0 (nlocal at_ - 1) (fun j '(ra, sorted) =>
    if rm (ra j) <? rm (ra (j + 1)%nat)
    then (seti (seti ra j (ra (j + 1)%nat)) (j + 1) (ra j), false)
    else (ra, sorted)) (ra, true).

(** The outer loop: at most [n] passes, left as soon as one finds the
    array sorted. *)
Fixpoint bubble_sort (n : nat) (rm : arr1) (ra : nat -> nat) : nat -> nat :=
  match n with
  | O => ra
  | Datatypes.S n' =>
      let '(ra', sorted) := bubble_pass rm ra in
      if sorted then ra' else bubble_sort n' rm ra'
  end.

Definition rank_dipoles (s : state) : state :=
  let ra := for_range 0 (nlocal at_) (fun i ra => seti ra i i) (ranked_array s) in
  set_ranked_array s
    (if polar_gs_ranked cfg then bubble_sort (nlocal at_) (rank_metric s) ra else ra).

(** "save old dipoles and clear the induced field" *)
Definition save_old_and_clear (s : state) : state :=
  for_range 0 (nlocal at_) (fun i =>
    for_range 0 3 (fun p s =>
      let s := set_mu_induced_old s (set2 (mu_induced_old s) i p (mu_induced s i p)) in
      set_ef_induced s (set2 (ef_induced s) i p 0))) s.

(** The [j] loop of the contraction for the particle [index]; the term
    [j == index] is skipped. *)
Definition contract_row (index : nat) (s : state) : state :=
  let ii := (index * 3)%nat in
  for_range 0 (nlocal at_) (fun j s =>
    let jj := (j * 3)%nat in
    if negb (Nat.eqb index j) then
      for_range 0 3 (fun p =>
        for_range 0 3 (fun q s =>
          set_ef_induced s
            (set2 (ef_induced s) index p
               (ef_induced s index p
                - dipole_field_matrix s (ii + p)%nat (jj + q)%nat * mu_induced s j q)))) s
    else s) s.

(** "dipole is the sum of the static and induced parts", with the
    Gauss-Seidel commit. *)
Definition update_dipole (index : nat) (s : state) : state :=
  for_range 0 3 (fun p s =>
    let s := set_mu_induced_new s
               (set2 (mu_induced_new s) index p
                  (static_polarizability at_ index
                   * (ef_static s index p + ef_induced s index p))) in
    if (polar_gs cfg || polar_gs_ranked cfg)%bool
    then set_mu_induced s (set2 (mu_induced s) index p (mu_induced_new s index p))
    else s) s.

(** "contract the dipoles with the field tensor": one sweep. *)
Definition contract (s : state) : state :=
  for_range 0 (nlocal at_) (fun i s =>
    let index := ranked_array s i in
    update_dipole index (contract_row index s)) s.

Definition sweep (s : state) : state :=
  emit EvSweep (contract (save_old_and_clear s)).

(** The accumulated [change] of the precision branch, before the division. *)
Definition change_sum (s : state) : float :=
  for_range 0 (nlocal at_) (fun i =>
    for_range 0 3 (fun p change =>
      change + (mu_induced_new s i p - mu_induced_old s i p)
               * (mu_induced_new s i p - mu_induced_old s i p))) 0.

(** [change /= (double)(nlocal)*3.0]. *)
Definition change_mean (s : state) : float :=
  change_sum s / (Dbl.of_nat (nlocal at_) * 3.0).

(** The precision branch: the value left in [keep_iterating]. *)
Definition precision_test (s : state) : bool :=
  Dbl.gt (change_mean s) (polar_precision cfg * polar_precision cfg).

(** "save the dipoles for the next pass" *)
Definition save_dipoles (s : state) : state :=
  for_range 0 (nlocal at_) (fun i =>
    for_range 0 3 (fun p s =>
      set_mu_induced s (set2 (mu_induced s) i p (mu_induced_new s i p)))) s.

(** "if we fail to converge, then set dipoles to alpha*E" *)
Definition reset_dipoles (s : state) : state :=
  for_range 0 (nlocal at_) (fun i =>
    for_range 0 3 (fun p s =>
      set_mu_induced s
        (set2 (mu_induced s) i p (static_polarizability at_ i * ef_static s i p)))) s.

(** The branch "determine if we are done by precision ... or by fixed
    iteration" for the pass that found [iterations]: [None] is
    [return iterations]; otherwise the value of [keep_iterating] (still [1]
    in fixed-iteration mode) and the state. *)
Definition done_test (iterations : Z) (s : state) : option (bool * state) :=
  if negb (fixed_iteration cfg)
  then Some (precision_test s, emit EvPrecisionTest s)
  else if (iterations >=? iterations_max cfg)%Z then None
       else Some (true, s).

(** The [while (keep_iterating)] loop, entered with [keep_iterating = 1].
    Each unit of fuel pays for one pass of the body; [None] is fuel
    exhausted.  The result is the returned [iterations] and the state. *)
Fixpoint solver_loop (fuel : nat) (iterations : Z) (s : state) : option (Z * state) :=
  match fuel with
  | O => None
  | Datatypes.S fuel' =>
      let s := sweep s in
      match done_test iterations s with
      | None => Some (iterations, s)
      | Some (keep_iterating, s) =>
          let s := save_dipoles s in
          let iterations := (iterations + 1)%Z in
          (* divergence detection *)
          if (iterations >? iterations_max cfg)%Z
          then Some (iterations, emit EvWarning (reset_dipoles s))
          else if keep_iterating then solver_loop fuel' iterations s
               else Some (iterations, s)
      end
  end.

Definition DipoleSolverIterative (fuel : nat) (s : state) : option (Z * state) :=
  solver_loop fuel 0%Z (rank_dipoles (build_dipole_field_matrix s)).

(** *** [compute]: the polarization part *)

(** The argument [eflag] of [compute]. *)
Variable eflag : bool.

Definition clear_ef_static (s : state) : state :=
  for_range 0 (nlocal at_) (fun i s =>
    let s := set_ef_static s (set2 (ef_static s) i 0 0) in
    let s := set_ef_static s (set2 (ef_static s) i 1 0) in
    set_ef_static s (set2 (ef_static s) i 2 0)) s.

(** The distance used by the ranking, without minimum image. *)
Definition rank_distance (i j : nat) : float :=
  sqrt (Dbl.pow2 (x at_ i 0%nat - x at_ j 0%nat)
        + Dbl.pow2 (x at_ i 1%nat - x at_ j 1%nat)
        + Dbl.pow2 (x at_ i 2%nat - x at_ j 2%nat)).

(** [rmin]: the loop that starts from [1000.0]. *)
Definition rank_rmin : float :=
  let ntotal := (nlocal at_ + nghost at_)%nat in
  for_range 0 (nlocal at_) (fun i =>
    for_range 0 ntotal (fun j rmin =>
      if negb (Nat.eqb i j) then
        let r := rank_distance i j in
        if (Dbl.gt (static_polarizability at_ i) 0
            && Dbl.gt (static_polarizability at_ j) 0
            && Dbl.gt rmin r && molecule_gate i j)%bool
        then r else rmin
      else rmin)) 1000.0.

(** "sort the dipoles most likey to change if using polar_gs_ranked":
    the metric of every local particle. *)
Definition rank_metrics (s : state) : state :=
  let ntotal := (nlocal at_ + nghost at_)%nat in
  let rmin := rank_rmin in
  let s := for_range 0 (nlocal at_) (fun i s =>
             set_rank_metric s (set1 (rank_metric s) i 0)) s in
  for_range 0 (nlocal at_) (fun i =>
    for_range 0 ntotal (fun j s =>
      if negb (Nat.eqb i j) then
        let r := rank_distance i j in
        if (Dbl.gt (rmin * 1.5) r && molecule_gate i j)%bool
        then set_rank_metric s
               (set1 (rank_metric s) i
                  (rank_metric s i
                   + static_polarizability at_ i * static_polarizability at_ j))
        else s
      else s)) s.

Definition f_shift : float := -1.0 / (cut_coul cfg * cut_coul cfg).

(** [a[i][p] += v] and [a[i][p] -= v]. *)
Definition add2 (a : arr2) (i p : nat) (v : float) : arr2 := set2 a i p (a i p + v).
Definition sub2 (a : arr2) (i p : nat) (v : float) : arr2 := set2 a i p (a i p - v).

(** The body of the static field loop for the pair [i < j]. *)
Definition static_field_pair (i j : nat) (s : state) : state :=
  let qtmp := q at_ i in
  let xjimage := closest_image (x at_ i) (x at_ j) in
  let delx := x at_ i 0%nat - xjimage 0%nat in
  let dely := x at_ i 1%nat - xjimage 1%nat in
  let delz := x at_ i 2%nat - xjimage 2%nat in
  let rsq := delx * delx + dely * dely + delz * delz in
  if rsq <=? cut_coulsq cfg then
    if molecule_gate i j then
      let r := sqrt rsq in
      (* Use wolf to calculate the electric field (no damping) *)
      let dvdrr := 1.0 / rsq + f_shift in
      let ef_temp := dvdrr * 1.0 / r in
      let s := set_ef_static s (add2 (ef_static s) i 0 (ef_temp * q at_ j * delx)) in
      let s := set_ef_static s (add2 (ef_static s) i 1 (ef_temp * q at_ j * dely)) in
      let s := set_ef_static s (add2 (ef_static s) i 2 (ef_temp * q at_ j * delz)) in
      let s := set_ef_static s (sub2 (ef_static s) j 0 (ef_temp * qtmp * delx)) in
      let s := set_ef_static s (sub2 (ef_static s) j 1 (ef_temp * qtmp * dely)) in
      set_ef_static s (sub2 (ef_static s) j 2 (ef_temp * qtmp * delz))
    else s
  else s.

(** "calculate static electric field using minimum image" *)
Definition static_field (s : state) : state :=
  for_range 0 (nlocal at_) (fun i =>
    for_range (i + 1) (nlocal at_) (fun j s => static_field_pair i j s)) s.

Definition elementary_charge_to_sqrt_energy_length : float := sqrt (qqrd2e cfg).

(** "set the static electric field and first guess to alpha*E", for the
    particle [i]. *)
Definition first_guess_atom (i : nat) (s : state) : state :=
  let e := elementary_charge_to_sqrt_energy_length in
  let s := set_ef_static s (set2 (ef_static s) i 0 (ef_static s i 0%nat * e)) in
  let s := set_ef_static s (set2 (ef_static s) i 1 (ef_static s i 1%nat * e)) in
  let s := set_ef_static s (set2 (ef_static s) i 2 (ef_static s i 2%nat * e)) in
  if negb (use_previous cfg) then
    let a := static_polarizability at_ i in
    let s := set_mu_induced s (set2 (mu_induced s) i 0 (a * ef_static s i 0%nat)) in
    let s := set_mu_induced s (set2 (mu_induced s) i 1 (a * ef_static s i 1%nat)) in
    let s := set_mu_induced s (set2 (mu_induced s) i 2 (a * ef_static s i 2%nat)) in
    let s := set_mu_induced s
               (set2 (mu_induced s) i 0 (mu_induced s i 0%nat * polar_gamma cfg)) in
    let s := set_mu_induced s
               (set2 (mu_induced s) i 1 (mu_induced s i 1%nat * polar_gamma cfg)) in
    set_mu_induced s (set2 (mu_induced s) i 2 (mu_induced s i 2%nat * polar_gamma cfg))
  else s.

Definition first_guess (s : state) : state :=
  for_range 0 (nlocal at_) first_guess_atom s.

(** Three doubles: [forcecoulx], [forcecouly], [forcecoulz]. *)
Definition triple := (float * float * float)%type.

(** The geometry of the pair [i], [j] in the force loop. *)
Record geometry := {
  delx : float; dely : float; delz : float;
  xsq : float; ysq : float; zsq : float; rsq : float;
  r2inv : float; rinv : float; r : float; r3inv : float
}.

Definition pair_geometry (i j : nat) : geometry :=
  let xjimage := closest_image (x at_ i) (x at_ j) in
  let delx := x at_ i 0%nat - xjimage 0%nat in
  let dely := x at_ i 1%nat - xjimage 1%nat in
  let delz := x at_ i 2%nat - xjimage 2%nat in
  let xsq := delx * delx in
  let ysq := dely * dely in
  let zsq := delz * delz in
  let rsq := xsq + ysq + zsq in
  let r2inv := 1.0 / rsq in
  let rinv := sqrt r2inv in
  let r := 1.0 / rinv in
  let r3inv := r2inv * rinv in
  {| delx := delx; dely := dely; delz := delz;
     xsq := xsq; ysq := ysq; zsq := zsq; rsq := rsq;
     r2inv := r2inv; rinv := rinv; r := r; r3inv := r3inv |}.

(** [common_factor * (...)] of the charge-dipole force, for the dipole
    [m] ([mu[i]] or [mu[j]]). *)
Definition charge_dipole_force (g : geometry) (common_factor : float)
    (m : nat -> float) : triple :=
  (common_factor
   * (m 0%nat * ((-2.0 * xsq g + ysq g + zsq g) * r2inv g + f_shift * (ysq g + zsq g))
      + m 1%nat * (-3.0 * delx g * dely g * r2inv g - f_shift * delx g * dely g)
      + m 2%nat * (-3.0 * delx g * delz g * r2inv g - f_shift * delx g * delz g)),
   common_factor
   * (m 0%nat * (-3.0 * delx g * dely g * r2inv g - f_shift * delx g * dely g)
      + m 1%nat * ((-2.0 * ysq g + xsq g + zsq g) * r2inv g + f_shift * (xsq g + zsq g))
      + m 2%nat * (-3.0 * dely g * delz g * r2inv g - f_shift * dely g * delz g)),
   common_factor
   * (m 0%nat * (-3.0 * delx g * delz g * r2inv g - f_shift * delx g * delz g)
      + m 1%nat * (-3.0 * dely g * delz g * r2inv g - f_shift * dely g * delz g)
      + m 2%nat * ((-2.0 * zsq g + xsq g + ysq g) * r2inv g + f_shift * (xsq g + ysq g)))).

(** [mu[k][0]*ef_0 + mu[k][1]*ef_1 + mu[k][2]*ef_2] with
    [ef_p = ef_temp*charge*del_p]. *)
Definition charge_dipole_energy (g : geometry) (ef_temp charge : float)
    (m : nat -> float) : float :=
  let ef_0 := ef_temp * charge * delx g in
  let ef_1 := ef_temp * charge * dely g in
  let ef_2 := ef_temp * charge * delz g in
  m 0%nat * ef_0 + m 1%nat * ef_1 + m 2%nat * ef_2.

(** The block guarded by [rsq < cut_coulsq] and by the molecule test:
    "dipole on i, charge on j" then "dipole on j, charge on i".  It maps
    [forcecoul] and [u_polar_ef] to their new values. *)
Definition charge_dipole (i j : nat) (g : geometry) (mu : arr2)
    (fc : triple) (u_polar_ef : float) : triple * float :=
  if rsq g <? cut_coulsq cfg then
    if molecule_gate i j then
      let e := elementary_charge_to_sqrt_energy_length in
      let qtmp := q at_ i in
      (* using wolf again *)
      let dvdrr := 1.0 / rsq g + f_shift in
      let ef_temp := dvdrr * 1.0 / r g * e in
      let '(fc, u_polar_ef) :=
        if (Dbl.ne (static_polarizability at_ i) 0.0 && Dbl.ne (q at_ j) 0.0)%bool then
          let common_factor := q at_ j * e * r3inv g in
          let '(fx, fy, fz) := fc in
          let '(dx, dy, dz) := charge_dipole_force g common_factor (mu i) in
          ((fx + dx, fy + dy, fz + dz),
           if eflag then u_polar_ef - charge_dipole_energy g ef_temp (q at_ j) (mu i)
           else u_polar_ef)
        else (fc, u_polar_ef) in
      if (Dbl.ne (static_polarizability at_ j) 0.0 && Dbl.ne qtmp 0.0)%bool then
        let common_factor := qtmp * e * r3inv g in
        let '(fx, fy, fz) := fc in
        let '(dx, dy, dz) := charge_dipole_force g common_factor (mu j) in
        ((fx - dx, fy - dy, fz - dz),
         if eflag then u_polar_ef + charge_dipole_energy g ef_temp qtmp (mu j)
         else u_polar_ef)
      else (fc, u_polar_ef)
    else (fc, u_polar_ef)
  else (fc, u_polar_ef).

(** "dipole on i, dipole on j interaction", guarded only by the two
    polarizabilities.  It maps [forcecoul] and [u_polar_dd] to their new
    values. *)
Definition dipole_dipole (i j : nat) (g : geometry) (mu : arr2)
    (fc : triple) (u_polar_dd : float) : triple * float :=
  if (Dbl.ne (static_polarizability at_ i) 0.0
      && Dbl.ne (static_polarizability at_ j) 0.0)%bool then
    let '(fx, fy, fz) := fc in
    let r5inv := r3inv g * r2inv g in
    let r7inv := r5inv * r2inv g in
    let pdotp := mu i 0%nat * mu j 0%nat + mu i 1%nat * mu j 1%nat
                 + mu i 2%nat * mu j 2%nat in
    let pidotr := mu i 0%nat * delx g + mu i 1%nat * dely g + mu i 2%nat * delz g in
    let pjdotr := mu j 0%nat * delx g + mu j 1%nat * dely g + mu j 2%nat * delz g in
    match damping_type cfg with
    | DAMPING_EXPONENTIAL =>
        (* exponential dipole-dipole damping *)
        let pd := polar_damp cfg in
        let term_1 := c_exp (- pd * r g) in
        let term_2 := 1.0 + pd * r g + 0.5 * pd * pd * r g * r g in
        let term_3 := 1.0 + pd * r g + 0.5 * pd * pd * r g * r g
                      + 1.0 / 6.0 * pd * pd * pd * r g * r g * r g in
        let pre1 := 3.0 * r5inv * pdotp * (1.0 - term_1 * term_2)
                    - 15.0 * r7inv * pidotr * pjdotr * (1.0 - term_1 * term_3) in
        let pre2 := 3.0 * r5inv * pjdotr * (1.0 - term_1 * term_3) in
        let pre3 := 3.0 * r5inv * pidotr * (1.0 - term_1 * term_3) in
        let pre4 := - pdotp * r3inv g
                    * (- term_1 * (pd * rinv g + pd * pd)
                       + term_1 * pd * term_2 * rinv g) in
        let pre5 := 3.0 * pidotr * pjdotr * r5inv
                    * (- term_1 * (pd * rinv g + pd * pd + 0.5 * r g * pd * pd * pd)
                       + term_1 * pd * term_3 * rinv g) in
        ((fx + (pre1 * delx g + pre2 * mu i 0%nat + pre3 * mu j 0%nat
                + pre4 * delx g + pre5 * delx g),
          fy + (pre1 * dely g + pre2 * mu i 1%nat + pre3 * mu j 1%nat
                + pre4 * dely g + pre5 * dely g),
          fz + (pre1 * delz g + pre2 * mu i 2%nat + pre3 * mu j 2%nat
                + pre4 * delz g + pre5 * delz g)),
         if eflag
         then u_polar_dd + (r3inv g * pdotp * (1.0 - term_1 * term_2)
                            - 3.0 * r5inv * pidotr * pjdotr * (1.0 - term_1 * term_3))
         else u_polar_dd)
    | DAMPING_NONE =>
        (* no dipole-dipole damping *)
        let pre1 := 3.0 * r5inv * pdotp - 15.0 * r7inv * pidotr * pjdotr in
        let pre2 := 3.0 * r5inv * pjdotr in
        let pre3 := 3.0 * r5inv * pidotr in
        ((fx + (pre1 * delx g + pre2 * mu i 0%nat + pre3 * mu j 0%nat),
          fy + (pre1 * dely g + pre2 * mu i 1%nat + pre3 * mu j 1%nat),
          fz + (pre1 * delz g + pre2 * mu i 2%nat + pre3 * mu j 2%nat)),
         if eflag
         then u_polar_dd + (r3inv g * pdotp - 3.0 * r5inv * pidotr * pjdotr)
         else u_polar_dd)
    end
  else (fc, u_polar_dd).

(** The three energy accumulators of the force loop. *)
Record energies := {
  u_polar_self : float;
  u_polar_ef : float;
  u_polar_dd : float
}.

(** [forcecoul] of the pair [i], [j] and the energies after it. *)
Definition pair_force (i j : nat) (mu : arr2) (u : energies) : triple * energies :=
  let g := pair_geometry i j in
  let '(fc, u_ef) := charge_dipole i j g mu (0.0, 0.0, 0.0) (u_polar_ef u) in
  let '(fc, u_dd) := dipole_dipole i j g mu fc (u_polar_dd u) in
  (fc, {| u_polar_self := u_polar_self u; u_polar_ef := u_ef; u_polar_dd := u_dd |}).

(** The body of the [j] loop: the pair force added to [f[i]] and
    subtracted from [f[j]] ([j < nlocal] holds in this loop). *)
Definition force_pair (i j : nat) (su : state * energies) : state * energies :=
  let '(s, u) := su in
  let '((fx, fy, fz), u) := pair_force i j (mu_induced s) u in
  let s := set_f s (add2 (f s) i 0 fx) in
  let s := set_f s (add2 (f s) i 1 fy) in
  let s := set_f s (add2 (f s) i 2 fz) in
  let s := set_f s (sub2 (f s) j 0 fx) in
  let s := set_f s (sub2 (f s) j 1 fy) in
  let s := set_f s (sub2 (f s) j 2 fz) in
  (s, u).

(** "self interaction energy" of the particle [i]. *)
Definition self_energy (i : nat) (mu : arr2) (u : energies) : energies :=
  if (eflag && Dbl.ne (static_polarizability at_ i) 0.0)%bool then
    {| u_polar_self :=
         u_polar_self u
         + 0.5 * (mu i 0%nat * mu i 0%nat + mu i 1%nat * mu i 1%nat
                  + mu i 2%nat * mu i 2%nat)
           / static_polarizability at_ i;
       u_polar_ef := u_polar_ef u; u_polar_dd := u_polar_dd u |}
  else u.

(** "dipole forces": the loop over the pairs and the total energy. *)
Definition dipole_forces (s : state) : state :=
  let '(s, u) :=
    for_range 0 (nlocal at_) (fun i '(s, u) =>
      let u := self_energy i (mu_induced s) u in
      for_range (i + 1) (nlocal at_) (fun j su => force_pair i j su) (s, u))
      (s, {| u_polar_self := 0.0; u_polar_ef := 0.0; u_polar_dd := 0.0 |}) in
  set_eng_pol s (u_polar_self u + u_polar_ef u + u_polar_dd u).

(** The polarization part of [compute]: the ranking metric, the static
    field, the first guess, the solver unless [zodid], the dipole forces
    and the polarization energy.  The result carries the value of
    [iterations].  Left out: the neighbour-list loop of the Lennard-Jones
    and real-space Coulomb forces, which only adds to [f] ([f] on entry
    stands for what it accumulated), the energy and virial tallies, and the
    debug output.  Left out too is the call [comm->forward_comm_pair(this)]
    made under [polar_gs_ranked] before the ranking: through [unpack_comm]
    it overwrites the rows of the ghost particles in
    [static_polarizability], [ef_static] and [mu_induced], and no row of a
    local particle.  So [atoms] is the particle data as the ranking reads
    it, after that call, and of the rows of ghost particles in the state
    the function says something only without [polar_gs_ranked]. *)
Definition compute (fuel : nat) (s : state) : option (Z * state) :=
  let s := clear_ef_static s in
  let s := if polar_gs_ranked cfg then rank_metrics s else s in
  let s := static_field s in
  let s := first_guess s in
  match (if negb (zodid cfg) then DipoleSolverIterative fuel s else Some (0%Z, s)) with
  | None => None
  | Some (iterations, s) => Some (iterations, dipole_forces s)
  end.

(** ** Notions used by the statements *)

(** The entry [(p,q)] of the block [T_ij], as [pair_block i j] computes it:
    the product, and the "additional diagonal term" when [p == q]. *)
Definition tensor_entry (i j p q : nat) : float :=
  let xi := x at_ i in
  let xjimage := closest_image xi (x at_ j) in
  let r2 := Dbl.pow2 (xi 0%nat - xjimage 0%nat)
            + Dbl.pow2 (xi 1%nat - xjimage 1%nat)
            + Dbl.pow2 (xi 2%nat - xjimage 2%nat) in
  let r := sqrt r2 in
  let base := -3.0 * (x at_ i p - xjimage p) * (x at_ i q - xjimage q)
              * snd (damping_terms r r2) * snd (inverse_powers r) in
  if Nat.eqb p q
  then base + fst (damping_terms r r2) * fst (inverse_powers r)
  else base.

(** The cell [(k,l)] lies in the 3x3 block whose first cell is [(a,b)]. *)
Definition in_block (a b k l : nat) : Prop :=
  (a <= k < a + 3 /\ b <= l < b + 3)%nat.

(** Two matrices with the same off-diagonal blocks. *)
Definition off_diagonal_agree (m1 m2 : arr2) : Prop :=
  forall i j p q : nat,
    i <> j -> (p < 3)%nat -> (q < 3)%nat ->
    m1 (i * 3 + p)%nat (j * 3 + q)%nat = m2 (i * 3 + p)%nat (j * 3 + q)%nat.

(** Two states that differ at most in the diagonal blocks of the matrix. *)
Definition agree_off_diagonal (s1 s2 : state) : Prop :=
  ef_static s1 = ef_static s2
  /\ mu_induced s1 = mu_induced s2
  /\ f s1 = f s2
  /\ ef_induced s1 = ef_induced s2
  /\ mu_induced_new s1 = mu_induced_new s2
  /\ mu_induced_old s1 = mu_induced_old s2
  /\ ranked_array s1 = ranked_array s2
  /\ rank_metric s1 = rank_metric s2
  /\ eng_pol s1 = eng_pol s2
  /\ events s1 = events s2
  /\ off_diagonal_agree (dipole_field_matrix s1) (dipole_field_matrix s2).

(** The same, for the results of the solver. *)
Definition results_agree (r1 r2 : option (Z * state)) : Prop :=
  match r1, r2 with
  | Some (n1, s1), Some (n2, s2) => n1 = n2 /\ agree_off_diagonal s1 s2
  | None, None => True
  | _, _ => False
  end.

(** The visiting order reaches every local particle. *)
Definition visits_all (ra : nat -> nat) : Prop :=
  forall i : nat, (i < nlocal at_)%nat ->
    exists k : nat, (k < nlocal at_)%nat /\ ra k = i.


(** The events of [k] passes in precision mode, most recent first. *)
Fixpoint passes_log (k : nat) : list event :=
  match k with
  | O => []
  | Datatypes.S k' => EvPrecisionTest :: EvSweep :: passes_log k'
  end.

(** The cell [(q)] of row [(p)] of the block [(i,j)] that the builder is to
    leave in the matrix: the inverse polarizability or the sentinel on the
    diagonal of a diagonal block, zero elsewhere in it, and the tensor entry
    of the pair, taken with the smaller index first, in the other blocks. *)
Definition matrix_cell (i p j q : nat) : float :=
  if Nat.eqb i j then
    if Nat.eqb p q then
      if Dbl.ne (static_polarizability at_ i) 0.0
      then 1.0 / static_polarizability at_ i
      else Dbl.DBL_MAX
    else 0.0
  else if Nat.ltb i j then tensor_entry i j p q
       else tensor_entry j i p q.

(** Every entry of the visiting order is a local particle. *)
Definition visits_local (ra : nat -> nat) : Prop :=
  forall k : nat, (k < nlocal at_)%nat -> (ra k < nlocal at_)%nat.

(** The rows of the ghost particles in the arrays of [atom] are the same in
    two states. *)
Definition ghosts_kept (s s' : state) : Prop :=
  forall k p : nat, (nlocal at_ <= k)%nat ->
    ef_static s' k p = ef_static s k p
    /\ mu_induced s' k p = mu_induced s k p
    /\ f s' k p = f s k p.

(** The state after [n] passes of the loop that end in the save of the
    dipoles, followed by one sweep: no pass resets the dipoles or warns. *)
Definition fixed_run (n : nat) (s : state) : state :=
  sweep (Nat.iter n (fun s => save_dipoles (sweep s)) s).

(** ** Properties of the loops *)

Local Close Scope float_scope.

(** A property kept by every pass of a counted loop holds after it. *)
Lemma for_from_inv {S : Type} (P : S -> Prop) (body : nat -> S -> S) :
  forall n lo s,
    P s ->
    (forall i s', lo <= i < lo + n -> P s' -> P (body i s')) ->
    P (for_from lo n body s).
Proof.
  induction n as [|n IH]; simpl; intros lo s Hs Hstep.
  - exact Hs.
  - apply IH.
    + apply Hstep; [lia | exact Hs].
    + intros i s' Hi Hs'. apply Hstep; [lia | exact Hs'].
Qed.

Lemma for_range_inv {S : Type} (P : S -> Prop) (lo hi : nat)
    (body : nat -> S -> S) (s : S) :
  P s ->
  (forall i s', lo <= i < hi -> P s' -> P (body i s')) ->
  P (for_range lo hi body s).
Proof.
  intros Hs Hstep. unfold for_range. apply for_from_inv; [exact Hs|].
  intros i s' Hi Hs'. apply Hstep; [lia | exact Hs'].
Qed.

(** Two loops whose bodies agree on related states end in related states. *)
Lemma for_from_rel {S T : Type} (R : S -> T -> Prop)
    (body1 : nat -> S -> S) (body2 : nat -> T -> T) :
  forall n lo s t,
    R s t ->
    (forall i s' t', lo <= i < lo + n -> R s' t' -> R (body1 i s') (body2 i t')) ->
    R (for_from lo n body1 s) (for_from lo n body2 t).
Proof.
  induction n as [|n IH]; simpl; intros lo s t Hst Hstep.
  - exact Hst.
  - apply IH.
    + apply Hstep; [lia | exact Hst].
    + intros i s' t' Hi Hr. apply Hstep; [lia | exact Hr].
Qed.

Lemma for_range_rel {S T : Type} (R : S -> T -> Prop) (lo hi : nat)
    (body1 : nat -> S -> S) (body2 : nat -> T -> T) (s : S) (t : T) :
  R s t ->
  (forall i s' t', lo <= i < hi -> R s' t' -> R (body1 i s') (body2 i t')) ->
  R (for_range lo hi body1 s) (for_range lo hi body2 t).
Proof.
  intros Hst Hstep. unfold for_range. apply for_from_rel; [exact Hst|].
  intros i s' t' Hi Hr. apply Hstep; [lia | exact Hr].
Qed.

(** The last pass of a counted loop. *)
Lemma for_from_snoc {S : Type} (body : nat -> S -> S) :
  forall n lo s,
    for_from lo (Datatypes.S n) body s = body (lo + n) (for_from lo n body s).
Proof.
  induction n as [|n IH]; intros lo s.
  - simpl. now rewrite Nat.add_0_r.
  - change (for_from lo (Datatypes.S (Datatypes.S n)) body s)
      with (for_from (Datatypes.S lo) (Datatypes.S n) body (body lo s)).
    rewrite IH. simpl. now rewrite Nat.add_succ_r.
Qed.

(** Reading an array after a store. *)
Lemma set2_same (a : arr2) (i p : nat) (v : float) : set2 a i p v i p = v.
Proof. unfold set2. now rewrite !Nat.eqb_refl. Qed.

Lemma set2_other (a : arr2) (i p k l : nat) (v : float) :
  k <> i \/ l <> p -> set2 a i p v k l = a k l.
Proof.
  intros H. unfold set2.
  destruct (Nat.eqb_spec k i), (Nat.eqb_spec l p); simpl; try reflexivity.
  exfalso. destruct H as [H|H]; now apply H.
Qed.

(** Solving the side conditions of a frame step. *)
Ltac loop_frame :=
  repeat (apply for_range_inv; [ | intros ]);
  simpl; try assumption; try reflexivity.

(** *** The event log *)

Lemma events_save_old_and_clear (s : state) :
  events (save_old_and_clear s) = events s.
Proof. unfold save_old_and_clear. loop_frame. Qed.

Lemma events_contract_row (index : nat) (s : state) :
  events (contract_row index s) = events s.
Proof.
  unfold contract_row. apply for_range_inv; [reflexivity|].
  intros j s' _ H. destruct (negb (Nat.eqb index j)); [|exact H]. loop_frame.
Qed.

Lemma events_update_dipole (index : nat) (s : state) :
  events (update_dipole index s) = events s.
Proof.
  unfold update_dipole. apply for_range_inv; [reflexivity|].
  intros p s' _ H. destruct (polar_gs cfg || polar_gs_ranked cfg)%bool; exact H.
Qed.

Lemma events_contract (s : state) : events (contract s) = events s.
Proof.
  unfold contract. apply for_range_inv; [reflexivity|].
  intros i s' _ H. now rewrite events_update_dipole, events_contract_row.
Qed.

Lemma events_sweep (s : state) : events (sweep s) = EvSweep :: events s.
Proof.
  unfold sweep. simpl. now rewrite events_contract, events_save_old_and_clear.
Qed.

Lemma events_save_dipoles (s : state) : events (save_dipoles s) = events s.
Proof. unfold save_dipoles. loop_frame. Qed.

Lemma events_reset_dipoles (s : state) : events (reset_dipoles s) = events s.
Proof. unfold reset_dipoles. loop_frame. Qed.

Lemma events_rank_dipoles (s : state) : events (rank_dipoles s) = events s.
Proof. reflexivity. Qed.

Lemma events_build_dipole_field_matrix (s : state) :
  events (build_dipole_field_matrix s) = events s.
Proof. reflexivity. Qed.

(** *** Termination of the solver loop *)

(** The loop returns as soon as the fuel exceeds the number of passes that
    [iterations_max] still allows. *)
Lemma solver_loop_total :
  forall fuel iterations s,
    Z.to_nat (iterations_max cfg - iterations) < fuel ->
    exists r s', solver_loop fuel iterations s = Some (r, s').
Proof.
  induction fuel as [|fuel IH]; intros it s Hf; [lia|].
  simpl. destruct (done_test it (sweep s)) as [[keep s1]|]; [|eauto].
  destruct (Z.gtb_spec (it + 1) (iterations_max cfg)); [eauto|].
  destruct keep; [|eauto]. apply IH. lia.
Qed.

(** More fuel does not change a result. *)
Lemma solver_loop_fuel_mono :
  forall fuel iterations s r,
    solver_loop fuel iterations s = Some r ->
    forall fuel', fuel <= fuel' -> solver_loop fuel' iterations s = Some r.
Proof.
  induction fuel as [|fuel IH]; intros it s r H fuel' Hle; [discriminate|].
  destruct fuel' as [|fuel']; [lia|].
  simpl in *. destruct (done_test it (sweep s)) as [[keep s1]|]; [|exact H].
  destruct (it + 1 >? iterations_max cfg)%Z; [exact H|].
  destruct keep; [|exact H]. apply IH with (1 := H). lia.
Qed.

(** *** Fixed-iteration mode *)

Lemma repeat_snoc_app {A : Type} (a : A) (n : nat) (l : list A) :
  repeat a n ++ a :: l = repeat a (Datatypes.S n) ++ l.
Proof.
  induction n as [|n IH]; simpl; [reflexivity|]. now rewrite IH.
Qed.

(** In fixed-iteration mode, a loop entered with [iterations = it] and
    [it + n = iterations_max] makes [n + 1] sweeps, logs nothing else and
    returns [iterations_max]. *)
Lemma solver_loop_fixed :
  fixed_iteration cfg = true ->
  forall n fuel it s,
    (it + Z.of_nat n = iterations_max cfg)%Z -> n < fuel ->
    exists s',
      solver_loop fuel it s = Some (iterations_max cfg, s')
      /\ events s' = repeat EvSweep (Datatypes.S n) ++ events s.
Proof.
  intros Hfix. induction n as [|n IH]; intros fuel it s Hit Hf;
    (destruct fuel as [|fuel]; [lia|]); simpl; unfold done_test; rewrite Hfix; simpl.
  - replace (it >=? iterations_max cfg)%Z with true by lia.
    exists (sweep s). split; [f_equal; f_equal; lia | apply events_sweep].
  - replace (it >=? iterations_max cfg)%Z with false by lia.
    replace (it + 1 >? iterations_max cfg)%Z with false by lia.
    destruct (IH fuel (it + 1)%Z (save_dipoles (sweep s))) as [s' [Hr He]]; [lia|lia|].
    exists s'. split; [exact Hr|].
    rewrite He, events_save_dipoles, events_sweep.
    apply (repeat_snoc_app EvSweep (Datatypes.S n)).
Qed.

(** In fixed-iteration mode, whatever [iterations_max] is, the events of
    the loop are sweeps, at least one and nothing else. *)
Lemma solver_loop_fixed_events :
  fixed_iteration cfg = true ->
  forall fuel it s r s',
    solver_loop fuel it s = Some (r, s') ->
    exists k, events s' = repeat EvSweep (Datatypes.S k) ++ events s.
Proof.
  intros Hfix. induction fuel as [|fuel IH]; intros it s r s' H; [discriminate|].
  simpl in H. unfold done_test in H. rewrite Hfix in H. simpl in H.
  destruct (Z.geb_spec it (iterations_max cfg)) as [Hge|Hlt].
  - inversion H; subst. exists 0. apply events_sweep.
  - replace (it + 1 >? iterations_max cfg)%Z with false in H by lia.
    apply IH in H. destruct H as [k Hk]. exists (Datatypes.S k).
    rewrite Hk, events_save_dipoles, events_sweep.
    apply (repeat_snoc_app EvSweep (Datatypes.S k)).
Qed.

(** *** Facts about doubles *)

Lemma Prim2SF_zero : Prim2SF zero = S754_zero false.
Proof. reflexivity. Qed.

Lemma SFcompare_refl_finite (s : bool) (m : positive) (e : Z) :
  SFcompare (S754_finite s m e) (S754_finite s m e) = Some Eq.
Proof.
  simpl. rewrite Z.compare_refl, Pos.compare_cont_refl. now destruct s.
Qed.

Lemma is_zero_spec (c : float) :
  is_zero c = match Prim2SF c with S754_zero _ => true | _ => false end.
Proof.
  unfold is_zero. rewrite eqb_spec, Prim2SF_zero.
  destruct (Prim2SF c) as [s| s | | s m e]; try reflexivity; now destruct s.
Qed.

Lemma is_nan_spec (c : float) :
  is_nan c = match Prim2SF c with S754_nan => true | _ => false end.
Proof.
  unfold is_nan. rewrite eqb_spec.
  destruct (Prim2SF c) as [s| s | | s m e] eqn:E; try reflexivity.
  - now destruct s.
  - unfold SFeqb. now rewrite SFcompare_refl_finite.
Qed.




Lemma is_finite_spec (c : float) :
  is_finite c = match Prim2SF c with S754_zero _ | S754_finite _ _ _ => true | _ => false end.
Proof.
  unfold is_finite, is_infinity. rewrite is_nan_spec, eqb_spec, abs_spec.
  replace (Prim2SF infinity) with (S754_infinity false) by reflexivity.
  destruct (Prim2SF c) as [s| s | | s m e]; try reflexivity; now destruct s.
Qed.

Lemma is_zero_mul_finite (a y : float) :
  is_zero a = true -> is_finite y = true -> is_zero (a * y) = true.
Proof.
  rewrite !is_zero_spec, is_finite_spec, mul_spec. unfold SF64mul.
  destruct (Prim2SF a); try discriminate; intros _; now destruct (Prim2SF y).
Qed.

Lemma SFcompare_antisym (a b : spec_float) :
  SFcompare b a = match SFcompare a b with Some c => Some (CompOpp c) | None => None end.
Proof.
  destruct a as [sa|sa| |sa ma ea], b as [sb|sb| |sb mb eb]; simpl;
    try reflexivity; try (now destruct sa); try (now destruct sb);
    try (now destruct sa, sb).
  replace (Pos.compare_cont Eq mb ma) with (CompOpp (Pos.compare_cont Eq ma mb))
    by apply (Pos.compare_cont_antisym ma mb Eq).
  rewrite (Z.compare_antisym ea eb).
  destruct sa, sb; try reflexivity;
    destruct (ea ?= eb)%Z; simpl; try reflexivity;
    destruct (Pos.compare_cont Eq ma mb); reflexivity.
Qed.

Lemma gt_is_not_le (a b : float) :
  is_nan a = false -> is_nan b = false -> (b <? a)%float = negb (a <=? b)%float.
Proof.
  rewrite !is_nan_spec, ltb_spec, leb_spec. unfold SFltb, SFleb.
  rewrite (SFcompare_antisym (Prim2SF a) (Prim2SF b)).
  destruct (Prim2SF a) as [sa|sa| |sa ma ea] eqn:Ea, (Prim2SF b) as [sb|sb| |sb mb eb] eqn:Eb;
    try discriminate; intros _ _;
    match goal with |- context [SFcompare ?x ?y] => destruct (SFcompare x y) as [[| |]|] eqn:E end;
    try reflexivity; simpl in E; try discriminate;
    try (destruct sa; discriminate); try (destruct sb; discriminate);
    try (destruct sa, sb; discriminate).
Qed.

(** *** Counted loops with an indexed invariant *)

Lemma for_from_ind {S : Type} (P : nat -> S -> Prop) (body : nat -> S -> S) :
  forall n lo s,
    P lo s ->
    (forall i s', lo <= i < lo + n -> P i s' -> P (Datatypes.S i) (body i s')) ->
    P (lo + n) (for_from lo n body s).
Proof.
  induction n as [|n IH]; simpl; intros lo s Hs Hstep.
  - now rewrite Nat.add_0_r.
  - rewrite <- Nat.add_succ_comm. apply IH.
    + apply Hstep; [lia | exact Hs].
    + intros i s' Hi Hs'. apply Hstep; [lia | exact Hs'].
Qed.

Lemma for_range_ind {S : Type} (P : nat -> S -> Prop) (lo hi : nat)
    (body : nat -> S -> S) (s : S) :
  lo <= hi ->
  P lo s ->
  (forall i s', lo <= i < hi -> P i s' -> P (Datatypes.S i) (body i s')) ->
  P hi (for_range lo hi body s).
Proof.
  intros Hle Hs Hstep. unfold for_range.
  replace hi with (lo + (hi - lo)) at 1 by lia.
  apply for_from_ind; [exact Hs|].
  intros i s' Hi Hs'. apply Hstep; [lia | exact Hs'].
Qed.

(** The same, followed by a consequence of the invariant. *)
Lemma for_range_ind_then {S : Type} (P : nat -> S -> Prop) (Q : S -> Prop)
    (lo hi : nat) (body : nat -> S -> S) (s : S) :
  lo <= hi ->
  P lo s ->
  (forall i s', lo <= i < hi -> P i s' -> P (Datatypes.S i) (body i s')) ->
  (forall s', P hi s' -> Q s') ->
  Q (for_range lo hi body s).
Proof.
  intros Hle Hs Hstep HQ. apply HQ. now apply for_range_ind.
Qed.

(** Running an inner loop with the invariant [P]. *)
Ltac inner_loop P :=
  match goal with
  | |- context [for_range ?lo ?hi ?b ?st] =>
      pattern (for_range lo hi b st); apply (for_range_ind_then P)
  end.

(** *** What the loops of the solver write *)

(** "save the dipoles for the next pass": every local dipole becomes the
    new one; nothing else changes. *)
Lemma save_dipoles_spec (s : state) :
  let s' := save_dipoles s in
  ef_static s' = ef_static s
  /\ mu_induced_new s' = mu_induced_new s
  /\ mu_induced_old s' = mu_induced_old s
  /\ ranked_array s' = ranked_array s
  /\ dipole_field_matrix s' = dipole_field_matrix s
  /\ (forall i p, i < nlocal at_ -> p < 3 ->
        mu_induced s' i p = mu_induced_new s i p)
  /\ (forall i p, nlocal at_ <= i -> mu_induced s' i p = mu_induced s i p).
Proof.
  unfold save_dipoles.
  apply (for_range_ind (fun n s' =>
    ef_static s' = ef_static s
    /\ mu_induced_new s' = mu_induced_new s
    /\ mu_induced_old s' = mu_induced_old s
    /\ ranked_array s' = ranked_array s
    /\ dipole_field_matrix s' = dipole_field_matrix s
    /\ (forall i p, i < n -> p < 3 -> mu_induced s' i p = mu_induced_new s i p)
    /\ (forall i p, n <= i -> mu_induced s' i p = mu_induced s i p))).
  - lia.
  - repeat (split; [reflexivity|]). split; [intros; lia | reflexivity].
  - intros i s1 Hi IH.
    inner_loop (fun m s' =>
      ef_static s' = ef_static s
      /\ mu_induced_new s' = mu_induced_new s
      /\ mu_induced_old s' = mu_induced_old s
      /\ ranked_array s' = ranked_array s
      /\ dipole_field_matrix s' = dipole_field_matrix s
      /\ (forall k p, k < i \/ (k = i /\ p < m) -> p < 3 ->
            mu_induced s' k p = mu_induced_new s k p)
      /\ (forall k p, i < k -> mu_induced s' k p = mu_induced s k p)).
    + lia.
    + destruct IH as (H1 & H2 & H3 & H4 & H5 & H6 & H7).
      repeat (split; [assumption|]). split.
      * intros k p [Hk|[_ Hp]] Hp3; [now apply H6 | lia].
      * intros k p Hk. apply H7. lia.
    + intros p s2 Hp (H1 & H2 & H3 & H4 & H5 & H6 & H7). simpl.
      repeat (split; [assumption|]). split.
      * intros k p' Hk Hp3.
        destruct (Nat.eq_dec k i) as [->|Hki].
        -- destruct (Nat.eq_dec p' p) as [->|Hpp].
           ++ rewrite set2_same. now rewrite H2.
           ++ rewrite set2_other by (right; exact Hpp). apply H6; [|exact Hp3].
              right. split; [reflexivity|]. destruct Hk as [Hk|[_ Hk]]; lia.
        -- rewrite set2_other by (left; exact Hki). apply H6; [|exact Hp3].
           left. destruct Hk as [Hk|[Hk _]]; [exact Hk | contradiction].
      * intros k p' Hk. rewrite set2_other by (left; lia). now apply H7.
    + intros s2 (H1 & H2 & H3 & H4 & H5 & H6 & H7).
      repeat (split; [assumption|]). split.
      * intros k p Hk Hp3. apply H6; [|exact Hp3].
        destruct (Nat.eq_dec k i) as [->|Hki];
          [right; split; [reflexivity|exact Hp3] | left; lia].
      * intros k p Hk. apply H7. lia.
Qed.

(** A loop over the three components, unrolled. *)
Lemma for_range_0_3 {S : Type} (body : nat -> S -> S) (s : S) :
  for_range 0 3 body s = body 2 (body 1 (body 0 s)).
Proof. reflexivity. Qed.

(** Reading through a chain of stores. *)
Ltac set2_simpl :=
  repeat (rewrite set2_same
          || (rewrite set2_other by lia)).

(** Case analysis on a component index below three. *)
Ltac below_three p :=
  destruct p as [|[|[|p]]]; [ | | | exfalso; lia ].

(** "if we fail to converge, then set dipoles to alpha*E": every local
    dipole becomes the polarizability times the static field, with no
    other factor; the static field is not touched. *)
Lemma reset_dipoles_spec (s : state) :
  let s' := reset_dipoles s in
  ef_static s' = ef_static s
  /\ (forall i p, i < nlocal at_ -> p < 3 ->
        mu_induced s' i p
        = (static_polarizability at_ i * ef_static s i p)%float).
Proof.
  unfold reset_dipoles.
  apply (for_range_ind (fun n s' =>
    ef_static s' = ef_static s
    /\ (forall i p, i < n -> p < 3 ->
          mu_induced s' i p
          = (static_polarizability at_ i * ef_static s i p)%float))).
  - lia.
  - split; [reflexivity | intros; lia].
  - intros i s1 Hi [H1 H2]. rewrite for_range_0_3. simpl. split; [exact H1|].
    intros k p Hk Hp. rewrite H1.
    destruct (Nat.eq_dec k i) as [->|Hki].
    + below_three p; set2_simpl; reflexivity.
    + set2_simpl. apply H2; lia.
Qed.

(** *** What a sweep keeps *)

Lemma save_old_and_clear_frame (s : state) :
  let s' := save_old_and_clear s in
  ef_static s' = ef_static s
  /\ mu_induced s' = mu_induced s
  /\ mu_induced_new s' = mu_induced_new s
  /\ ranked_array s' = ranked_array s
  /\ dipole_field_matrix s' = dipole_field_matrix s.
Proof.
  unfold save_old_and_clear.
  apply for_range_inv; [repeat split|].
  intros i s1 _ H. rewrite for_range_0_3. simpl. exact H.
Qed.

Lemma contract_row_frame (index : nat) (s : state) :
  let s' := contract_row index s in
  ef_static s' = ef_static s
  /\ mu_induced s' = mu_induced s
  /\ mu_induced_new s' = mu_induced_new s
  /\ ranked_array s' = ranked_array s
  /\ dipole_field_matrix s' = dipole_field_matrix s.
Proof.
  unfold contract_row.
  apply for_range_inv; [repeat split|].
  intros j s1 _ H. destruct (negb (Nat.eqb index j)); [|exact H].
  rewrite for_range_0_3. simpl. exact H.
Qed.

(** The update of the particle [index]: its new dipole is the
    polarizability times a field; with a Gauss-Seidel flag the dipole is
    committed at once, otherwise no dipole changes. *)
Lemma update_dipole_spec (index : nat) (s : state) :
  let s' := update_dipole index s in
  ef_static s' = ef_static s
  /\ ranked_array s' = ranked_array s
  /\ dipole_field_matrix s' = dipole_field_matrix s
  /\ (forall p, p < 3 ->
        mu_induced_new s' index p
        = (static_polarizability at_ index
           * (ef_static s index p + ef_induced s index p))%float)
  /\ (forall k p, k <> index -> mu_induced_new s' k p = mu_induced_new s k p)
  /\ (forall k p, k <> index -> mu_induced s' k p = mu_induced s k p)
  /\ (forall p, p < 3 ->
        mu_induced s' index p
        = if (polar_gs cfg || polar_gs_ranked cfg)%bool
          then mu_induced_new s' index p else mu_induced s index p)
  /\ ((polar_gs cfg || polar_gs_ranked cfg)%bool = false ->
        mu_induced s' = mu_induced s).
Proof.
  unfold update_dipole. rewrite for_range_0_3.
  destruct (polar_gs cfg || polar_gs_ranked cfg)%bool; simpl;
    (split; [reflexivity|]); (split; [reflexivity|]); (split; [reflexivity|]);
    (split; [intros p Hp; below_three p; set2_simpl; reflexivity|]);
    (split; [intros k p Hk; set2_simpl; reflexivity|]);
    (split; [intros k p Hk; set2_simpl; reflexivity|]);
    (split; [intros p Hp; below_three p; set2_simpl; reflexivity|]);
    intros H; try discriminate; reflexivity.
Qed.

(** Without a Gauss-Seidel flag a sweep leaves every dipole as it was:
    the update is held in [mu_induced_new]. *)
Lemma contract_jacobi (s : state) :
  polar_gs cfg = false -> polar_gs_ranked cfg = false ->
  mu_induced (contract s) = mu_induced s.
Proof.
  intros Hgs Hgr. unfold contract.
  apply for_range_inv; [reflexivity|].
  intros i s1 _ H.
  destruct (update_dipole_spec (ranked_array s1 i) (contract_row (ranked_array s1 i) s1))
    as (_ & _ & _ & _ & _ & _ & _ & Hmu).
  rewrite Hmu by (rewrite Hgs, Hgr; reflexivity).
  destruct (contract_row_frame (ranked_array s1 i) s1) as (_ & Hcr & _).
  now rewrite Hcr.
Qed.

Lemma sweep_jacobi (s : state) :
  polar_gs cfg = false -> polar_gs_ranked cfg = false ->
  mu_induced (sweep s) = mu_induced s.
Proof.
  intros Hgs Hgr. unfold sweep. simpl. rewrite contract_jacobi by assumption.
  now destruct (save_old_and_clear_frame s) as (_ & H & _).
Qed.

Lemma contract_frame (s : state) :
  let s' := contract s in
  ef_static s' = ef_static s
  /\ ranked_array s' = ranked_array s
  /\ dipole_field_matrix s' = dipole_field_matrix s.
Proof.
  unfold contract. apply for_range_inv; [repeat split|].
  intros i s1 _ (H1 & H2 & H3).
  destruct (update_dipole_spec (ranked_array s1 i) (contract_row (ranked_array s1 i) s1))
    as (U1 & U2 & U3 & _).
  destruct (contract_row_frame (ranked_array s1 i) s1) as (C1 & _ & _ & C4 & C5).
  rewrite U1, U2, U3, C1, C4, C5. now repeat split.
Qed.

Lemma sweep_frame (s : state) :
  let s' := sweep s in
  ef_static s' = ef_static s
  /\ ranked_array s' = ranked_array s
  /\ dipole_field_matrix s' = dipole_field_matrix s.
Proof.
  unfold sweep. simpl.
  destruct (contract_frame (save_old_and_clear s)) as (C1 & C2 & C3).
  destruct (save_old_and_clear_frame s) as (S1 & _ & _ & S4 & S5).
  rewrite C1, C2, C3, S1, S4, S5. now repeat split.
Qed.

(** *** Particles of zero polarizability *)





(** The state that [done_test] hands on is the state after the sweep, up
    to the event log. *)
Lemma done_test_state (it : Z) (s : state) (keep : bool) (s1 : state) :
  done_test it s = Some (keep, s1) ->
  s1 = s \/ s1 = emit EvPrecisionTest s.
Proof.
  unfold done_test. destruct (negb (fixed_iteration cfg)).
  - intros H. inversion H. now right.
  - destruct (it >=? iterations_max cfg)%Z; [discriminate|].
    intros H. inversion H. now left.
Qed.


(** *** The visiting order *)

Lemma seti_same (a : nat -> nat) (i v : nat) : seti a i v i = v.
Proof. unfold seti. now rewrite Nat.eqb_refl. Qed.

Lemma seti_other (a : nat -> nat) (i v k : nat) : k <> i -> seti a i v k = a k.
Proof. intros H. unfold seti. now destruct (Nat.eqb_spec k i). Qed.

(** Exchanging two neighbours keeps every particle in the order. *)
Lemma swap_visits_all (ra : nat -> nat) (j : nat) :
  j + 1 < nlocal at_ ->
  visits_all ra ->
  visits_all (seti (seti ra j (ra (j + 1))) (j + 1) (ra j)).
Proof.
  intros Hj Hv i Hi. destruct (Hv i Hi) as [k [Hk Hki]].
  destruct (Nat.eq_dec k j) as [->|Hkj].
  - exists (j + 1). split; [exact Hj|]. now rewrite seti_same.
  - destruct (Nat.eq_dec k (j + 1)) as [->|Hkj1].
    + exists j. split; [lia|]. rewrite seti_other by lia. now rewrite seti_same.
    + exists k. split; [exact Hk|]. now rewrite !seti_other by lia.
Qed.

Lemma bubble_pass_visits_all (rm : arr1) (ra : nat -> nat) :
  visits_all ra -> visits_all (fst (bubble_pass rm ra)).
Proof.
  intros Hv. unfold bubble_pass.
  apply (for_range_inv (fun rs : (nat -> nat) * bool => visits_all (fst rs))).
  - exact Hv.
  - intros j [ra1 sorted] Hj H1. simpl in H1.
    destruct (PrimFloat.ltb (rm (ra1 j)) (rm (ra1 (j + 1)))); simpl; [|exact H1].
    apply swap_visits_all; [lia | exact H1].
Qed.

Lemma bubble_sort_visits_all (rm : arr1) :
  forall n ra, visits_all ra -> visits_all (bubble_sort n rm ra).
Proof.
  induction n as [|n IH]; intros ra Hv; simpl; [exact Hv|].
  pose proof (bubble_pass_visits_all rm ra Hv) as Hp.
  destruct (bubble_pass rm ra) as [ra1 sorted]. simpl in Hp.
  destruct sorted; [exact Hp | now apply IH].
Qed.

(** [ranked_array[i] = i] reaches every particle, and so does the order
    that the bubble sort leaves. *)
Lemma rank_dipoles_visits_all (s : state) :
  visits_all (ranked_array (rank_dipoles s)).
Proof.
  unfold rank_dipoles. simpl.
  assert (Hid : visits_all
                  (for_range 0 (nlocal at_) (fun i ra => seti ra i i) (ranked_array s))).
  { intros i Hi. exists i. split; [exact Hi|]. revert i Hi.
    apply (for_range_ind (fun n (ra : nat -> nat) => forall i, i < n -> ra i = i)).
    - lia.
    - intros; lia.
    - intros n ra _ IH i Hi. destruct (Nat.eq_dec i n) as [->|Hne].
      + apply seti_same.
      + rewrite seti_other by exact Hne. apply IH. lia. }
  destruct (polar_gs_ranked cfg); [now apply bubble_sort_visits_all | exact Hid].
Qed.


(** *** The first guess *)

(** The first guess scales the static field of every local particle and,
    without [use_previous], sets its dipole to the polarizability times the
    scaled field, times [polar_gamma]. *)
Lemma first_guess_spec (s : state) :
  forall i p, i < nlocal at_ -> p < 3 ->
    ef_static (first_guess s) i p
    = (ef_static s i p * elementary_charge_to_sqrt_energy_length)%float
    /\ (use_previous cfg = false ->
        mu_induced (first_guess s) i p
        = (static_polarizability at_ i * ef_static (first_guess s) i p
           * polar_gamma cfg)%float).
Proof.
  unfold first_guess.
  pattern (for_range 0 (nlocal at_) first_guess_atom s).
  apply (for_range_ind_then (fun n s' =>
    (forall k p, n <= k -> ef_static s' k p = ef_static s k p)
    /\ (forall k p, k < n -> p < 3 ->
          ef_static s' k p
          = (ef_static s k p * elementary_charge_to_sqrt_energy_length)%float
          /\ (use_previous cfg = false ->
              mu_induced s' k p
              = (static_polarizability at_ k * ef_static s' k p
                 * polar_gamma cfg)%float)))).
  - lia.
  - split; [reflexivity | intros; lia].
  - intros n s1 Hn [He Hm]. unfold first_guess_atom.
    destruct (use_previous cfg); simpl; split.
    + intros k p Hk. set2_simpl. apply He. lia.
    + intros k p Hk Hp. split; [|discriminate].
      destruct (Nat.eq_dec k n) as [->|Hne].
      * below_three p; set2_simpl; rewrite He by lia; reflexivity.
      * set2_simpl. apply Hm; [lia | exact Hp].
    + intros k p Hk. set2_simpl. apply He. lia.
    + intros k p Hk Hp. destruct (Nat.eq_dec k n) as [->|Hne].
      * split; [|intros _]; below_three p; set2_simpl; rewrite ?He by lia; reflexivity.
      * set2_simpl. destruct (Hm k p) as [Hm1 Hm2]; [lia | exact Hp |].
        split; [exact Hm1 | intros _; now apply Hm2].
  - intros s' [_ H]. exact H.
Qed.


(** *** The force loop *)

(** The force loop reads the dipoles and does not write them. *)
Lemma force_pair_mu (i j : nat) (su : state * energies) :
  mu_induced (fst (force_pair i j su)) = mu_induced (fst su).
Proof.
  unfold force_pair. destruct su as [s u].
  destruct (pair_force i j (mu_induced s) u) as [[[fx fy] fz] u']. reflexivity.
Qed.

Lemma dipole_forces_mu (s : state) :
  mu_induced (dipole_forces s) = mu_induced s.
Proof.
  unfold dipole_forces.
  match goal with
  | |- context [for_range 0 (nlocal at_) ?b ?st] =>
      assert (H : mu_induced (fst (for_range 0 (nlocal at_) b st)) = mu_induced s);
      [ | destruct (for_range 0 (nlocal at_) b st) as [s' u']; exact H ]
  end.
  apply (for_range_inv (fun su : state * energies => mu_induced (fst su) = mu_induced s)).
  - reflexivity.
  - intros i [s1 u1] _ H1. simpl in H1.
    apply (for_range_inv (fun su : state * energies => mu_induced (fst su) = mu_induced s)).
    + exact H1.
    + intros j su _ H2. now rewrite force_pair_mu.
Qed.



(** *** The dipole field matrix *)

(** The first loop of [pair_block]: each cell of the block receives the
    product, plus the additional term on the diagonal of the block. *)
Lemma block_fill_spec (a b : nat) (base : nat -> nat -> float) (c : float) (m : arr2) :
  let m' :=
    for_range 0 3 (fun p =>
      for_range 0 3 (fun q m =>
        let m := set2 m (a + p) (b + q) (base p q) in
        if Nat.eqb p q
        then set2 m (a + p) (b + q) (PrimFloat.add (m (a + p) (b + q)) c)
        else m)) m in
  (forall p q, p < 3 -> q < 3 ->
     m' (a + p) (b + q) = if Nat.eqb p q then (base p q + c)%float else base p q)
  /\ (forall k l, ~ in_block a b k l -> m' k l = m k l).
Proof.
  rewrite !for_range_0_3. cbn [Nat.eqb]. split.
  - intros p q Hp Hq. below_three p; below_three q; cbn [Nat.eqb]; set2_simpl; reflexivity.
  - intros k l Hout. unfold in_block in Hout. set2_simpl. reflexivity.
Qed.

(** The second loop of [pair_block]: the block at [(a',b')] becomes a copy,
    cell by cell, of the block at [(a,b)], when the two do not overlap. *)
Lemma block_copy_spec (a b a' b' : nat) (m : arr2) :
  a + 3 <= a' \/ a' + 3 <= a \/ b + 3 <= b' \/ b' + 3 <= b ->
  let m' :=
    for_range 0 3 (fun p =>
      for_range 0 3 (fun q m =>
        set2 m (a' + p) (b' + q) (m (a + p) (b + q)))) m in
  (forall p q, p < 3 -> q < 3 -> m' (a' + p) (b' + q) = m (a + p) (b + q))
  /\ (forall k l, ~ in_block a' b' k l -> m' k l = m k l).
Proof.
  intros Hdis.
  apply (for_range_ind (fun n (m' : arr2) =>
    (forall p q, p < n -> q < 3 -> m' (a' + p) (b' + q) = m (a + p) (b + q))
    /\ (forall k l, ~ (a' <= k < a' + n /\ b' <= l < b' + 3) -> m' k l = m k l))).
  - lia.
  - split; [intros; lia | reflexivity].
  - intros p m1 Hp [Hdone Hrest]. rewrite for_range_0_3. split.
    + intros p' q Hp' Hq. destruct (Nat.eq_dec p' p) as [->|Hne].
      * below_three q; set2_simpl; apply Hrest; lia.
      * set2_simpl. apply Hdone; lia.
    + intros k l Hout. set2_simpl. apply Hrest. lia.
Qed.

(** [pair_block i j] writes [T_ij] into the block [(i,j)] and the same
    cells, in the same places, into the block [(j,i)]; it writes nothing
    else. *)
Lemma pair_block_spec (i j : nat) (m : arr2) :
  i <> j ->
  (forall p q, p < 3 -> q < 3 ->
     pair_block i j m (i * 3 + p) (j * 3 + q) = tensor_entry i j p q)
  /\ (forall p q, p < 3 -> q < 3 ->
        pair_block i j m (j * 3 + p) (i * 3 + q) = tensor_entry i j p q)
  /\ (forall k l, ~ in_block (i * 3) (j * 3) k l -> ~ in_block (j * 3) (i * 3) k l ->
        pair_block i j m k l = m k l).
Proof.
  intros Hij. unfold pair_block, tensor_entry.
  set (xjimage := closest_image (x at_ i) (x at_ j)).
  set (r2 := (Dbl.pow2 _ + Dbl.pow2 _ + Dbl.pow2 _)%float).
  destruct (inverse_powers (sqrt r2)) as [r3 r5].
  destruct (damping_terms (sqrt r2) r2) as [d1 d2]. cbn [fst snd].
  match goal with
  | |- context [for_range 0 3 ?outer (for_range 0 3 ?inner m)] =>
      set (m1 := for_range 0 3 inner m)
  end.
  destruct (block_fill_spec (i * 3) (j * 3)
              (fun p q => (-3.0 * (x at_ i p - xjimage p) * (x at_ i q - xjimage q)
                           * d2 * r5)%float)
              (d1 * r3)%float m) as [Hfill Hkeep].
  fold m1 in Hfill, Hkeep.
  destruct (block_copy_spec (i * 3) (j * 3) (j * 3) (i * 3) m1) as [Hcopy Hrest]; [lia|].
  split; [|split].
  - intros p q Hp Hq. rewrite Hrest by (unfold in_block; lia). now apply Hfill.
  - intros p q Hp Hq. rewrite (Hcopy p q Hp Hq). now apply Hfill.
  - intros k l H1 H2. rewrite (Hrest k l H2). now apply Hkeep.
Qed.

(** After the pair loop, for every pair [i < j] of local particles, both
    the block [(i,j)] and the block [(j,i)] hold [T_ij], cell by cell. *)
Lemma pair_blocks_spec (N : nat) (m : arr2) :
  forall i j p q,
    i < j -> j < N -> p < 3 -> q < 3 ->
    pair_blocks N m (i * 3 + p) (j * 3 + q) = tensor_entry i j p q
    /\ pair_blocks N m (j * 3 + p) (i * 3 + q) = tensor_entry i j p q.
Proof.
  unfold pair_blocks.
  pattern (for_range 0 (N - 1)
             (fun i => for_range (i + 1) N (fun j m => pair_block i j m)) m).
  apply (for_range_ind_then (fun i0 (m' : arr2) =>
    forall i j p q, i < i0 -> i < j -> j < N -> p < 3 -> q < 3 ->
      m' (i * 3 + p) (j * 3 + q) = tensor_entry i j p q
      /\ m' (j * 3 + p) (i * 3 + q) = tensor_entry i j p q)).
  - lia.
  - intros; lia.
  - intros i0 m1 Hi0 IH.
    inner_loop (fun j0 (m' : arr2) =>
      forall i j p q,
        (i < i0 /\ i < j) \/ (i = i0 /\ i0 < j /\ j < j0) ->
        j < N -> p < 3 -> q < 3 ->
        m' (i * 3 + p) (j * 3 + q) = tensor_entry i j p q
        /\ m' (j * 3 + p) (i * 3 + q) = tensor_entry i j p q).
    + lia.
    + intros i j p q [[Hi Hj]|[_ Hj]] HjN Hp Hq; [now apply IH | lia].
    + intros j0 m2 Hj0 IH2 i j p q Hdone HjN Hp Hq.
      destruct (pair_block_spec i0 j0 m2) as (Hup & Hlow & Hkeep); [lia|].
      assert (Hcase : (i = i0 /\ j = j0) \/ ~ (i = i0 /\ j = j0)) by lia.
      destruct Hcase as [[-> ->]|Hother].
      * split; [now apply Hup | now apply Hlow].
      * assert (Hij : i < j) by lia.
        rewrite !Hkeep by (unfold in_block; lia).
        apply IH2; try assumption. lia.
    + intros m2 H i j p q Hi Hj HjN Hp Hq. apply H; try assumption. lia.
  - intros m' H i j p q Hij HjN Hp Hq. apply H; try assumption. lia.
Qed.

(** The diagonal loop stores the inverse polarizability, or the sentinel
    [DBL_MAX] when the polarizability is zero. *)
Lemma diagonal_blocks_spec (N : nat) (m : arr2) :
  forall i p, i < N -> p < 3 ->
    diagonal_blocks N m (i * 3 + p) (i * 3 + p)
    = if Dbl.ne (static_polarizability at_ i) 0.0
      then (1.0 / static_polarizability at_ i)%float
      else Dbl.DBL_MAX.
Proof.
  unfold diagonal_blocks.
  apply (for_range_ind (fun n (m' : arr2) =>
    forall i p, i < n -> p < 3 ->
      m' (i * 3 + p) (i * 3 + p)
      = if Dbl.ne (static_polarizability at_ i) 0.0
        then (1.0 / static_polarizability at_ i)%float
        else Dbl.DBL_MAX)).
  - lia.
  - intros; lia.
  - intros n m1 _ IH i p Hi Hp. rewrite for_range_0_3.
    destruct (Nat.eq_dec i n) as [->|Hne].
    + destruct (Dbl.ne (static_polarizability at_ n) 0.0);
        below_three p; set2_simpl; reflexivity.
    + assert (Hold : i < n) by lia. specialize (IH i p Hold Hp).
      destruct (Dbl.ne (static_polarizability at_ n) 0.0);
        set2_simpl; exact IH.
Qed.

(** The pair loop does not write the diagonal blocks. *)
Lemma pair_blocks_keeps_diagonal (N : nat) (m : arr2) :
  forall i p q, p < 3 -> q < 3 ->
    pair_blocks N m (i * 3 + p) (i * 3 + q) = m (i * 3 + p) (i * 3 + q).
Proof.
  unfold pair_blocks.
  apply (for_range_inv (fun m' : arr2 =>
    forall i p q, p < 3 -> q < 3 ->
      m' (i * 3 + p) (i * 3 + q) = m (i * 3 + p) (i * 3 + q))).
  - reflexivity.
  - intros i0 m1 Hi0 IH.
    apply (for_range_inv (fun m' : arr2 =>
      forall i p q, p < 3 -> q < 3 ->
        m' (i * 3 + p) (i * 3 + q) = m (i * 3 + p) (i * 3 + q))).
    + exact IH.
    + intros j0 m2 Hj0 IH2 i p q Hp Hq.
      destruct (pair_block_spec i0 j0 m2) as (_ & _ & Hkeep); [lia|].
      rewrite Hkeep by (unfold in_block; lia). now apply IH2.
Qed.

(** After [build_dipole_field_matrix] the diagonal cells of a particle of
    zero polarizability hold the sentinel [DBL_MAX]. *)
Lemma build_dipole_field_matrix_sentinel (s : state) (i p : nat) :
  i < nlocal at_ -> p < 3 ->
  is_zero (static_polarizability at_ i) = true ->
  dipole_field_matrix (build_dipole_field_matrix s) (i * 3 + p) (i * 3 + p)
  = Dbl.DBL_MAX.
Proof.
  intros Hi Hp Ha. unfold build_dipole_field_matrix. simpl.
  rewrite pair_blocks_keeps_diagonal by exact Hp.
  rewrite diagonal_blocks_spec by assumption.
  unfold Dbl.ne.
  change (static_polarizability at_ i =? 0)%float
    with (is_zero (static_polarizability at_ i)).
  now rewrite Ha.
Qed.

Lemma build_dipole_field_matrix_frame (s : state) :
  let s' := build_dipole_field_matrix s in
  ef_static s' = ef_static s
  /\ mu_induced s' = mu_induced s
  /\ events s' = events s.
Proof. now repeat split. Qed.

(** *** The diagonal blocks are not read *)

(** Closing a step that only stores values read from equal arrays. *)
Ltac agree_leaf :=
  match goal with
  | H : agree_off_diagonal _ _ |- agree_off_diagonal _ _ =>
      destruct H as (? & ? & ? & ? & ? & ? & ? & ? & ? & ? & ?);
      unfold agree_off_diagonal; simpl; repeat split; try assumption; try congruence
  end.

Lemma agree_off_diagonal_refl (s : state) : agree_off_diagonal s s.
Proof. unfold agree_off_diagonal, off_diagonal_agree. now repeat split. Qed.

Lemma save_old_and_clear_agree (s1 s2 : state) :
  agree_off_diagonal s1 s2 ->
  agree_off_diagonal (save_old_and_clear s1) (save_old_and_clear s2).
Proof.
  intros H. unfold save_old_and_clear.
  apply for_range_rel; [exact H|]. intros i t1 t2 _ Ht.
  apply for_range_rel; [exact Ht|]. intros p u1 u2 _ Hu. agree_leaf.
Qed.

(** The contraction reads the cell [(ii+p, jj+q)] only for [j <> index]. *)
Lemma contract_row_agree (index : nat) (s1 s2 : state) :
  agree_off_diagonal s1 s2 ->
  agree_off_diagonal (contract_row index s1) (contract_row index s2).
Proof.
  intros H. unfold contract_row.
  apply for_range_rel; [exact H|]. intros j t1 t2 _ Ht.
  destruct (Nat.eqb_spec index j) as [Heq|Hne]; simpl; [exact Ht|].
  apply for_range_rel; [exact Ht|]. intros p u1 u2 Hp Hu.
  apply for_range_rel; [exact Hu|]. intros q v1 v2 Hq Hv.
  destruct Hv as (E1 & E2 & E3 & E4 & E5 & E6 & E7 & E8 & E9 & E10 & E11).
  unfold agree_off_diagonal; simpl.
  rewrite (E11 index j p q Hne) by lia. rewrite E2, E4.
  repeat split; assumption.
Qed.

Lemma update_dipole_agree (index : nat) (s1 s2 : state) :
  agree_off_diagonal s1 s2 ->
  agree_off_diagonal (update_dipole index s1) (update_dipole index s2).
Proof.
  intros H. unfold update_dipole.
  apply for_range_rel; [exact H|]. intros p t1 t2 _ Ht.
  destruct (polar_gs cfg || polar_gs_ranked cfg)%bool; agree_leaf.
Qed.

Lemma contract_agree (s1 s2 : state) :
  agree_off_diagonal s1 s2 ->
  agree_off_diagonal (contract s1) (contract s2).
Proof.
  intros H. unfold contract.
  apply for_range_rel; [exact H|]. intros i t1 t2 _ Ht.
  assert (Hra : ranked_array t1 i = ranked_array t2 i).
  { destruct Ht as (_ & _ & _ & _ & _ & _ & E & _). now rewrite E. }
  rewrite Hra. apply update_dipole_agree. now apply contract_row_agree.
Qed.

Lemma emit_agree (e : event) (s1 s2 : state) :
  agree_off_diagonal s1 s2 -> agree_off_diagonal (emit e s1) (emit e s2).
Proof. intros H. agree_leaf. Qed.

Lemma sweep_agree (s1 s2 : state) :
  agree_off_diagonal s1 s2 -> agree_off_diagonal (sweep s1) (sweep s2).
Proof.
  intros H. unfold sweep. apply emit_agree, contract_agree.
  now apply save_old_and_clear_agree.
Qed.

Lemma save_dipoles_agree (s1 s2 : state) :
  agree_off_diagonal s1 s2 ->
  agree_off_diagonal (save_dipoles s1) (save_dipoles s2).
Proof.
  intros H. unfold save_dipoles.
  apply for_range_rel; [exact H|]. intros i t1 t2 _ Ht.
  apply for_range_rel; [exact Ht|]. intros p u1 u2 _ Hu. agree_leaf.
Qed.

Lemma reset_dipoles_agree (s1 s2 : state) :
  agree_off_diagonal s1 s2 ->
  agree_off_diagonal (reset_dipoles s1) (reset_dipoles s2).
Proof.
  intros H. unfold reset_dipoles.
  apply for_range_rel; [exact H|]. intros i t1 t2 _ Ht.
  apply for_range_rel; [exact Ht|]. intros p u1 u2 _ Hu. agree_leaf.
Qed.

Lemma precision_test_agree (s1 s2 : state) :
  agree_off_diagonal s1 s2 -> precision_test s1 = precision_test s2.
Proof.
  intros (_ & _ & _ & _ & E5 & E6 & _).
  unfold precision_test, change_mean, change_sum. now rewrite E5, E6.
Qed.

(** The whole loop gives the same result on two states that differ only in
    the diagonal blocks of the matrix. *)
Lemma solver_loop_agree :
  forall fuel it s1 s2,
    agree_off_diagonal s1 s2 ->
    results_agree (solver_loop fuel it s1) (solver_loop fuel it s2).
Proof.
  induction fuel as [|fuel IH]; intros it s1 s2 H; simpl; [exact I|].
  pose proof (sweep_agree s1 s2 H) as Hs.
  unfold done_test. rewrite (precision_test_agree _ _ Hs).
  destruct (negb (fixed_iteration cfg)).
  - destruct (it + 1 >? iterations_max cfg)%Z.
    + split; [reflexivity|].
      now apply emit_agree, reset_dipoles_agree, save_dipoles_agree, emit_agree.
    + destruct (precision_test (sweep s2)).
      * now apply IH, save_dipoles_agree, emit_agree.
      * split; [reflexivity|]. now apply save_dipoles_agree, emit_agree.
  - destruct (it >=? iterations_max cfg)%Z.
    + split; [reflexivity | exact Hs].
    + destruct (it + 1 >? iterations_max cfg)%Z.
      * split; [reflexivity|].
        now apply emit_agree, reset_dipoles_agree, save_dipoles_agree.
      * now apply IH, save_dipoles_agree.
Qed.

(** *** Precision mode *)

Lemma passes_log_snoc (k : nat) (l : list event) :
  passes_log k ++ EvPrecisionTest :: EvSweep :: l = passes_log (Datatypes.S k) ++ l.
Proof.
  induction k as [|k IH]; simpl; [reflexivity|]. simpl in IH. now rewrite IH.
Qed.

(** Saving the dipoles and logging do not change what the precision test
    reads. *)
Lemma precision_test_saved (e : event) (s : state) :
  precision_test (save_dipoles (emit e s)) = precision_test s.
Proof.
  destruct (save_dipoles_spec (emit e s)) as (_ & Hn & Ho & _).
  unfold precision_test, change_mean, change_sum. rewrite Hn, Ho. reflexivity.
Qed.

(** In precision mode the loop makes [k >= 1] passes and returns
    [iterations + k].  Either that count exceeds [iterations_max]: then the
    last thing it did was to reset every local dipole to the polarizability
    times the static field and to warn.  Or it does not: then the precision
    test of the last pass left [keep_iterating] at [0], and no warning was
    given. *)
Lemma solver_loop_precision :
  fixed_iteration cfg = false ->
  forall fuel it s r s',
    solver_loop fuel it s = Some (r, s') ->
    exists k, 1 <= k /\ r = (it + Z.of_nat k)%Z /\
      ef_static s' = ef_static s /\
      if (r >? iterations_max cfg)%Z
      then events s' = EvWarning :: passes_log k ++ events s
           /\ (forall i p, i < nlocal at_ -> p < 3 ->
                 mu_induced s' i p
                 = (static_polarizability at_ i * ef_static s' i p)%float)
      else events s' = passes_log k ++ events s
           /\ precision_test s' = false.
Proof.
  intros Hfix. induction fuel as [|fuel IH]; intros it s r s' H; [discriminate|].
  simpl in H. unfold done_test in H. rewrite Hfix in H. simpl in H.
  set (t := save_dipoles (emit EvPrecisionTest (sweep s))) in H.
  assert (Hte : events t = EvPrecisionTest :: EvSweep :: events s).
  { unfold t. rewrite events_save_dipoles.
    change (events (emit EvPrecisionTest (sweep s)))
      with (EvPrecisionTest :: events (sweep s)).
    now rewrite events_sweep. }
  assert (Htf : ef_static t = ef_static s).
  { unfold t. destruct (save_dipoles_spec (emit EvPrecisionTest (sweep s))) as (E & _).
    rewrite E. change (ef_static (emit EvPrecisionTest (sweep s)))
      with (ef_static (sweep s)).
    now destruct (sweep_frame s) as (E' & _). }
  destruct (it + 1 >? iterations_max cfg)%Z eqn:Hdiv.
  - inversion H; subst. exists 1. split; [lia|]. split; [lia|].
    destruct (reset_dipoles_spec t) as [Re Rm].
    split; [simpl; now rewrite Re|].
    rewrite Hdiv. simpl. split.
    + now rewrite events_reset_dipoles, Hte.
    + intros i p Hi Hp. rewrite Re. now apply Rm.
  - destruct (precision_test (sweep s)) eqn:Hkeep.
    + apply IH in H. destruct H as (k & Hk & Hr & He & Hcase).
      exists (Datatypes.S k). split; [lia|]. split; [lia|].
      split; [now rewrite He, Htf|].
      destruct (r >? iterations_max cfg)%Z.
      * destruct Hcase as [Hev Hmu]. split; [|exact Hmu].
        rewrite Hev, Hte. f_equal. apply passes_log_snoc.
      * destruct Hcase as [Hev Hpt]. split; [|exact Hpt].
        rewrite Hev, Hte. apply passes_log_snoc.
    + inversion H; subst. exists 1. split; [lia|]. split; [lia|].
      split; [exact Htf|]. rewrite Hdiv. split; [exact Hte|].
      unfold t. now rewrite precision_test_saved.
Qed.

(** *** The molecule test *)





(** ** The claims *)

(** C1 (amended).  With [fixed_iteration] on and [iterations_max = 0] the
    solver returns [0], for any fuel of at least one unit, without the
    warning and with the static field untouched.  When neither Gauss-Seidel
    flag is set every dipole is left as it was on entry; after the first
    guess of [compute] with [use_previous] off, that is the polarizability
    times the static field times [polar_gamma]. *)
Theorem C1_fixed_zero_iterations :
  fixed_iteration cfg = true ->
  iterations_max cfg = 0%Z ->
  forall fuel s,
    exists s',
      DipoleSolverIterative (Datatypes.S fuel) s = Some (0%Z, s')
      /\ count_events is_warning (events s') = count_events is_warning (events s)
      /\ ef_static s' = ef_static s
      /\ (polar_gs cfg = false -> polar_gs_ranked cfg = false ->
            mu_induced s' = mu_induced s
            /\ (use_previous cfg = false ->
                forall s0 i p,
                  s = first_guess s0 -> i < nlocal at_ -> p < 3 ->
                  mu_induced s' i p
                  = (static_polarizability at_ i * ef_static s' i p
                     * polar_gamma cfg)%float)).
Proof.
  intros Hfix Hmax fuel s.
  set (s0 := rank_dipoles (build_dipole_field_matrix s)).
  exists (sweep s0).
  assert (Hef : ef_static (sweep s0) = ef_static s).
  { now destruct (sweep_frame s0) as (E & _). }
  split; [|split; [|split]].
  - unfold DipoleSolverIterative. fold s0. simpl. unfold done_test.
    rewrite Hfix, Hmax. reflexivity.
  - rewrite events_sweep. reflexivity.
  - exact Hef.
  - intros Hgs Hgr.
    assert (Hmu : mu_induced (sweep s0) = mu_induced s)
      by (now rewrite sweep_jacobi).
    split; [exact Hmu|].
    intros Hup s1 i p -> Hi Hp. rewrite Hmu, Hef.
    destruct (first_guess_spec s1 i p Hi Hp) as [_ H]. now apply H.
Qed.

(** In fixed-iteration mode with [iterations_max >= 0], the solver makes
    [iterations_max + 1] sweeps and no precision test, and returns
    [iterations_max]. *)
Lemma fixed_iteration_sweep_count :
  fixed_iteration cfg = true ->
  (0 <= iterations_max cfg)%Z ->
  forall fuel s,
    Z.to_nat (iterations_max cfg) < fuel ->
    exists s',
      DipoleSolverIterative fuel s = Some (iterations_max cfg, s')
      /\ events s'
         = repeat EvSweep (Datatypes.S (Z.to_nat (iterations_max cfg))) ++ events s.
Proof.
  intros Hfix Hmax fuel s Hfuel. unfold DipoleSolverIterative.
  destruct (solver_loop_fixed Hfix (Z.to_nat (iterations_max cfg)) fuel 0%Z
              (rank_dipoles (build_dipole_field_matrix s))) as [s' [Hr He]];
    [lia | exact Hfuel |].
  exists s'. split; [exact Hr | exact He].
Qed.

(** With enough fuel the solver returns, in either mode. *)
Lemma DipoleSolverIterative_total (fuel : nat) (s : state) :
  Z.to_nat (iterations_max cfg) < fuel ->
  exists r s', DipoleSolverIterative fuel s = Some (r, s').
Proof.
  intros Hf. unfold DipoleSolverIterative. apply solver_loop_total.
  now rewrite Z.sub_0_r.
Qed.

(** The divergence policy of precision mode, for the solver as a whole:
    it makes [k >= 1] sweeps and returns [k]; a count above
    [iterations_max] comes with the reset of every local dipole to the
    polarizability times the static field, no other factor, and with the
    warning; a count within it comes with neither. *)
Lemma DipoleSolverIterative_precision :
  fixed_iteration cfg = false ->
  forall fuel s r s',
    DipoleSolverIterative fuel s = Some (r, s') ->
    exists k, 1 <= k /\ r = Z.of_nat k /\
      ef_static s' = ef_static s /\
      if (r >? iterations_max cfg)%Z
      then events s' = EvWarning :: passes_log k ++ events s
           /\ (forall i p, i < nlocal at_ -> p < 3 ->
                 mu_induced s' i p
                 = (static_polarizability at_ i * ef_static s' i p)%float)
      else events s' = passes_log k ++ events s
           /\ precision_test s' = false.
Proof.
  intros Hfix fuel s r s' H. unfold DipoleSolverIterative in H.
  destruct (solver_loop_precision Hfix _ _ _ _ _ H) as (k & Hk & Hr & He & Hcase).
  exists k. split; [exact Hk|]. split; [lia|]. split; [exact He|]. exact Hcase.
Qed.

(** In precision mode, for values that are numbers, the loop goes on
    exactly when the mean exceeds the square of the precision, that is, it
    stops exactly when the mean is at most that square. *)
Lemma precision_test_ordered (s : state) :
  is_nan (change_mean s) = false ->
  is_nan (polar_precision cfg * polar_precision cfg)%float = false ->
  precision_test s
  = negb (change_mean s <=? polar_precision cfg * polar_precision cfg)%float.
Proof.
  intros H1 H2. unfold precision_test, Dbl.gt. now apply gt_is_not_le.
Qed.

(** A mean that is NaN stops the loop. *)
Lemma precision_test_nan (s : state) :
  is_nan (change_mean s) = true -> precision_test s = false.
Proof.
  rewrite is_nan_spec. unfold precision_test, Dbl.gt. rewrite ltb_spec.
  destruct (Prim2SF (change_mean s)); try discriminate. intros _.
  unfold SFltb. now destruct (Prim2SF _).
Qed.

(** C5 (amended).  After [build_dipole_field_matrix], for every pair
    [i < j] of local particles the block [T_ji] is a copy, cell by cell and
    without transposition, of the block [T_ij], whose cells are the computed
    tensor entries.  Hence [T_ij] equals the transpose of [T_ji] on the
    diagonal of the block, and off it exactly when the two products
    [-3*d_p*d_q] and [-3*d_q*d_p] round to the same entry. *)
Theorem C5_lower_blocks_copy_upper :
  forall s i j p q,
    i < j -> j < nlocal at_ -> p < 3 -> q < 3 ->
    let m := dipole_field_matrix (build_dipole_field_matrix s) in
    m (j * 3 + p) (i * 3 + q) = m (i * 3 + p) (j * 3 + q)
    /\ m (i * 3 + p) (j * 3 + q) = tensor_entry i j p q
    /\ m (i * 3 + p) (j * 3 + p) = m (j * 3 + p) (i * 3 + p)
    /\ (tensor_entry i j p q = tensor_entry i j q p ->
        m (i * 3 + p) (j * 3 + q) = m (j * 3 + q) (i * 3 + p)).
Proof.
  intros s i j p q Hij Hj Hp Hq m. unfold m, build_dipole_field_matrix. simpl.
  set (m0 := diagonal_blocks _ _).
  destruct (pair_blocks_spec (nlocal at_) m0 i j p q Hij Hj Hp Hq) as [H1 H2].
  destruct (pair_blocks_spec (nlocal at_) m0 i j p p Hij Hj Hp Hp) as [H3 H4].
  destruct (pair_blocks_spec (nlocal at_) m0 i j q p Hij Hj Hq Hp) as [H5 H6].
  split; [now rewrite H1, H2|]. split; [exact H1|].
  split; [now rewrite H3, H4|].
  intros Hsym. now rewrite H1, H6.
Qed.





(** In fixed-iteration mode the loop entered with [iterations] at or
    above [iterations_max] makes one sweep and returns. *)
Lemma solver_loop_fixed_last :
  fixed_iteration cfg = true ->
  forall fuel it s,
    (iterations_max cfg <= it)%Z ->
    solver_loop (Datatypes.S fuel) it s = Some (it, sweep s).
Proof.
  intros Hfix fuel it s Hit. simpl. unfold done_test. rewrite Hfix. simpl.
  now replace (it >=? iterations_max cfg)%Z with true by lia.
Qed.

(** In fixed-iteration mode the loop entered [n] passes below
    [iterations_max] saves the dipoles [n] times and sweeps once more. *)
Lemma solver_loop_fixed_run :
  fixed_iteration cfg = true ->
  forall n fuel it s,
    (it + Z.of_nat n = iterations_max cfg)%Z -> n < fuel ->
    solver_loop fuel it s = Some (iterations_max cfg, fixed_run n s).
Proof.
  intros Hfix. induction n as [|n IH]; intros fuel it s Hit Hf;
    (destruct fuel as [|fuel]; [lia|]).
  - rewrite solver_loop_fixed_last by (exact Hfix || lia).
    unfold fixed_run. simpl. f_equal. f_equal. lia.
  - simpl. unfold done_test. rewrite Hfix. simpl.
    replace (it >=? iterations_max cfg)%Z with false by lia.
    replace (it + 1 >? iterations_max cfg)%Z with false by lia.
    rewrite (IH fuel (it + 1)%Z (save_dipoles (sweep s))) by lia.
    unfold fixed_run. now rewrite Nat.iter_succ_r.
Qed.

Lemma events_fixed_run (n : nat) (s : state) :
  events (fixed_run n s) = repeat EvSweep (Datatypes.S n) ++ events s.
Proof.
  unfold fixed_run. rewrite events_sweep. revert s.
  induction n as [|n IH]; intros s; [reflexivity|].
  rewrite Nat.iter_succ_r, IH, events_save_dipoles, events_sweep.
  apply (repeat_snoc_app EvSweep (Datatypes.S n)).
Qed.

(** C9.  In fixed-iteration mode the solver returns, given more fuel than
    [iterations_max]: the value returned is [iterations_max] (0 when that
    is negative) and the state returned is the one reached by saving the
    dipoles of [iterations_max] sweeps and sweeping once more.  Neither the
    reset of the dipoles nor the warning is part of it: its log holds the
    sweeps and nothing else.  So a result whose last event is the warning
    comes from precision mode, where the reset accompanies it. *)
Theorem C9_fixed_iteration_skips_divergence_branch :
  (fixed_iteration cfg = true ->
     forall fuel s,
       Z.to_nat (iterations_max cfg) < fuel ->
       let n := Z.to_nat (iterations_max cfg) in
       let s' := fixed_run n (rank_dipoles (build_dipole_field_matrix s)) in
       DipoleSolverIterative fuel s = Some (Z.max 0 (iterations_max cfg), s')
       /\ events s' = repeat EvSweep (Datatypes.S n) ++ events s
       /\ count_events is_warning (events s') = count_events is_warning (events s))
  /\ (forall fuel s r s' log,
        DipoleSolverIterative fuel s = Some (r, s') ->
        events s' = EvWarning :: log ->
        fixed_iteration cfg = false
        /\ forall i p, i < nlocal at_ -> p < 3 ->
             mu_induced s' i p
             = (static_polarizability at_ i * ef_static s' i p)%float).
Proof.
  split.
  - intros Hfix fuel s Hfuel n s'.
    assert (He : events s' = repeat EvSweep (Datatypes.S n) ++ events s)
      by exact (events_fixed_run n (rank_dipoles (build_dipole_field_matrix s))).
    split; [|split; [exact He|]].
    + unfold DipoleSolverIterative, s', n.
      destruct (Z.le_gt_cases 0 (iterations_max cfg)) as [Hpos|Hneg].
      * rewrite Z.max_r by lia.
        apply solver_loop_fixed_run; [exact Hfix | lia | exact Hfuel].
      * rewrite Z.max_l by lia. replace (Z.to_nat (iterations_max cfg)) with 0 by lia.
        destruct fuel as [|fuel]; [lia|].
        rewrite solver_loop_fixed_last by (exact Hfix || lia). reflexivity.
    + rewrite He. unfold count_events. rewrite filter_app, length_app.
      replace (filter is_warning (repeat EvSweep (Datatypes.S n))) with (@nil event);
        [reflexivity|].
      clear. induction (Datatypes.S n) as [|k IH]; [reflexivity | exact IH].
  - intros fuel s r s' log H Hlog.
    destruct (fixed_iteration cfg) eqn:Hfix.
    + exfalso. unfold DipoleSolverIterative in H.
      destruct (solver_loop_fixed_events Hfix _ _ _ _ _ H) as [k Hk].
      rewrite Hk in Hlog. discriminate.
    + split; [reflexivity|].
      destruct (DipoleSolverIterative_precision Hfix fuel s r s' H)
        as (k & Hk & Hr & _ & Hcase).
      destruct (r >? iterations_max cfg)%Z; [exact (proj2 Hcase)|].
      exfalso. destruct Hcase as [He _]. rewrite He in Hlog.
      destruct k as [|k]; [lia|]. simpl in Hlog. discriminate.
Qed.

(** C10.  The contraction of a sweep reads no cell of a diagonal block: two
    states that differ only in the diagonal blocks of the matrix, whatever
    those hold, give after a sweep the same induced field and the same
    dipoles, and give the same result of the whole solver loop. *)
Theorem C10_diagonal_blocks_never_read :
  forall s1 s2,
    agree_off_diagonal s1 s2 ->
    agree_off_diagonal (sweep s1) (sweep s2)
    /\ (forall fuel it,
          results_agree (solver_loop fuel it s1) (solver_loop fuel it s2)).
Proof.
  intros s1 s2 H. split.
  - now apply sweep_agree.
  - intros fuel it. now apply solver_loop_agree.
Qed.

(** At zero separation both inverse powers are the sentinel [DBL_MAX]. *)
Lemma inverse_powers_coincident (r : float) :
  (r =? 0.0)%float = true -> inverse_powers r = (Dbl.DBL_MAX, Dbl.DBL_MAX).
Proof. intros H. unfold inverse_powers. now rewrite H. Qed.

(** ** Further properties of the pair style *)

(** *** The whole dipole field matrix *)

(** "zero out the matrix": every cell of the first [3N] rows and columns is
    zero, and no other cell is written. *)
Lemma zero_matrix_spec (N : nat) (m : arr2) :
  forall k l,
    zero_matrix N m k l = if (Nat.ltb k (3 * N) && Nat.ltb l (3 * N))%bool
                          then 0.0%float else m k l.
Proof.
  unfold zero_matrix.
  apply (for_range_ind (fun n (m' : arr2) =>
    forall k l, m' k l = if (Nat.ltb k n && Nat.ltb l (3 * N))%bool
                         then 0.0%float else m k l)).
  - lia.
  - intros k l. reflexivity.
  - intros n m1 Hn IH.
    inner_loop (fun c (m' : arr2) =>
      forall k l,
        m' k l = if ((Nat.ltb k n && Nat.ltb l (3 * N))
                     || (Nat.eqb k n && Nat.ltb l c))%bool
                 then 0.0%float else m k l).
    + lia.
    + intros k l. rewrite (IH k l). rewrite andb_false_r, orb_false_r. reflexivity.
    + intros c m2 Hc IH2 k l.
      destruct (Nat.eq_dec k n) as [->|Hk].
      * destruct (Nat.eq_dec l c) as [->|Hl].
        -- rewrite set2_same. rewrite Nat.eqb_refl.
           replace (Nat.ltb c (Datatypes.S c)) with true
             by (symmetry; apply Nat.ltb_lt; lia).
           now rewrite orb_true_r.
        -- rewrite set2_other by lia. rewrite (IH2 n l).
           replace (Nat.ltb l (Datatypes.S c)) with (Nat.ltb l c); [reflexivity|].
           destruct (Nat.ltb_spec l c), (Nat.ltb_spec l (Datatypes.S c));
             try reflexivity; lia.
      * rewrite set2_other by lia. rewrite (IH2 k l).
        replace (Nat.eqb k n) with false by (symmetry; apply Nat.eqb_neq; exact Hk).
        reflexivity.
    + intros m2 IH2 k l. rewrite (IH2 k l).
      destruct (Nat.ltb_spec k n), (Nat.ltb_spec k (Datatypes.S n)),
        (Nat.eqb_spec k n), (Nat.ltb_spec l (3 * N)); simpl; try reflexivity; lia.
Qed.

(** The diagonal loop writes the cells [(3i+p, 3i+p)] and no other. *)
Lemma diagonal_blocks_frame (N : nat) (m : arr2) :
  forall k l, k <> l \/ 3 * N <= k -> diagonal_blocks N m k l = m k l.
Proof.
  unfold diagonal_blocks.
  apply (for_range_ind (fun n (m' : arr2) =>
    forall k l, k <> l \/ 3 * n <= k -> m' k l = m k l)).
  - lia.
  - reflexivity.
  - intros n m1 _ IH k l Hkl. rewrite for_range_0_3.
    destruct (Dbl.ne (static_polarizability at_ n) 0.0);
      set2_simpl; apply IH; lia.
Qed.

(** The pair loop writes no cell outside the first [3N] rows and columns. *)
Lemma pair_blocks_frame (N : nat) (m : arr2) :
  forall k l, 3 * N <= k \/ 3 * N <= l -> pair_blocks N m k l = m k l.
Proof.
  unfold pair_blocks.
  apply (for_range_inv (fun m' : arr2 =>
    forall k l, 3 * N <= k \/ 3 * N <= l -> m' k l = m k l)).
  - reflexivity.
  - intros i0 m1 Hi0 IH.
    apply (for_range_inv (fun m' : arr2 =>
      forall k l, 3 * N <= k \/ 3 * N <= l -> m' k l = m k l)).
    + exact IH.
    + intros j0 m2 Hj0 IH2 k l Hkl.
      destruct (pair_block_spec i0 j0 m2) as (_ & _ & Hkeep); [lia|].
      rewrite Hkeep by (unfold in_block; lia). now apply IH2.
Qed.

(** X1.  [build_dipole_field_matrix] determines every cell of the first
    [3*nlocal] rows and columns, whatever the matrix held before: the cell
    [(3i+p, 3j+q)] is the inverse polarizability (or [DBL_MAX] for a zero
    polarizability) on the diagonal of a diagonal block, zero elsewhere in a
    diagonal block, and the tensor entry of the pair off the diagonal
    blocks.  It writes no cell outside those rows and columns. *)
Theorem build_dipole_field_matrix_cells :
  forall s,
    (forall i p j q,
       i < nlocal at_ -> j < nlocal at_ -> p < 3 -> q < 3 ->
       dipole_field_matrix (build_dipole_field_matrix s) (i * 3 + p) (j * 3 + q)
       = matrix_cell i p j q)
    /\ (forall k l,
          3 * nlocal at_ <= k \/ 3 * nlocal at_ <= l ->
          dipole_field_matrix (build_dipole_field_matrix s) k l
          = dipole_field_matrix s k l).
Proof.
  intros s. unfold build_dipole_field_matrix. simpl. split.
  - intros i p j q Hi Hj Hp Hq. unfold matrix_cell.
    destruct (Nat.eqb_spec i j) as [->|Hij].
    + rewrite pair_blocks_keeps_diagonal by assumption.
      destruct (Nat.eqb_spec p q) as [->|Hpq].
      * now apply diagonal_blocks_spec.
      * rewrite diagonal_blocks_frame by lia. rewrite zero_matrix_spec.
        replace (Nat.ltb (j * 3 + p) (3 * nlocal at_)) with true
          by (symmetry; apply Nat.ltb_lt; lia).
        replace (Nat.ltb (j * 3 + q) (3 * nlocal at_)) with true
          by (symmetry; apply Nat.ltb_lt; lia).
        reflexivity.
    + destruct (Nat.ltb_spec i j) as [Hlt|Hge].
      * now apply pair_blocks_spec.
      * assert (Hji : j < i) by lia.
        now apply (pair_blocks_spec (nlocal at_) _ j i p q Hji Hi Hp Hq).
  - intros k l Hkl. rewrite pair_blocks_frame by exact Hkl.
    rewrite diagonal_blocks_frame by lia. rewrite zero_matrix_spec.
    destruct (Nat.ltb_spec k (3 * nlocal at_)), (Nat.ltb_spec l (3 * nlocal at_));
      simpl; try reflexivity; lia.
Qed.


(** *** The work of the solver *)

Lemma count_events_cons (test : event -> bool) (e : event) (log : list event) :
  count_events test (e :: log)
  = (if test e then 1 else 0) + count_events test log.
Proof. unfold count_events. simpl. now destruct (test e). Qed.

(** Every pass of the loop is one sweep, and a pass is followed by another
    only while [iterations + 1 <= iterations_max]. *)
Lemma solver_loop_sweeps :
  forall fuel it s r s',
    solver_loop fuel it s = Some (r, s') ->
    exists k,
      1 <= k <= Datatypes.S (Z.to_nat (iterations_max cfg - it))
      /\ count_events is_sweep (events s')
         = count_events is_sweep (events s) + k.
Proof.
  induction fuel as [|fuel IH]; intros it s r s' H; [discriminate|].
  simpl in H.
  assert (Hsw : count_events is_sweep (events (sweep s))
                = count_events is_sweep (events s) + 1).
  { rewrite events_sweep, count_events_cons. simpl. lia. }
  destruct (done_test it (sweep s)) as [[keep s1]|] eqn:Hd.
  - assert (Hs1 : count_events is_sweep (events (save_dipoles s1))
                  = count_events is_sweep (events s) + 1).
    { rewrite events_save_dipoles.
      destruct (done_test_state _ _ _ _ Hd) as [->| ->]; [exact Hsw|].
      change (events (emit EvPrecisionTest (sweep s)))
        with (EvPrecisionTest :: events (sweep s)).
      rewrite count_events_cons. simpl. exact Hsw. }
    destruct (Z.gtb_spec (it + 1) (iterations_max cfg)) as [Hgt|Hle].
    + inversion H; subst. exists 1. split; [lia|].
      change (events (emit EvWarning (reset_dipoles (save_dipoles s1))))
        with (EvWarning :: events (reset_dipoles (save_dipoles s1))).
      rewrite count_events_cons, events_reset_dipoles. simpl. exact Hs1.
    + destruct keep.
      * apply IH in H. destruct H as (k & Hk & Hc).
        exists (Datatypes.S k). split; [lia|]. rewrite Hc, Hs1. lia.
      * inversion H; subst. exists 1. split; [lia | exact Hs1].
  - inversion H; subst. exists 1. split; [lia | exact Hsw].
Qed.

(** X2.  In either mode the solver makes at least one sweep and at most
    [iterations_max + 1] (one when [iterations_max] is negative), and with
    more fuel than [iterations_max] it returns. *)
Theorem DipoleSolverIterative_sweep_bound :
  forall fuel s,
    (forall r s',
       DipoleSolverIterative fuel s = Some (r, s') ->
       exists k,
         1 <= k <= Datatypes.S (Z.to_nat (iterations_max cfg))
         /\ count_events is_sweep (events s')
            = count_events is_sweep (events s) + k)
    /\ (Z.to_nat (iterations_max cfg) < fuel ->
        exists r s', DipoleSolverIterative fuel s = Some (r, s')).
Proof.
  intros fuel s. split.
  - intros r s' H. unfold DipoleSolverIterative in H.
    destruct (solver_loop_sweeps _ _ _ _ _ H) as (k & Hk & Hc).
    exists k. rewrite Z.sub_0_r in Hk. split; [exact Hk | exact Hc].
  - apply DipoleSolverIterative_total.
Qed.

(** *** The visiting order stays among the local particles *)

Lemma swap_visits_local (ra : nat -> nat) (j : nat) :
  j + 1 < nlocal at_ ->
  visits_local ra ->
  visits_local (seti (seti ra j (ra (j + 1))) (j + 1) (ra j)).
Proof.
  intros Hj Hv k Hk. unfold seti.
  destruct (Nat.eqb_spec k (j + 1)); [apply Hv; lia|].
  destruct (Nat.eqb_spec k j); apply Hv; lia.
Qed.

Lemma bubble_pass_visits_local (rm : arr1) (ra : nat -> nat) :
  visits_local ra -> visits_local (fst (bubble_pass rm ra)).
Proof.
  intros Hv. unfold bubble_pass.
  apply (for_range_inv (fun rs : (nat -> nat) * bool => visits_local (fst rs))).
  - exact Hv.
  - intros j [ra1 sorted] Hj H1. simpl in H1.
    destruct (PrimFloat.ltb (rm (ra1 j)) (rm (ra1 (j + 1)))); simpl; [|exact H1].
    apply swap_visits_local; [lia | exact H1].
Qed.

Lemma bubble_sort_visits_local (rm : arr1) :
  forall n ra, visits_local ra -> visits_local (bubble_sort n rm ra).
Proof.
  induction n as [|n IH]; intros ra Hv; simpl; [exact Hv|].
  pose proof (bubble_pass_visits_local rm ra Hv) as Hp.
  destruct (bubble_pass rm ra) as [ra1 sorted]. simpl in Hp.
  destruct sorted; [exact Hp | now apply IH].
Qed.

(** The loop [ranked_array[i] = i]. *)
Lemma identity_order (ra : nat -> nat) :
  forall i, i < nlocal at_ ->
    for_range 0 (nlocal at_) (fun i ra => seti ra i i) ra i = i.
Proof.
  apply (for_range_ind (fun n (ra' : nat -> nat) => forall i, i < n -> ra' i = i)).
  - lia.
  - intros; lia.
  - intros n ra' _ IH i Hi. destruct (Nat.eq_dec i n) as [->|Hne].
    + apply seti_same.
    + rewrite seti_other by exact Hne. apply IH. lia.
Qed.

Lemma rank_dipoles_visits_local (s : state) :
  visits_local (ranked_array (rank_dipoles s)).
Proof.
  unfold rank_dipoles. simpl.
  assert (Hid : visits_local
                  (for_range 0 (nlocal at_) (fun i ra => seti ra i i) (ranked_array s))).
  { intros k Hk. now rewrite identity_order. }
  destruct (polar_gs_ranked cfg); [now apply bubble_sort_visits_local | exact Hid].
Qed.

(** X3.  The order in which a sweep visits the particles lists local
    particles only and reaches every one of them; without
    [polar_gs_ranked] it is the order of the indices. *)
Theorem rank_dipoles_order :
  forall s,
    visits_local (ranked_array (rank_dipoles s))
    /\ visits_all (ranked_array (rank_dipoles s))
    /\ (polar_gs_ranked cfg = false ->
        forall i, i < nlocal at_ -> ranked_array (rank_dipoles s) i = i).
Proof.
  intros s. split; [apply rank_dipoles_visits_local|].
  split; [apply rank_dipoles_visits_all|].
  intros Hr i Hi. unfold rank_dipoles. simpl. rewrite Hr. now apply identity_order.
Qed.

(** *** The rows of the ghost particles *)

Lemma ghosts_kept_refl (s : state) : ghosts_kept s s.
Proof. intros k p _. now repeat split. Qed.

Lemma ghosts_kept_trans (s1 s2 s3 : state) :
  ghosts_kept s1 s2 -> ghosts_kept s2 s3 -> ghosts_kept s1 s3.
Proof.
  intros H12 H23 k p Hk.
  destruct (H12 k p Hk) as (A1 & A2 & A3), (H23 k p Hk) as (B1 & B2 & B3).
  rewrite B1, B2, B3. now repeat split.
Qed.

(** Closing a step that stores in rows of local particles only. *)
Ltac ghost_step H :=
  let k := fresh "k" in let p := fresh "p" in let Hk := fresh "Hk" in
  intros k p Hk; destruct (H k p Hk) as (? & ? & ?);
  simpl; set2_simpl; unfold add2, sub2; set2_simpl; repeat split; assumption.

Lemma clear_ef_static_ghosts (s : state) : ghosts_kept s (clear_ef_static s).
Proof.
  unfold clear_ef_static.
  apply (for_range_inv (ghosts_kept s)); [apply ghosts_kept_refl|].
  intros i s1 Hi H1. ghost_step H1.
Qed.

Lemma rank_metrics_ghosts (s : state) : ghosts_kept s (rank_metrics s).
Proof.
  unfold rank_metrics.
  apply (for_range_inv (ghosts_kept s)).
  - apply (for_range_inv (ghosts_kept s)); [apply ghosts_kept_refl|].
    intros i s1 Hi H1. ghost_step H1.
  - intros i s1 Hi H1.
    apply (for_range_inv (ghosts_kept s)); [exact H1|].
    intros j s2 Hj H2.
    destruct (negb (Nat.eqb i j)); [|exact H2].
    destruct (Dbl.gt _ _ && molecule_gate i j)%bool; [|exact H2].
    ghost_step H2.
Qed.

Lemma static_field_ghosts (s : state) : ghosts_kept s (static_field s).
Proof.
  unfold static_field.
  apply (for_range_inv (ghosts_kept s)); [apply ghosts_kept_refl|].
  intros i s1 Hi H1.
  apply (for_range_inv (ghosts_kept s)); [exact H1|].
  intros j s2 Hj H2. unfold static_field_pair.
  destruct (_ <=? cut_coulsq cfg)%float; [|exact H2].
  destruct (molecule_gate i j); [|exact H2].
  ghost_step H2.
Qed.

Lemma first_guess_ghosts (s : state) : ghosts_kept s (first_guess s).
Proof.
  unfold first_guess.
  apply (for_range_inv (ghosts_kept s)); [apply ghosts_kept_refl|].
  intros i s1 Hi H1. unfold first_guess_atom.
  destruct (negb (use_previous cfg)); ghost_step H1.
Qed.

Lemma save_old_and_clear_ghosts (s0 s : state) :
  ghosts_kept s0 s -> ghosts_kept s0 (save_old_and_clear s).
Proof.
  intros H. unfold save_old_and_clear.
  apply (for_range_inv (ghosts_kept s0)); [exact H|].
  intros i s1 Hi H1.
  apply (for_range_inv (ghosts_kept s0)); [exact H1|].
  intros p s2 Hp H2. ghost_step H2.
Qed.

Lemma contract_row_ghosts (s0 : state) (index : nat) (s : state) :
  ghosts_kept s0 s -> ghosts_kept s0 (contract_row index s).
Proof.
  intros H. unfold contract_row.
  apply (for_range_inv (ghosts_kept s0)); [exact H|].
  intros j s1 Hj H1. destruct (negb (Nat.eqb index j)); [|exact H1].
  apply (for_range_inv (ghosts_kept s0)); [exact H1|].
  intros p s2 Hp H2.
  apply (for_range_inv (ghosts_kept s0)); [exact H2|].
  intros q s3 Hq H3. ghost_step H3.
Qed.

Lemma update_dipole_ghosts (s0 : state) (index : nat) (s : state) :
  index < nlocal at_ ->
  ghosts_kept s0 s -> ghosts_kept s0 (update_dipole index s).
Proof.
  intros Hi H. unfold update_dipole.
  apply (for_range_inv (ghosts_kept s0)); [exact H|].
  intros p s1 Hp H1.
  destruct (polar_gs cfg || polar_gs_ranked cfg)%bool; ghost_step H1.
Qed.

Lemma contract_ghosts (s0 s : state) :
  visits_local (ranked_array s) ->
  ghosts_kept s0 s -> ghosts_kept s0 (contract s).
Proof.
  intros Hv H. unfold contract.
  pattern (for_range 0 (nlocal at_)
             (fun i s1 => update_dipole (ranked_array s1 i)
                            (contract_row (ranked_array s1 i) s1)) s).
  apply (for_range_ind_then (fun (n : nat) s' =>
    ranked_array s' = ranked_array s /\ ghosts_kept s0 s')).
  - lia.
  - split; [reflexivity | exact H].
  - intros i s1 Hi [Hra H1].
    set (index := ranked_array s1 i).
    assert (Hindex : index < nlocal at_)
      by (unfold index; rewrite Hra; apply Hv; lia).
    split.
    + destruct (update_dipole_spec index (contract_row index s1)) as (_ & Ura & _).
      destruct (contract_row_frame index s1) as (_ & _ & _ & Cra & _).
      now rewrite Ura, Cra.
    + apply update_dipole_ghosts; [exact Hindex|]. now apply contract_row_ghosts.
  - intros s' [_ H']. exact H'.
Qed.

Lemma sweep_ghosts (s0 s : state) :
  visits_local (ranked_array s) ->
  ghosts_kept s0 s -> ghosts_kept s0 (sweep s).
Proof.
  intros Hv H. unfold sweep.
  assert (Hc : ghosts_kept s0 (contract (save_old_and_clear s))).
  { apply contract_ghosts.
    - destruct (save_old_and_clear_frame s) as (_ & _ & _ & Sra & _). now rewrite Sra.
    - now apply save_old_and_clear_ghosts. }
  intros k p Hk. exact (Hc k p Hk).
Qed.

Lemma save_dipoles_ghosts (s0 s : state) :
  ghosts_kept s0 s -> ghosts_kept s0 (save_dipoles s).
Proof.
  intros H. unfold save_dipoles.
  apply (for_range_inv (ghosts_kept s0)); [exact H|].
  intros i s1 Hi H1.
  apply (for_range_inv (ghosts_kept s0)); [exact H1|].
  intros p s2 Hp H2. ghost_step H2.
Qed.

Lemma reset_dipoles_ghosts (s0 s : state) :
  ghosts_kept s0 s -> ghosts_kept s0 (reset_dipoles s).
Proof.
  intros H. unfold reset_dipoles.
  apply (for_range_inv (ghosts_kept s0)); [exact H|].
  intros i s1 Hi H1.
  apply (for_range_inv (ghosts_kept s0)); [exact H1|].
  intros p s2 Hp H2. ghost_step H2.
Qed.

Lemma solver_loop_ghosts (s0 : state) :
  forall fuel it s r s',
    solver_loop fuel it s = Some (r, s') ->
    visits_local (ranked_array s) ->
    ghosts_kept s0 s -> ghosts_kept s0 s'.
Proof.
  induction fuel as [|fuel IH]; intros it s r s' H Hv Hs; [discriminate|].
  simpl in H.
  pose proof (sweep_ghosts s0 s Hv Hs) as Hsw.
  destruct (sweep_frame s) as (_ & Wra & _).
  destruct (done_test it (sweep s)) as [[keep s1]|] eqn:Hd.
  - assert (Hs1 : ghosts_kept s0 s1 /\ ranked_array s1 = ranked_array s).
    { destruct (done_test_state _ _ _ _ Hd) as [->| ->]; split;
        try exact Wra; try exact Hsw. }
    destruct Hs1 as [Hg1 Hr1].
    pose proof (save_dipoles_ghosts s0 s1 Hg1) as Hsd.
    destruct (it + 1 >? iterations_max cfg)%Z.
    + inversion H; subst.
      pose proof (reset_dipoles_ghosts s0 _ Hsd) as Hr.
      intros k p Hk. exact (Hr k p Hk).
    + destruct keep.
      * apply (IH _ _ _ _ H); [|exact Hsd].
        destruct (save_dipoles_spec s1) as (_ & _ & _ & Dra & _).
        now rewrite Dra, Hr1.
      * inversion H; subst. exact Hsd.
  - inversion H; subst. exact Hsw.
Qed.

Lemma force_pair_ghosts (s0 : state) (i j : nat) (su : state * energies) :
  i < nlocal at_ -> j < nlocal at_ ->
  ghosts_kept s0 (fst su) -> ghosts_kept s0 (fst (force_pair i j su)).
Proof.
  intros Hi Hj H. unfold force_pair. destruct su as [s u].
  destruct (pair_force i j (mu_induced s) u) as [[[fx fy] fz] u'].
  simpl in H. ghost_step H.
Qed.

Lemma dipole_forces_ghosts (s : state) : ghosts_kept s (dipole_forces s).
Proof.
  unfold dipole_forces.
  match goal with
  | |- context [for_range 0 (nlocal at_) ?b ?st] =>
      assert (H : ghosts_kept s (fst (for_range 0 (nlocal at_) b st)));
      [ | destruct (for_range 0 (nlocal at_) b st) as [s' u'];
          intros k p Hk; exact (H k p Hk) ]
  end.
  apply (for_range_inv (fun su : state * energies => ghosts_kept s (fst su))).
  - apply ghosts_kept_refl.
  - intros i [s1 u1] Hi H1. simpl in H1.
    apply (for_range_inv (fun su : state * energies => ghosts_kept s (fst su))).
    + exact H1.
    + intros j su Hj H2. apply force_pair_ghosts; [lia | lia | exact H2].
Qed.

(** *** What the solver leaves alone *)

Definition solver_kept (s0 s : state) : Prop :=
  ef_static s = ef_static s0 /\ f s = f s0
  /\ rank_metric s = rank_metric s0 /\ eng_pol s = eng_pol s0.

Ltac kept_loop s0 :=
  repeat (apply (for_range_inv (solver_kept s0)); [try assumption | intros]);
  try assumption.

Lemma sweep_kept (s0 s : state) : solver_kept s0 s -> solver_kept s0 (sweep s).
Proof.
  intros H. unfold sweep.
  assert (Hc : solver_kept s0 (contract (save_old_and_clear s))).
  { unfold contract. apply (for_range_inv (solver_kept s0)).
    - unfold save_old_and_clear. kept_loop s0.
    - intros i s1 Hi H1. unfold update_dipole.
      apply (for_range_inv (solver_kept s0)).
      + unfold contract_row. apply (for_range_inv (solver_kept s0)); [exact H1|].
        intros j s2 Hj H2. destruct (negb (Nat.eqb _ j)); [|exact H2].
        kept_loop s0.
      + intros p s2 Hp H2.
        destruct (polar_gs cfg || polar_gs_ranked cfg)%bool; exact H2. }
  exact Hc.
Qed.

Lemma save_dipoles_kept (s0 s : state) :
  solver_kept s0 s -> solver_kept s0 (save_dipoles s).
Proof. intros H. unfold save_dipoles. kept_loop s0. Qed.

Lemma reset_dipoles_kept (s0 s : state) :
  solver_kept s0 s -> solver_kept s0 (reset_dipoles s).
Proof. intros H. unfold reset_dipoles. kept_loop s0. Qed.

Lemma solver_loop_kept (s0 : state) :
  forall fuel it s r s',
    solver_loop fuel it s = Some (r, s') ->
    solver_kept s0 s -> solver_kept s0 s'.
Proof.
  induction fuel as [|fuel IH]; intros it s r s' H Hs; [discriminate|].
  simpl in H.
  pose proof (sweep_kept s0 s Hs) as Hsw.
  destruct (done_test it (sweep s)) as [[keep s1]|] eqn:Hd.
  - assert (Hs1 : solver_kept s0 s1).
    { destruct (done_test_state _ _ _ _ Hd) as [->| ->]; exact Hsw. }
    pose proof (save_dipoles_kept s0 s1 Hs1) as Hsd.
    destruct (it + 1 >? iterations_max cfg)%Z.
    + inversion H; subst. exact (reset_dipoles_kept s0 _ Hsd).
    + destruct keep.
      * exact (IH _ _ _ _ H Hsd).
      * inversion H; subst. exact Hsd.
  - inversion H; subst. exact Hsw.
Qed.

(** X4.  The solver changes the dipoles of local particles and nothing
    else of the particle data: the static field, the forces, the ranking
    metric and the polarization energy are as they were, and so are the
    dipole rows of the ghost particles. *)
Theorem DipoleSolverIterative_frame :
  forall fuel s r s',
    DipoleSolverIterative fuel s = Some (r, s') ->
    ef_static s' = ef_static s
    /\ f s' = f s
    /\ rank_metric s' = rank_metric s
    /\ eng_pol s' = eng_pol s
    /\ (forall k p, nlocal at_ <= k -> mu_induced s' k p = mu_induced s k p).
Proof.
  intros fuel s r s' H. unfold DipoleSolverIterative in H.
  assert (Hk : solver_kept s s').
  { apply (solver_loop_kept s _ _ _ _ _ H). now repeat split. }
  assert (Hg : ghosts_kept s s').
  { apply (solver_loop_ghosts s _ _ _ _ _ H).
    - apply rank_dipoles_visits_local.
    - intros k p Hk'. now repeat split. }
  destruct Hk as (K1 & K2 & K3 & K4).
  repeat (split; [assumption|]).
  intros k p Hk. now destruct (Hg k p Hk) as (_ & G & _).
Qed.

(** X5.  Without [polar_gs_ranked], [compute] writes the static field and
    the dipoles of local particles only: the rows of the ghost particles
    in [ef_static] and [mu_induced] are the same after it as before. *)
Theorem compute_keeps_ghost_dipoles :
  forall fuel s r s',
    polar_gs_ranked cfg = false ->
    compute fuel s = Some (r, s') ->
    forall k p, nlocal at_ <= k ->
      ef_static s' k p = ef_static s k p
      /\ mu_induced s' k p = mu_induced s k p.
Proof.
  intros fuel s r s' Hr H. unfold compute in H. rewrite Hr in H.
  set (s1 := clear_ef_static s) in H.
  set (s3 := static_field s1) in H.
  set (s4 := first_guess s3) in H.
  assert (H4 : ghosts_kept s s4).
  { apply ghosts_kept_trans with s3; [|apply first_guess_ghosts].
    apply ghosts_kept_trans with s1; [|apply static_field_ghosts].
    apply clear_ef_static_ghosts. }
  assert (Hg : ghosts_kept s s').
  { destruct (negb (zodid cfg)).
    - destruct (DipoleSolverIterative fuel s4) as [[it s5]|] eqn:Hs; [|discriminate].
      inversion H; subst.
      apply ghosts_kept_trans with s5; [|apply dipole_forces_ghosts].
      unfold DipoleSolverIterative in Hs.
      apply (solver_loop_ghosts s _ _ _ _ _ Hs).
      + apply rank_dipoles_visits_local.
      + intros k p Hk. exact (H4 k p Hk).
    - inversion H; subst.
      apply ghosts_kept_trans with s4; [exact H4 | apply dipole_forces_ghosts]. }
  intros k p Hk. destruct (Hg k p Hk) as (A & B & _). now split.
Qed.

(** *** [compute] with [zodid], without [eflag], and pairs that cannot be
    polarized *)

Lemma ne_zero_false (a : float) : is_zero a = true -> Dbl.ne a 0.0 = false.
Proof.
  intros H. change (Dbl.ne a 0.0) with (negb (is_zero a)). now rewrite H.
Qed.

Lemma events_clear_ef_static (s : state) : events (clear_ef_static s) = events s.
Proof. unfold clear_ef_static. loop_frame. Qed.

Lemma events_rank_metrics (s : state) : events (rank_metrics s) = events s.
Proof.
  unfold rank_metrics.
  apply for_range_inv; [loop_frame|].
  intros i s1 _ H1. apply for_range_inv; [exact H1|].
  intros j s2 _ H2. destruct (negb (Nat.eqb i j)); [|exact H2].
  destruct (Dbl.gt _ _ && molecule_gate i j)%bool; exact H2.
Qed.

Lemma events_static_field (s : state) : events (static_field s) = events s.
Proof.
  unfold static_field. apply for_range_inv; [reflexivity|].
  intros i s1 _ H1. apply for_range_inv; [exact H1|].
  intros j s2 _ H2. unfold static_field_pair.
  destruct (_ <=? cut_coulsq cfg)%float; [|exact H2].
  destruct (molecule_gate i j); exact H2.
Qed.

Lemma events_first_guess (s : state) : events (first_guess s) = events s.
Proof.
  unfold first_guess. apply for_range_inv; [reflexivity|].
  intros i s1 _ H1. unfold first_guess_atom.
  destruct (negb (use_previous cfg)); exact H1.
Qed.

Lemma dipole_forces_frame (s : state) :
  ef_static (dipole_forces s) = ef_static s
  /\ events (dipole_forces s) = events s.
Proof.
  unfold dipole_forces.
  match goal with
  | |- context [for_range 0 (nlocal at_) ?b ?st] =>
      assert (H : ef_static (fst (for_range 0 (nlocal at_) b st)) = ef_static s
                  /\ events (fst (for_range 0 (nlocal at_) b st)) = events s);
      [ | destruct (for_range 0 (nlocal at_) b st) as [s' u']; exact H ]
  end.
  apply (for_range_inv (fun su : state * energies =>
           ef_static (fst su) = ef_static s /\ events (fst su) = events s)).
  - now split.
  - intros i [s1 u1] _ H1. simpl in H1.
    apply (for_range_inv (fun su : state * energies =>
             ef_static (fst su) = ef_static s /\ events (fst su) = events s)).
    + exact H1.
    + intros j [s2 u2] _ H2. unfold force_pair.
      destruct (pair_force i j (mu_induced s2) u2) as [[[fx fy] fz] u']. exact H2.
Qed.

Lemma mu_clear_ef_static (s : state) :
  mu_induced (clear_ef_static s) = mu_induced s.
Proof. unfold clear_ef_static. loop_frame. Qed.

Lemma mu_rank_metrics (s : state) : mu_induced (rank_metrics s) = mu_induced s.
Proof.
  unfold rank_metrics.
  apply for_range_inv; [loop_frame|].
  intros i s1 _ H1. apply for_range_inv; [exact H1|].
  intros j s2 _ H2. destruct (negb (Nat.eqb i j)); [|exact H2].
  destruct (Dbl.gt _ _ && molecule_gate i j)%bool; exact H2.
Qed.

Lemma mu_static_field (s : state) : mu_induced (static_field s) = mu_induced s.
Proof.
  unfold static_field. apply for_range_inv; [reflexivity|].
  intros i s1 _ H1. apply for_range_inv; [exact H1|].
  intros j s2 _ H2. unfold static_field_pair.
  destruct (_ <=? cut_coulsq cfg)%float; [|exact H2].
  destruct (molecule_gate i j); exact H2.
Qed.

Lemma mu_first_guess_previous (s : state) :
  use_previous cfg = true -> mu_induced (first_guess s) = mu_induced s.
Proof.
  intros Hup. unfold first_guess. apply for_range_inv; [reflexivity|].
  intros i s1 _ H1. unfold first_guess_atom. rewrite Hup. exact H1.
Qed.

(** X6.  With [zodid] the solver is not run: [compute] returns with
    [iterations = 0] whatever the fuel and no sweep is made.  Every local
    dipole is then the first guess [alpha * E * polar_gamma] of the scaled
    static field; with [use_previous] also set, no dipole of a local
    particle is written, and without [polar_gs_ranked], under which the
    ghost particles are not communicated, no dipole at all. *)
Theorem compute_zodid :
  zodid cfg = true ->
  forall fuel s,
    exists s',
      compute fuel s = Some (0%Z, s')
      /\ events s' = events s
      /\ (use_previous cfg = false ->
          forall i p, i < nlocal at_ -> p < 3 ->
            mu_induced s' i p
            = (static_polarizability at_ i * ef_static s' i p * polar_gamma cfg)%float)
      /\ (use_previous cfg = true ->
          (forall i p, i < nlocal at_ -> mu_induced s' i p = mu_induced s i p)
          /\ (polar_gs_ranked cfg = false -> mu_induced s' = mu_induced s)).
Proof.
  intros Hz fuel s. unfold compute. rewrite Hz. simpl.
  eexists. split; [reflexivity|].
  destruct (dipole_forces_frame
              (first_guess (static_field
                 (if polar_gs_ranked cfg then rank_metrics (clear_ef_static s)
                  else clear_ef_static s)))) as [He Hv].
  split; [|split].
  - rewrite Hv, events_first_guess, events_static_field.
    destruct (polar_gs_ranked cfg);
      [rewrite events_rank_metrics|]; apply events_clear_ef_static.
  - intros Hup i p Hi Hp. rewrite dipole_forces_mu, He.
    now apply first_guess_spec.
  - intros Hup.
    assert (Hmu : mu_induced
                    (dipole_forces
                       (first_guess (static_field
                          (if polar_gs_ranked cfg
                           then rank_metrics (clear_ef_static s)
                           else clear_ef_static s))))
                  = mu_induced s).
    { rewrite dipole_forces_mu, (mu_first_guess_previous _ Hup), mu_static_field.
      destruct (polar_gs_ranked cfg);
        [rewrite mu_rank_metrics|]; apply mu_clear_ef_static. }
    split; [intros i p _; now rewrite Hmu | intros _; exact Hmu].
Qed.

Definition no_energy (u : energies) : Prop :=
  u_polar_self u = 0.0%float /\ u_polar_ef u = 0.0%float /\ u_polar_dd u = 0.0%float.

Lemma pair_force_energy_off (i j : nat) (mu : arr2) (u : energies) :
  eflag = false -> snd (pair_force i j mu u) = u.
Proof.
  intros He. unfold pair_force, charge_dipole, dipole_dipole. rewrite He.
  destruct u as [us ue ud]. simpl.
  repeat match goal with
         | |- context [if ?c then _ else _] => destruct c
         | |- context [let '(_, _) := ?c in _] => destruct c
         | |- context [match ?c with DAMPING_EXPONENTIAL => _ | DAMPING_NONE => _ end] =>
             destruct c
         end; reflexivity.
Qed.

(** X7.  Called without [eflag], [compute] accumulates no energy term and
    publishes a polarization energy [eng_pol] of [0.0]. *)
Theorem compute_energy_off :
  eflag = false ->
  forall fuel s r s',
    compute fuel s = Some (r, s') -> eng_pol s' = 0.0%float.
Proof.
  intros He fuel s r s' H. unfold compute in H.
  destruct (if negb (zodid cfg) then _ else _) as [[it s5]|]; [|discriminate].
  inversion H; subst. clear H. unfold dipole_forces.
  match goal with
  | |- context [for_range 0 (nlocal at_) ?b ?st] =>
      assert (Hu : no_energy (snd (for_range 0 (nlocal at_) b st)));
      [ | destruct (for_range 0 (nlocal at_) b st) as [s6 u6];
          destruct Hu as (U1 & U2 & U3); simpl in *; now rewrite U1, U2, U3 ]
  end.
  apply (for_range_inv (fun su : state * energies => no_energy (snd su))).
  - now repeat split.
  - intros i [s1 u1] _ H1. simpl in H1.
    apply (for_range_inv (fun su : state * energies => no_energy (snd su))).
    + unfold self_energy. rewrite He. exact H1.
    + intros j [s2 u2] _ H2. simpl in H2. unfold force_pair.
      pose proof (pair_force_energy_off i j (mu_induced s2) u2 He) as Hp.
      destruct (pair_force i j (mu_induced s2) u2) as [[[fx fy] fz] u'].
      simpl in Hp. subst u'. exact H2.
Qed.

(** X8.  A pair of particles that both have polarizability zero gets no
    polarization force and adds no energy, whatever their charges, their
    distance and the damping. *)
Theorem pair_force_not_polarizable :
  forall i j mu u,
    is_zero (static_polarizability at_ i) = true ->
    is_zero (static_polarizability at_ j) = true ->
    pair_force i j mu u = ((0.0, 0.0, 0.0)%float, u).
Proof.
  intros i j mu u Hi Hj. unfold pair_force, charge_dipole, dipole_dipole.
  rewrite (ne_zero_false _ Hi), (ne_zero_false _ Hj). simpl.
  destruct u as [us ue ud]. simpl.
  destruct (_ <? cut_coulsq cfg)%float; [destruct (molecule_gate i j)|]; reflexivity.
Qed.

(** *** The order of the ranking *)

(** A non-NaN double as a triple of integers whose lexicographic order is
    the order of the doubles. *)
Definition sf_key (x : spec_float) : Z * Z * Z :=
  match x with
  | S754_zero _ => (0, 0, 0)%Z
  | S754_infinity s => (if s then (-2)%Z else 2%Z, 0%Z, 0%Z)
  | S754_nan => (0, 0, 0)%Z
  | S754_finite s m e => if s then ((-1)%Z, (- e)%Z, Z.neg m) else (1%Z, e, Z.pos m)
  end.

Definition key_lt (a b : Z * Z * Z) : Prop :=
  (fst (fst a) < fst (fst b)
   \/ (fst (fst a) = fst (fst b)
       /\ (snd (fst a) < snd (fst b)
           \/ (snd (fst a) = snd (fst b) /\ snd a < snd b))))%Z.

Lemma SFltb_key (x y : spec_float) :
  x <> S754_nan -> y <> S754_nan ->
  (SFltb x y = true <-> key_lt (sf_key x) (sf_key y)).
Proof.
  intros Hx Hy. unfold SFltb, key_lt.
  destruct x as [sx|sx| |sx mx ex], y as [sy|sy| |sy my ey];
    try congruence; simpl;
    try (destruct sx; simpl; split; intros; try lia; try discriminate; fail);
    try (destruct sy; simpl; split; intros; try lia; try discriminate; fail);
    try (destruct sx, sy; simpl; split; intros; try lia; try discriminate; fail).
  change (Pos.compare_cont Eq mx my) with (Pos.compare mx my).
  destruct sx, sy; simpl; try (split; intros; try lia; try discriminate; fail);
    destruct (Z.compare_spec ex ey); destruct (Pos.compare_spec mx my); simpl;
    split; intros; try lia; try discriminate.
Qed.

Lemma ltb_key (a b : float) :
  is_nan a = false -> is_nan b = false ->
  (PrimFloat.ltb a b = true <-> key_lt (sf_key (Prim2SF a)) (sf_key (Prim2SF b))).
Proof.
  rewrite !is_nan_spec, ltb_spec. intros Ha Hb.
  apply SFltb_key; intros E; rewrite E in *; discriminate.
Qed.

Lemma ltb_irrefl (a : float) : PrimFloat.ltb a a = false.
Proof.
  rewrite ltb_spec. unfold SFltb.
  destruct (Prim2SF a) as [s|s| |s m e]; try reflexivity; try (now destruct s).
  now rewrite SFcompare_refl_finite.
Qed.

Lemma ltb_asym (a b : float) :
  is_nan a = false -> is_nan b = false ->
  PrimFloat.ltb a b = true -> PrimFloat.ltb b a = false.
Proof.
  intros Ha Hb H. apply (ltb_key a b Ha Hb) in H.
  destruct (PrimFloat.ltb b a) eqn:E; [|reflexivity].
  apply (ltb_key b a Hb Ha) in E. unfold key_lt in *. lia.
Qed.

Lemma ltb_negtrans (a b c : float) :
  is_nan a = false -> is_nan b = false -> is_nan c = false ->
  PrimFloat.ltb a b = false -> PrimFloat.ltb b c = false ->
  PrimFloat.ltb a c = false.
Proof.
  intros Ha Hb Hc H1 H2.
  destruct (PrimFloat.ltb a c) eqn:E; [|reflexivity].
  apply (ltb_key a c Ha Hc) in E.
  assert (N1 : ~ key_lt (sf_key (Prim2SF a)) (sf_key (Prim2SF b)))
    by (intros K; apply (ltb_key a b Ha Hb) in K; congruence).
  assert (N2 : ~ key_lt (sf_key (Prim2SF b)) (sf_key (Prim2SF c)))
    by (intros K; apply (ltb_key b c Hb Hc) in K; congruence).
  unfold key_lt in *. lia.
Qed.

Lemma not_ltb_leb (a b : float) :
  is_nan a = false -> is_nan b = false ->
  PrimFloat.ltb a b = false -> PrimFloat.leb b a = true.
Proof.
  intros Ha Hb H. rewrite (gt_is_not_le b a Hb Ha) in H.
  now destruct (PrimFloat.leb b a).
Qed.

Section Ranking.

Variable rm : arr1.
Hypothesis rm_not_nan : forall i, i < nlocal at_ -> is_nan (rm i) = false.

(** From the position [nlocal - t] on, no entry has a larger metric than an
    entry before it. *)
Definition ordered_from (t : nat) (ra : nat -> nat) : Prop :=
  forall k l, k < l -> l < nlocal at_ -> nlocal at_ - t <= l ->
    PrimFloat.ltb (rm (ra k)) (rm (ra l)) = false.

Definition pass_invariant (t : nat) (m : nat) (rs : (nat -> nat) * bool) : Prop :=
  let ra := fst rs in
  visits_local ra
  /\ ordered_from t ra
  /\ (forall k, k <= m -> m < nlocal at_ ->
        PrimFloat.ltb (rm (ra k)) (rm (ra m)) = false)
  /\ (t < nlocal at_ -> nlocal at_ - t - 1 <= m ->
      forall k, k < nlocal at_ - t - 1 ->
        PrimFloat.ltb (rm (ra k)) (rm (ra (nlocal at_ - t - 1))) = false)
  /\ (snd rs = true ->
      forall k, k < m -> PrimFloat.ltb (rm (ra k)) (rm (ra (k + 1))) = false).

Lemma adjacent_ordered (ra : nat -> nat) :
  visits_local ra ->
  (forall k, k < nlocal at_ - 1 ->
     PrimFloat.ltb (rm (ra k)) (rm (ra (k + 1))) = false) ->
  ordered_from (nlocal at_) ra.
Proof.
  intros Hv Hadj k l Hkl Hl _.
  induction l as [|l IH]; [lia|].
  destruct (Nat.eq_dec k l) as [->|Hne].
  - replace (Datatypes.S l) with (l + 1) by lia. apply Hadj. lia.
  - apply ltb_negtrans with (rm (ra l)); try (apply rm_not_nan; apply Hv; lia).
    + apply IH; lia.
    + replace (Datatypes.S l) with (l + 1) by lia. apply Hadj. lia.
Qed.

Lemma bubble_pass_step (t m : nat) (rs : (nat -> nat) * bool) :
  m < nlocal at_ - 1 ->
  pass_invariant t m rs ->
  pass_invariant t (Datatypes.S m)
    (let '(ra, sorted) := rs in
     if PrimFloat.ltb (rm (ra m)) (rm (ra (m + 1)%nat))
     then (seti (seti ra m (ra (m + 1)%nat)) (m + 1) (ra m), false)
     else (ra, sorted)).
Proof.
  intros Hm. destruct rs as [ra sorted]. unfold pass_invariant. simpl.
  intros (HV & H1 & H2 & H3 & HF).
  assert (Nm : is_nan (rm (ra m)) = false) by (apply rm_not_nan, HV; lia).
  assert (Nm1 : is_nan (rm (ra (m + 1))) = false) by (apply rm_not_nan, HV; lia).
  replace (Datatypes.S m) with (m + 1) by lia.
  destruct (PrimFloat.ltb (rm (ra m)) (rm (ra (m + 1)))) eqn:Hc; simpl.
  - assert (Hpre : m + 1 < nlocal at_ - t).
    { destruct (Nat.lt_ge_cases (m + 1) (nlocal at_ - t)) as [|Hge]; [assumption|].
      rewrite (H1 m (m + 1)) in Hc by lia. discriminate. }
    assert (Hnew : forall k, k <= m + 1 ->
              PrimFloat.ltb
                (rm (seti (seti ra m (ra (m + 1))) (m + 1) (ra m) k))
                (rm (ra m)) = false).
    { intros k Hk. destruct (Nat.eq_dec k (m + 1)) as [->|Hk1].
      - rewrite seti_same. apply ltb_irrefl.
      - rewrite seti_other by exact Hk1.
        destruct (Nat.eq_dec k m) as [->|Hk2].
        + rewrite seti_same. now apply ltb_asym.
        + rewrite seti_other by exact Hk2. apply H2; lia. }
    split; [apply swap_visits_local; [lia | exact HV]|].
    split; [|split; [|split; [|discriminate]]].
    + intros k l Hkl Hl Ht.
      rewrite (seti_other _ (m + 1) _ l) by lia.
      rewrite (seti_other _ m _ l) by lia.
      destruct (Nat.eq_dec k (m + 1)) as [->|Hk1].
      * rewrite seti_same. apply H1; lia.
      * rewrite seti_other by exact Hk1.
        destruct (Nat.eq_dec k m) as [->|Hk2].
        -- rewrite seti_same. apply H1; lia.
        -- rewrite seti_other by exact Hk2. apply H1; lia.
    + intros k Hk _. rewrite (seti_same _ (m + 1)). now apply Hnew.
    + intros Ht Hle k Hk.
      replace (nlocal at_ - t - 1) with (m + 1) in * by lia.
      rewrite (seti_same _ (m + 1)). apply Hnew. lia.
  - assert (Hnew : forall k, k <= m + 1 ->
              PrimFloat.ltb (rm (ra k)) (rm (ra (m + 1))) = false).
    { intros k Hk. destruct (Nat.eq_dec k (m + 1)) as [->|Hk1]; [apply ltb_irrefl|].
      apply ltb_negtrans with (rm (ra m)); try assumption.
      - apply rm_not_nan, HV. lia.
      - apply H2; lia. }
    split; [exact HV|]. split; [exact H1|].
    split; [|split].
    + intros k Hk _. now apply Hnew.
    + intros Ht Hle k Hk.
      destruct (Nat.eq_dec (nlocal at_ - t - 1) (m + 1)) as [E|E].
      * rewrite E. apply Hnew. lia.
      * apply H3; lia.
    + intros Hs k Hk. destruct (Nat.eq_dec k m) as [->|Hk2]; [exact Hc|].
      apply HF; [exact Hs | lia].
Qed.

Lemma bubble_pass_ordered (t : nat) (ra : nat -> nat) :
  visits_local ra -> ordered_from t ra ->
  visits_local (fst (bubble_pass rm ra))
  /\ ordered_from (Datatypes.S t) (fst (bubble_pass rm ra))
  /\ (snd (bubble_pass rm ra) = true ->
      ordered_from (nlocal at_) (fst (bubble_pass rm ra))).
Proof.
  intros HV H1. unfold bubble_pass.
  pattern (for_range 0 (nlocal at_ - 1)
             (fun j '(ra0, sorted) =>
                if PrimFloat.ltb (rm (ra0 j)) (rm (ra0 (j + 1)%nat))
                then (seti (seti ra0 j (ra0 (j + 1)%nat)) (j + 1) (ra0 j), false)
                else (ra0, sorted)) (ra, true)).
  apply (for_range_ind_then (pass_invariant t)).
  - lia.
  - unfold pass_invariant. simpl. split; [exact HV|]. split; [exact H1|].
    split; [|split].
    + intros k Hk _. replace k with 0 by lia. apply ltb_irrefl.
    + intros; lia.
    + intros; lia.
  - intros i rs Hi Hinv. apply (bubble_pass_step t i rs); [lia | exact Hinv].
  - intros [ra' sorted] (HV' & P1 & P2 & P3 & HF). simpl in *.
    split; [exact HV'|]. split.
    + intros k l Hkl Hl Ht.
      destruct (Nat.lt_ge_cases l (nlocal at_ - t)) as [Hlt|Hge].
      * replace l with (nlocal at_ - t - 1) by lia. apply P3; lia.
      * apply P1; lia.
    + intros Hs. apply adjacent_ordered; [exact HV'|]. now apply HF.
Qed.

Lemma bubble_sort_ordered :
  forall passes t ra,
    nlocal at_ <= t + passes ->
    visits_local ra -> ordered_from t ra ->
    ordered_from (nlocal at_) (bubble_sort passes rm ra).
Proof.
  induction passes as [|passes IH]; intros t ra Ht HV H1; simpl.
  - intros k l Hkl Hl _. apply H1; lia.
  - destruct (bubble_pass_ordered t ra HV H1) as (HV' & H1' & HS).
    destruct (bubble_pass rm ra) as [ra' sorted]. simpl in *.
    destruct sorted; [now apply HS|].
    apply (IH (Datatypes.S t)); [lia | exact HV' | exact H1'].
Qed.

End Ranking.

(** X9.  With [polar_gs_ranked], when no local ranking metric is NaN, the
    bubble sort leaves the visiting order sorted by decreasing metric: a
    particle visited later never has a larger metric than one visited
    before it. *)
Theorem rank_dipoles_sorted :
  forall s,
    polar_gs_ranked cfg = true ->
    (forall i, i < nlocal at_ -> is_nan (rank_metric s i) = false) ->
    forall k l, k < l -> l < nlocal at_ ->
      PrimFloat.leb (rank_metric s (ranked_array (rank_dipoles s) l))
                    (rank_metric s (ranked_array (rank_dipoles s) k)) = true.
Proof.
  intros s Hr Hnan k l Hkl Hl.
  pose proof (rank_dipoles_visits_local s) as HV.
  apply not_ltb_leb; try (apply Hnan, HV; lia).
  revert HV. unfold rank_dipoles. simpl. rewrite Hr. intros HV.
  apply (bubble_sort_ordered (rank_metric s) Hnan (nlocal at_) 0); try lia.
  - intros i Hi. now rewrite identity_order.
  - intros a b Hab Hb Hge. lia.
Qed.

(** *** The value returned by the solver *)

Lemma solver_loop_return :
  forall fuel it s r s',
    solver_loop fuel it s = Some (r, s') ->
    (it <= r)%Z
    /\ count_events is_sweep (events s')
       = count_events is_sweep (events s) + Z.to_nat (r - it)
         + (if fixed_iteration cfg then 1 else 0)
    /\ count_events is_warning (events s')
       = count_events is_warning (events s)
         + (if (negb (fixed_iteration cfg) && (r >? iterations_max cfg)%Z)%bool
            then 1 else 0).
Proof.
  induction fuel as [|fuel IH]; intros it s r s' H; [discriminate|].
  simpl in H.
  assert (Hsw : count_events is_sweep (events (sweep s))
                = count_events is_sweep (events s) + 1).
  { rewrite events_sweep, count_events_cons. simpl. lia. }
  assert (Hwa : count_events is_warning (events (sweep s))
                = count_events is_warning (events s)).
  { rewrite events_sweep, count_events_cons. reflexivity. }
  unfold done_test in H. destruct (fixed_iteration cfg) eqn:Hf; simpl in H.
  - destruct (Z.geb_spec it (iterations_max cfg)) as [Hge|Hlt].
    + inversion H; subst. rewrite Z.sub_diag, Hsw, Hwa.
      cbn [negb andb Z.to_nat]. split; [lia|]. split; lia.
    + destruct (Z.gtb_spec (it + 1) (iterations_max cfg)) as [Hgt|Hle]; [lia|].
      apply IH in H. destruct H as (Hr & Hs & Hw).
      rewrite events_save_dipoles in Hs, Hw.
      split; [lia|]. split.
      * rewrite Hs, Hsw. replace (r - it)%Z with (1 + (r - (it + 1)))%Z by lia.
        rewrite Z2Nat.inj_add by lia. simpl. lia.
      * rewrite Hw, Hwa. reflexivity.
  - assert (Hs1 : count_events is_sweep
                    (events (save_dipoles (emit EvPrecisionTest (sweep s))))
                  = count_events is_sweep (events s) + 1).
    { rewrite events_save_dipoles.
      change (events (emit EvPrecisionTest (sweep s)))
        with (EvPrecisionTest :: events (sweep s)).
      rewrite count_events_cons. simpl. exact Hsw. }
    assert (Hw1 : count_events is_warning
                    (events (save_dipoles (emit EvPrecisionTest (sweep s))))
                  = count_events is_warning (events s)).
    { rewrite events_save_dipoles.
      change (events (emit EvPrecisionTest (sweep s)))
        with (EvPrecisionTest :: events (sweep s)).
      rewrite count_events_cons. simpl. exact Hwa. }
    destruct (Z.gtb_spec (it + 1) (iterations_max cfg)) as [Hgt|Hle].
    + inversion H; subst.
      change (events (emit EvWarning
                (reset_dipoles (save_dipoles (emit EvPrecisionTest (sweep s))))))
        with (EvWarning
              :: events (reset_dipoles (save_dipoles (emit EvPrecisionTest (sweep s))))).
      rewrite !count_events_cons, events_reset_dipoles, Hs1, Hw1.
      replace (it + 1 - it)%Z with 1%Z by lia.
      destruct (Z.gtb_spec (it + 1) (iterations_max cfg)); [|lia].
      simpl. split; [lia|]. split; lia.
    + destruct (precision_test (sweep s)).
      * apply IH in H. destruct H as (Hr & Hs & Hw).
        split; [lia|]. split.
        -- rewrite Hs, Hs1. replace (r - it)%Z with (1 + (r - (it + 1)))%Z by lia.
           rewrite Z2Nat.inj_add by lia. simpl. lia.
        -- rewrite Hw, Hw1. reflexivity.
      * inversion H; subst. replace (it + 1 - it)%Z with 1%Z by lia.
        destruct (Z.gtb_spec (it + 1) (iterations_max cfg)); [lia|].
        simpl. split; [lia|]. split; [rewrite Hs1 | rewrite Hw1]; lia.
Qed.

(** X20.  The value returned counts the sweeps: without [fixed_iteration]
    it is the number of sweeps made, with [fixed_iteration] it is one less.
    The warning is issued exactly when, without [fixed_iteration], the
    value returned exceeds [iterations_max]. *)
Theorem DipoleSolverIterative_return_value :
  forall fuel s r s',
    DipoleSolverIterative fuel s = Some (r, s') ->
    (0 <= r)%Z
    /\ count_events is_sweep (events s')
       = count_events is_sweep (events s) + Z.to_nat r
         + (if fixed_iteration cfg then 1 else 0)
    /\ count_events is_warning (events s')
       = count_events is_warning (events s)
         + (if (negb (fixed_iteration cfg) && (r >? iterations_max cfg)%Z)%bool
            then 1 else 0).
Proof.
  intros fuel s r s' H. unfold DipoleSolverIterative in H.
  apply solver_loop_return in H. rewrite Z.sub_0_r in H. exact H.
Qed.

(** *** No local particle *)

Lemma ltb_nan_r (a : float) : PrimFloat.ltb a nan = false.
Proof.
  rewrite ltb_spec. replace (Prim2SF nan) with S754_nan by reflexivity.
  unfold SFltb. now destruct (Prim2SF a).
Qed.

(** X21.  With no local particle the mean change is [0/0], a NaN, which the
    precision test counts as converged: without [fixed_iteration] and with
    [iterations_max >= 1] the solver makes one sweep and one precision test,
    returns 1 without the warning, and changes no dipole. *)
Theorem DipoleSolverIterative_no_particles :
  nlocal at_ = 0 ->
  fixed_iteration cfg = false ->
  (1 <= iterations_max cfg)%Z ->
  forall fuel s,
    exists s',
      DipoleSolverIterative (Datatypes.S fuel) s = Some (1%Z, s')
      /\ events s' = EvPrecisionTest :: EvSweep :: events s
      /\ forall k p, mu_induced s' k p = mu_induced s k p.
Proof.
  intros Hn Hf Hmax fuel s.
  set (s0 := rank_dipoles (build_dipole_field_matrix s)).
  assert (Hp : precision_test (sweep s0) = false).
  { unfold precision_test, Dbl.gt.
    assert (Hc : change_mean (sweep s0) = nan).
    { unfold change_mean, change_sum. rewrite Hn. reflexivity. }
    rewrite Hc. apply ltb_nan_r. }
  assert (Hrun : DipoleSolverIterative (Datatypes.S fuel) s
                 = Some (1%Z, save_dipoles (emit EvPrecisionTest (sweep s0)))).
  { unfold DipoleSolverIterative. fold s0. simpl. unfold done_test.
    rewrite Hf. simpl.
    destruct (Z.gtb_spec 1 (iterations_max cfg)) as [Hgt|Hle]; [lia|].
    now rewrite Hp. }
  eexists. split; [exact Hrun|]. split.
  - rewrite events_save_dipoles.
    change (events (emit EvPrecisionTest (sweep s0)))
      with (EvPrecisionTest :: events (sweep s0)).
    now rewrite events_sweep.
  - intros k p.
    assert (Hg : ghosts_kept s (save_dipoles (emit EvPrecisionTest (sweep s0)))).
    { unfold DipoleSolverIterative in Hrun.
      apply (solver_loop_ghosts s _ _ _ _ _ Hrun).
      - apply rank_dipoles_visits_local.
      - intros k' p' Hk'. now repeat split. }
    destruct (Hg k p ltac:(lia)) as (_ & G & _). exact G.
Qed.

End PairStyle.

(** ** The claims on the reference configurations *)

(** Without damping the matrix does not depend on [exp]. *)
Lemma build_dipole_field_matrix_without_damping
    (closest_image : (nat -> float) -> (nat -> float) -> nat -> float)
    (exp1 exp2 : float -> float) (cfg : settings) (at_ : atoms) (s : state) :
  damping_type cfg = DAMPING_NONE ->
  build_dipole_field_matrix closest_image exp1 cfg at_ s
  = build_dipole_field_matrix closest_image exp2 cfg at_ s.
Proof.
  intros H.
  unfold build_dipole_field_matrix, pair_blocks, pair_block, damping_terms.
  rewrite H. reflexivity.
Qed.

(** Without damping the solver does not depend on [exp]. *)
Lemma DipoleSolverIterative_without_damping
    (closest_image : (nat -> float) -> (nat -> float) -> nat -> float)
    (exp1 exp2 : float -> float) (cfg : settings) (at_ : atoms)
    (fuel : nat) (s : state) :
  damping_type cfg = DAMPING_NONE ->
  DipoleSolverIterative closest_image exp1 cfg at_ fuel s
  = DipoleSolverIterative closest_image exp2 cfg at_ fuel s.
Proof.
  intros H.
  unfold DipoleSolverIterative, build_dipole_field_matrix, pair_blocks,
    pair_block, damping_terms.
  rewrite H. reflexivity.
Qed.

(** Without damping [compute] does not depend on [exp]. *)
Lemma compute_without_damping
    (closest_image : (nat -> float) -> (nat -> float) -> nat -> float)
    (exp1 exp2 : float -> float) (cfg : settings) (at_ : atoms) (eflag : bool)
    (fuel : nat) (s : state) :
  damping_type cfg = DAMPING_NONE ->
  compute closest_image exp1 cfg at_ eflag fuel s
  = compute closest_image exp2 cfg at_ eflag fuel s.
Proof.
  intros H. unfold compute.
  rewrite (DipoleSolverIterative_without_damping closest_image exp1 exp2 cfg at_ fuel _ H).
  unfold dipole_forces, force_pair, pair_force, dipole_dipole.
  rewrite H. reflexivity.
Qed.

Section Reference.
Import Ref.
Local Open Scope float_scope.


(** C1, counterexample.  Fixed-iteration mode, [iterations_max = 0],
    neither Gauss-Seidel flag, two particles of polarizability 1 two units
    apart; on entry the static field of the first is [(1,0,0)] and its
    dipole the first guess [1.03], relaxation factor included.  The solver
    returns [0] and the dipole is still [1.03], while the polarizability
    times the static field is [1]. *)
Lemma C1_counterexample_fixed_zero_is_not_alpha_E :
  match DipoleSolverIterative open_domain exp_unused (fixed_jacobi 0)
          (two_atoms (vec3 2.0 0.0 0.0)) 1%nat unit_field with
  | Some (r, s') =>
      r = 0%Z
      /\ mu_induced s' 0%nat 0%nat = 1.03
      /\ static_polarizability (two_atoms (vec3 2.0 0.0 0.0)) 0%nat
         * ef_static s' 0%nat 0%nat = 1.0
      /\ (mu_induced s' 0%nat 0%nat
          =? static_polarizability (two_atoms (vec3 2.0 0.0 0.0)) 0%nat
             * ef_static s' 0%nat 0%nat) = false
  | None => False
  end.
Proof. vm_compute. repeat split. Qed.

(** C1, witness: Jacobi updates, [iterations_max = 0]; the dipoles are the
    ones on entry, relaxation factor included. *)
Lemma C1_witness_fixed_zero_jacobi :
  exists s',
    DipoleSolverIterative open_domain exp_unused (fixed_jacobi 0)
      (two_atoms (vec3 2.0 0.0 0.0)) 1%nat unit_field = Some (0%Z, s')
    /\ count_events is_warning (events s') = 0%nat
    /\ mu_induced s' = mu_induced unit_field.
Proof.
  destruct (C1_fixed_zero_iterations open_domain exp_unused (fixed_jacobi 0)
              (two_atoms (vec3 2.0 0.0 0.0)) eq_refl eq_refl 0%nat unit_field)
    as [s' (H1 & H2 & _ & H4)].
  exists s'. split; [exact H1|]. split; [exact H2|].
  exact (proj1 (H4 eq_refl eq_refl)).
Defined.

(** C2, at the failing inputs.  Fixed-iteration mode with the default
    ranked Gauss-Seidel updates on the two particles of C1.  With
    [iterations_max = 2] the solver makes three sweeps, no precision test,
    and returns [2].  With [iterations_max = 0] it makes one sweep, which
    moves the second dipole from [0] to [0.25], and returns [0]. *)
Lemma C2_fixed_iteration_makes_one_more_sweep :
  match DipoleSolverIterative open_domain exp_unused (fixed 2)
          (two_atoms (vec3 2.0 0.0 0.0)) 3%nat unit_field with
  | Some (r, s') =>
      r = 2%Z
      /\ count_events is_sweep (events s') = 3%nat
      /\ count_events is_precision_test (events s') = 0%nat
  | None => False
  end
  /\ match DipoleSolverIterative open_domain exp_unused (fixed 0)
          (two_atoms (vec3 2.0 0.0 0.0)) 1%nat unit_field with
     | Some (r, s') =>
         r = 0%Z
         /\ count_events is_sweep (events s') = 1%nat
         /\ mu_induced unit_field 1%nat 0%nat = 0.0
         /\ mu_induced s' 1%nat 0%nat = 0.25
     | None => False
     end.
Proof. vm_compute. repeat split. Qed.

(** C3, at the failing input.  Precision mode with the defaults
    ([iterations_max = 50], precision [1e-11], ranked Gauss-Seidel, no
    damping); two particles of polarizability 1 at distance [0.01]; static
    field [(1,0,0)] on the first.  The iteration diverges, the dipoles
    overflow, and the loop returns after 26 sweeps, below the cap, without
    the reset and without the warning: the first dipole is infinite and the
    second is NaN. *)
Lemma C3_divergence_returns_non_finite_dipoles :
  match DipoleSolverIterative open_domain exp_unused defaults
          (two_atoms (vec3 0.01 0.0 0.0)) 51%nat unit_field with
  | Some (r, s') =>
      r = 26%Z
      /\ count_events is_sweep (events s') = 26%nat
      /\ count_events is_warning (events s') = 0%nat
      /\ is_finite (mu_induced s' 0%nat 0%nat) = false
      /\ is_nan (mu_induced s' 1%nat 0%nat) = true
      /\ is_finite (static_polarizability (two_atoms (vec3 0.01 0.0 0.0)) 0%nat
                    * ef_static s' 0%nat 0%nat) = true
  | None => False
  end.
Proof. vm_compute. repeat split. Qed.

(** C4, at the failing input.  The run of C3: at the 26th sweep the mean of
    the squared changes is NaN; it is not at most the square of the
    precision, yet the precision test leaves [keep_iterating] at [0] and
    the loop stops. *)
Lemma C4_nan_mean_stops_the_loop :
  match DipoleSolverIterative open_domain exp_unused defaults
          (two_atoms (vec3 0.01 0.0 0.0)) 51%nat unit_field with
  | Some (r, s') =>
      r = 26%Z
      /\ is_nan (change_mean (two_atoms (vec3 0.01 0.0 0.0)) s') = true
      /\ (change_mean (two_atoms (vec3 0.01 0.0 0.0)) s'
          <=? polar_precision defaults * polar_precision defaults) = false
      /\ precision_test defaults (two_atoms (vec3 0.01 0.0 0.0)) s' = false
  | None => False
  end.
Proof. vm_compute. repeat split. Qed.

(** C5, counterexample.  Two particles at the origin and at [(0.1,0.3,0)],
    no damping.  The cell [T_01[0][1]] of the matrix and the cell
    [T_10[1][0]], which the transpose of [T_10] puts in its place, differ in
    the last bit. *)
Lemma C5_counterexample_blocks_not_transposes :
  let m := dipole_field_matrix
             (build_dipole_field_matrix open_domain exp_unused defaults
                (two_atoms (vec3 0.1 0.3 0.0)) cleared) in
  m 0%nat 4%nat = -0x1.c75e34235a6bdp+4
  /\ m 4%nat 0%nat = -0x1.c75e34235a6bcp+4
  /\ (m 0%nat 4%nat =? m 4%nat 0%nat) = false.
Proof. vm_compute. repeat split. Qed.

(** C5, witness: the two particles of C1, the cells [(0,1)] of the blocks. *)
Lemma C5_witness_copy :
  let m := dipole_field_matrix
             (build_dipole_field_matrix open_domain exp_unused defaults
                (two_atoms (vec3 2.0 0.0 0.0)) cleared) in
  m 3%nat 1%nat = m 0%nat 4%nat.
Proof.
  refine (proj1 (C5_lower_blocks_copy_upper open_domain exp_unused defaults
                   (two_atoms (vec3 2.0 0.0 0.0)) cleared 0 1 0 1 _ _ _ _));
    simpl; lia.
Defined.



(** An instance of C7.  Two particles of polarizability 1, two units apart,
    the first with charge 1, both with dipole [(1,0,0)].  In the same
    molecule 7 the pair force is the dipole-dipole force [(0.375,0,0)],
    [u_polar_ef] stays [0] and [u_polar_dd] becomes [-0.25]; with molecule
    id 0 the charge-dipole force and energy come on top. *)
Example pair_force_same_molecule :
  let mu : arr2 := fun _ => vec3 1.0 0.0 0.0 in
  let u0 := {| u_polar_self := 0.0; u_polar_ef := 0.0; u_polar_dd := 0.0 |} in
  let view := fun r : triple * energies =>
                (fst r, u_polar_ef (snd r), u_polar_dd (snd r)) in
  view (pair_force open_domain exp_unused defaults
          (two_atoms_in 7 1.0 0.0 1.0 (vec3 2.0 0.0 0.0)) true 0 1 mu u0)
  = ((0.375, 0.0, 0.0), 0.0, -0.25)
  /\ view (pair_force open_domain exp_unused defaults
             (two_atoms_in 0 1.0 0.0 1.0 (vec3 2.0 0.0 0.0)) true 0 1 mu u0)
     = ((4.9306538361688546, 0.0, 0.0), -4.3734276827221006, -0.25).
Proof. vm_compute. split; reflexivity. Qed.

(** C8, at the failing input.  Two particles of polarizability 1 and no
    charge at the same position, the defaults, all arrays cleared.  In the
    matrix the inverse powers saturate to the finite [DBL_MAX].  In
    [compute] nothing guards the division by the squared distance: the
    forces on both particles and the polarization energy are NaN. *)
Lemma C8_coincident_particles_nan_forces_and_energy :
  inverse_powers 0.0 = (Dbl.DBL_MAX, Dbl.DBL_MAX)
  /\ is_finite Dbl.DBL_MAX = true
  /\ match compute open_domain exp_unused defaults
             (two_atoms (vec3 0.0 0.0 0.0)) true 51%nat cleared with
     | Some (r, s') =>
         dipole_field_matrix s' 0%nat 3%nat = Dbl.DBL_MAX
         /\ is_nan (ef_static s' 0%nat 0%nat) = true
         /\ is_nan (f s' 0%nat 0%nat) = true
         /\ is_nan (f s' 1%nat 0%nat) = true
         /\ is_nan (eng_pol s') = true
     | None => False
     end.
Proof. vm_compute. repeat split. Qed.

(** C9, witness: fixed-iteration mode with [iterations_max = 2] on the two
    particles of C1: the solver returns 2 and the log holds three sweeps. *)
Lemma C9_witness_fixed_two :
  exists s',
    DipoleSolverIterative open_domain exp_unused (fixed 2)
      (two_atoms (vec3 2.0 0.0 0.0)) 3%nat unit_field = Some (2%Z, s')
    /\ events s' = [EvSweep; EvSweep; EvSweep].
Proof.
  eexists.
  destruct (proj1 (C9_fixed_iteration_skips_divergence_branch open_domain exp_unused
                     (fixed 2) (two_atoms (vec3 2.0 0.0 0.0)))
              eq_refl 3%nat unit_field ltac:(simpl; lia)) as (H & He & _).
  split; [exact H | exact He].
Defined.

(** C10, witness: a state and the same state with [DBL_MAX] stored in a
    cell of a diagonal block give the same sweep. *)
Lemma C10_witness_sentinel_on_diagonal :
  agree_off_diagonal
    (sweep defaults (two_atoms (vec3 2.0 0.0 0.0)) unit_field)
    (sweep defaults (two_atoms (vec3 2.0 0.0 0.0))
       (set_dipole_field_matrix unit_field
          (set2 (dipole_field_matrix unit_field) 0 0 Dbl.DBL_MAX))).
Proof.
  apply (C10_diagonal_blocks_never_read defaults (two_atoms (vec3 2.0 0.0 0.0))).
  unfold agree_off_diagonal, off_diagonal_agree. simpl.
  repeat (split; [reflexivity|]).
  intros i j p q Hij Hp Hq. rewrite set2_other by lia. reflexivity.
Defined.

End Reference.

(** ** Forward communication *)

Lemma set1_same (a : arr1) (i : nat) (v : float) : set1 a i v i = v.
Proof. unfold set1. now rewrite Nat.eqb_refl. Qed.

Lemma set1_other (a : arr1) (i k : nat) (v : float) : k <> i -> set1 a i v k = a k.
Proof. intros H. unfold set1. now destruct (Nat.eqb_spec k i). Qed.

Lemma set1_at (a : arr1) (i k : nat) (v : float) : k = i -> set1 a i v k = v.
Proof. intros ->. apply set1_same. Qed.

Lemma set2_at (a : arr2) (i p k l : nat) (v : float) :
  k = i -> l = p -> set2 a i p v k l = v.
Proof. intros -> ->. apply set2_same. Qed.

Ltac set1_simpl :=
  repeat first [ rewrite set1_at by lia | rewrite set1_other by lia ].

(** What the buffer holds for the [i]-th particle of the list. *)
Definition packed (a : Comm.particles) (j : nat) (c : nat) : float :=
  match c with
  | 0 => Comm.static_polarizability a j
  | 1 => Comm.ef_static a j 0
  | 2 => Comm.ef_static a j 1
  | 3 => Comm.ef_static a j 2
  | 4 => Comm.mu_induced a j 0
  | 5 => Comm.mu_induced a j 1
  | _ => Comm.mu_induced a j 2
  end.

Lemma pack_comm_loop (n : nat) (list : nat -> nat) (buf : arr1) (a : Comm.particles) :
  let r := for_range 0 n (fun i '(buf, m) =>
      let j := list i in
      let buf := set1 buf m (Comm.static_polarizability a j) in
      let m := Datatypes.S m in
      let buf := set1 buf m (Comm.ef_static a j 0%nat) in
      let m := Datatypes.S m in
      let buf := set1 buf m (Comm.ef_static a j 1%nat) in
      let m := Datatypes.S m in
      let buf := set1 buf m (Comm.ef_static a j 2%nat) in
      let m := Datatypes.S m in
      let buf := set1 buf m (Comm.mu_induced a j 0%nat) in
      let m := Datatypes.S m in
      let buf := set1 buf m (Comm.mu_induced a j 1%nat) in
      let m := Datatypes.S m in
      let buf := set1 buf m (Comm.mu_induced a j 2%nat) in
      let m := Datatypes.S m in
      (buf, m)) (buf, 0%nat) in
  snd r = 7 * n
  /\ (forall i c, i < n -> c < 7 -> fst r (7 * i + c) = packed a (list i) c)
  /\ (forall k, 7 * n <= k -> fst r k = buf k).
Proof.
  apply (for_range_ind (fun (n : nat) (r : arr1 * nat) =>
    snd r = 7 * n
    /\ (forall i c, i < n -> c < 7 -> fst r (7 * i + c) = packed a (list i) c)
    /\ (forall k, 7 * n <= k -> fst r k = buf k))).
  - lia.
  - simpl. split; [reflexivity|]. split; [intros; lia | reflexivity].
  - intros i [b m] Hi (Hm & Hin & Hout). simpl in Hm. subst m. simpl.
    split; [lia|]. split.
    + intros i' c Hi' Hc. destruct (Nat.eq_dec i' i) as [->|Hne].
      * do 7 (destruct c as [|c]; [set1_simpl; reflexivity|]). lia.
      * set1_simpl. apply Hin; lia.
    + intros k Hk. set1_simpl. apply Hout. lia.
Qed.

Lemma unpack_comm_loop (n first : nat) (buf : arr1) (a : Comm.particles) :
  let r := for_range first (first + n) (fun i '(a, m) =>
    let sp := set1 (Comm.static_polarizability a) i (buf m) in
    let m := Datatypes.S m in
    let ef := set2 (Comm.ef_static a) i 0 (buf m) in
    let m := Datatypes.S m in
    let ef := set2 ef i 1 (buf m) in
    let m := Datatypes.S m in
    let ef := set2 ef i 2 (buf m) in
    let m := Datatypes.S m in
    let mu := set2 (Comm.mu_induced a) i 0 (buf m) in
    let m := Datatypes.S m in
    let mu := set2 mu i 1 (buf m) in
    let m := Datatypes.S m in
    let mu := set2 mu i 2 (buf m) in
    let m := Datatypes.S m in
    ({| Comm.static_polarizability := sp; Comm.ef_static := ef;
        Comm.mu_induced := mu |}, m))
    (a, 0%nat) in
  (forall i c, i < n -> c < 7 -> packed (fst r) (first + i) c = buf (7 * i + c))
  /\ (forall k, k < first \/ first + n <= k ->
        Comm.static_polarizability (fst r) k = Comm.static_polarizability a k)
  /\ (forall k p, k < first \/ first + n <= k \/ 3 <= p ->
        Comm.ef_static (fst r) k p = Comm.ef_static a k p
        /\ Comm.mu_induced (fst r) k p = Comm.mu_induced a k p).
Proof.
  apply (for_range_ind_then (fun (hi : nat) (r : Comm.particles * nat) =>
    snd r = 7 * (hi - first)
    /\ (forall i c, first + i < hi -> c < 7 ->
          packed (fst r) (first + i) c = buf (7 * i + c))
    /\ (forall k, k < first \/ hi <= k ->
          Comm.static_polarizability (fst r) k = Comm.static_polarizability a k)
    /\ (forall k p, k < first \/ hi <= k \/ 3 <= p ->
          Comm.ef_static (fst r) k p = Comm.ef_static a k p
          /\ Comm.mu_induced (fst r) k p = Comm.mu_induced a k p))).
  - lia.
  - simpl. split; [lia|]. split; [intros; lia|]. split; [reflexivity|]. now split.
  - intros i [a1 m] Hi (Hm & Hin & Hsp & Hrow). cbn [fst snd] in *. subst m.
    cbv zeta. cbn [fst snd].
    split; [lia|]. split; [|split].
    + intros i' c Hi' Hc. destruct (Nat.eq_dec (first + i') i) as [E|Hne].
      * replace (7 * (i - first)) with (7 * i') by lia.
        do 7 (destruct c as [|c];
              [simpl packed;
               repeat first [ rewrite set1_at by lia
                            | rewrite set2_at by lia
                            | rewrite set2_other by lia ];
               f_equal; lia|]).
        lia.
      * transitivity (packed a1 (first + i') c); [|apply Hin; lia].
        do 7 (destruct c as [|c];
              [simpl packed;
               repeat first [ rewrite set1_other by lia
                            | rewrite set2_other by lia ];
               reflexivity|]).
        lia.
    + intros k Hk. simpl. rewrite set1_other by lia. apply Hsp. lia.
    + intros k p Hk. simpl. repeat rewrite set2_other by lia. apply Hrow. lia.
  - intros r (_ & Hin & Hsp & Hrow). split; [|split].
    + intros i c Hi Hc. apply Hin; lia.
    + exact Hsp.
    + exact Hrow.
Qed.

(** X10.  [pack_comm] stores exactly [7 * n] doubles, from [buf[0]] on and
    seven for each particle of the list in the order polarizability, static
    field, dipole; it changes no later cell of the buffer and returns 7. *)
Theorem pack_comm_extent :
  forall n list buf a,
    snd (Comm.pack_comm n list buf a) = 7%Z
    /\ (forall i c, i < n -> c < 7 ->
          fst (Comm.pack_comm n list buf a) (7 * i + c) = packed a (list i) c)
    /\ (forall k, 7 * n <= k -> fst (Comm.pack_comm n list buf a) k = buf k).
Proof.
  intros n list buf a. unfold Comm.pack_comm.
  destruct (pack_comm_loop n list buf a) as (_ & Hin & Hout).
  destruct (for_range 0 n _ (buf, 0)) as [b m]. simpl in *.
  split; [reflexivity|]. now split.
Qed.

(** X11.  What [pack_comm] packs, [unpack_comm] restores: after unpacking
    the packed buffer, the particle [first + i] of the receiver has the
    polarizability, the static field and the dipole of the particle
    [list[i]] of the sender, and no other particle of the receiver has
    changed. *)
Theorem unpack_comm_pack_comm :
  forall n list buf src first dst,
    let dst' := Comm.unpack_comm n first (fst (Comm.pack_comm n list buf src)) dst in
    (forall i, i < n ->
       Comm.static_polarizability dst' (first + i)
       = Comm.static_polarizability src (list i)
       /\ forall p, p < 3 ->
            Comm.ef_static dst' (first + i) p = Comm.ef_static src (list i) p
            /\ Comm.mu_induced dst' (first + i) p = Comm.mu_induced src (list i) p)
    /\ (forall k, k < first \/ first + n <= k ->
          Comm.static_polarizability dst' k = Comm.static_polarizability dst k
          /\ forall p, Comm.ef_static dst' k p = Comm.ef_static dst k p
                       /\ Comm.mu_induced dst' k p = Comm.mu_induced dst k p).
Proof.
  intros n list buf src first dst dst'.
  assert (Hpack : forall i c, i < n -> c < 7 ->
            fst (Comm.pack_comm n list buf src) (7 * i + c) = packed src (list i) c).
  { unfold Comm.pack_comm.
    destruct (pack_comm_loop n list buf src) as (_ & Hin & _).
    destruct (for_range 0 n _ (buf, 0)) as [b m]. exact Hin. }
  destruct (unpack_comm_loop n first (fst (Comm.pack_comm n list buf src)) dst)
    as (Hin & Hsp & Hrow).
  fold (Comm.unpack_comm n first (fst (Comm.pack_comm n list buf src)) dst) in Hin, Hsp, Hrow.
  fold dst' in Hin, Hsp, Hrow.
  split.
  - intros i Hi. split.
    + exact (eq_trans (Hin i 0 Hi ltac:(lia)) (Hpack i 0 Hi ltac:(lia))).
    + intros p Hp. destruct p as [|[|[|p]]]; try lia; split.
      * exact (eq_trans (Hin i 1 Hi ltac:(lia)) (Hpack i 1 Hi ltac:(lia))).
      * exact (eq_trans (Hin i 4 Hi ltac:(lia)) (Hpack i 4 Hi ltac:(lia))).
      * exact (eq_trans (Hin i 2 Hi ltac:(lia)) (Hpack i 2 Hi ltac:(lia))).
      * exact (eq_trans (Hin i 5 Hi ltac:(lia)) (Hpack i 5 Hi ltac:(lia))).
      * exact (eq_trans (Hin i 3 Hi ltac:(lia)) (Hpack i 3 Hi ltac:(lia))).
      * exact (eq_trans (Hin i 6 Hi ltac:(lia)) (Hpack i 6 Hi ltac:(lia))).
  - intros k Hk. split; [now apply Hsp|]. intros p. apply Hrow. lia.
Qed.

(** ** [settings] *)

Section StyleFacts.

Import Style.

Variable ntypes : nat.
Variable numeric : String.string -> option float.
Variable inumeric : String.string -> option Z.
Variable bounds : String.string -> nat -> option (nat * nat).
Variable fresh : created.

(** [polar_gs] and [polar_gs_ranked] are not both on. *)
Definition gs_exclusive (st : style) : Prop :=
  (truth (ints st polar_gs) && truth (ints st polar_gs_ranked))%bool = false.

Ltac style_cases H :=
  repeat match type of H with
         | context [if ?c then _ else _] => destruct c eqn:?
         | context [match numeric ?s with _ => _ end] => destruct (numeric s)
         | context [match inumeric ?s with _ => _ end] => destruct (inumeric s)
         end;
  try discriminate H.

Lemma keyword_gs_exclusive (key value : String.string) (st st' : style) :
  keyword numeric inumeric key value st = Done st' ->
  gs_exclusive st -> gs_exclusive st'.
Proof.
  unfold keyword, gs_exclusive, yes_no, force_numeric, force_inumeric, bind.
  intros H Hg.
  style_cases H; inversion H; subst; clear H; simpl; try exact Hg;
    repeat match goal with
           | E : truth _ = false |- _ => rewrite E
           end;
    try reflexivity; try apply andb_false_r.
Qed.

Lemma keywords_gs_exclusive :
  forall n args st st',
    List.length args <= n ->
    keywords numeric inumeric args st = Done st' ->
    gs_exclusive st -> gs_exclusive st'.
Proof.
  induction n as [|n IH]; intros args st st' Hn H Hg.
  - destruct args; [|simpl in Hn; lia]. simpl in H. now inversion H; subst.
  - destruct args as [|key [|value rest]]; simpl in H.
    + now inversion H; subst.
    + discriminate.
    + unfold bind in H.
      destruct (keyword numeric inumeric key value st) as [st1|e] eqn:Hk; [|discriminate].
      apply (IH rest st1 st'); [simpl in Hn; lia | exact H |].
      now apply (keyword_gs_exclusive key value st).
Qed.

Lemma reset_cut_lj_frame (st : style) :
  ints (reset_cut_lj ntypes st) = ints st
  /\ doubles (reset_cut_lj ntypes st) = doubles st
  /\ setflag (reset_cut_lj ntypes st) = setflag st
  /\ epsilon (reset_cut_lj ntypes st) = epsilon st
  /\ sigma (reset_cut_lj ntypes st) = sigma st.
Proof.
  unfold reset_cut_lj.
  apply (for_range_inv (fun s' => ints s' = ints st /\ doubles s' = doubles st
           /\ setflag s' = setflag st /\ epsilon s' = epsilon st /\ sigma s' = sigma st)).
  - now repeat split.
  - intros i s1 _ H1.
    apply (for_range_inv (fun s' => ints s' = ints st /\ doubles s' = doubles st
             /\ setflag s' = setflag st /\ epsilon s' = epsilon st /\ sigma s' = sigma st)).
    + exact H1.
    + intros j s2 _ H2. destruct (truth (setflag s2 i j)); exact H2.
Qed.

(** X12.  [settings] keeps [polar_gs] and [polar_gs_ranked] apart: when it
    returns from a state in which they are not both on, they are not both
    on afterwards, whatever the keywords and their order. *)
Theorem settings_keeps_gs_exclusive :
  forall arg st st',
    gs_exclusive st ->
    settings ntypes numeric inumeric arg st = Done st' ->
    gs_exclusive st'.
Proof.
  intros arg st st' Hg H. unfold settings in H.
  destruct arg as [|a0 rest]; [discriminate|].
  unfold bind, force_numeric in H.
  destruct (numeric a0) as [g|]; [|discriminate].
  set (st0 := set_double st cut_lj_global g) in H.
  assert (Hg0 : gs_exclusive st0) by exact Hg.
  destruct (match rest with
            | [] => Done (set_double st0 cut_coul (doubles st0 cut_lj_global))
            | a1 :: _ =>
                match match numeric a1 with
                      | Some d => Done d
                      | None => Abort Library_error
                      end with
                | Done a => Done (set_double st0 cut_coul a)
                | Abort e => Abort e
                end
            end) as [st1|e] eqn:H1; [|discriminate].
  assert (Hg1 : gs_exclusive st1).
  { destruct rest as [|a1 rest'].
    - inversion H1; subst. exact Hg0.
    - destruct (numeric a1); inversion H1; subst. exact Hg0. }
  destruct (keywords numeric inumeric (tl rest) st1) as [st2|e] eqn:H2; [|discriminate].
  pose proof (keywords_gs_exclusive _ _ _ _ (le_n _) H2 Hg1) as Hg2.
  inversion H; subst. destruct (truth (ints st2 allocated)); [|exact Hg2].
  unfold gs_exclusive. destruct (reset_cut_lj_frame st2) as (-> & _). exact Hg2.
Qed.

Lemma keywords_odd :
  forall n args st,
    List.length args <= n ->
    Nat.odd (List.length args) = true ->
    exists e, keywords numeric inumeric args st = Abort e.
Proof.
  induction n as [|n IH]; intros args st Hn Ho.
  - destruct args; [discriminate | simpl in Hn; lia].
  - destruct args as [|key [|value rest]]; [discriminate | |].
    + simpl. now eexists.
    + simpl. unfold bind.
      destruct (keyword numeric inumeric key value st) as [st1|e]; [|now eexists].
      apply IH; [simpl in Hn; lia|].
      exact Ho.
Qed.

(** X13.  A keyword without a value is refused: with three or more
    arguments of which the number is odd, [settings] ends the run in
    [error->all]. *)
Theorem settings_rejects_dangling_keyword :
  forall arg st,
    3 <= List.length arg ->
    Nat.odd (List.length arg) = true ->
    exists e, settings ntypes numeric inumeric arg st = Abort e.
Proof.
  intros arg st Hl Ho. unfold settings.
  destruct arg as [|a0 [|a1 rest]]; try (simpl in Hl; lia).
  unfold bind, force_numeric.
  destruct (numeric a0) as [g|]; [|now eexists].
  destruct (numeric a1) as [c|]; [|now eexists].
  simpl tl.
  destruct (keywords_odd (List.length rest) rest
              (set_double (set_double st cut_lj_global g) cut_coul c) (le_n _))
    as [e He].
  - exact Ho.
  - rewrite He. now eexists.
Qed.

(** The cells that the reset of [settings] has stored when its loops are at
    the row [n] and the column [m]. *)
Definition reset_done (st : style) (n m k l : nat) : Prop :=
  1 <= k /\ k < l /\ l <= ntypes /\ truth (setflag st k l) = true
  /\ (k < n \/ (k = n /\ l < m)).

Definition reset_state (st : style) (n m : nat) (s' : style) : Prop :=
  ints s' = ints st /\ doubles s' = doubles st /\ setflag s' = setflag st
  /\ epsilon s' = epsilon st /\ sigma s' = sigma st
  /\ forall k l,
       (reset_done st n m k l -> cut_lj s' k l = doubles st cut_lj_global)
       /\ (~ reset_done st n m k l -> cut_lj s' k l = cut_lj st k l).

Lemma reset_cut_lj_cells (st : style) :
  reset_state st (ntypes + 1) 0 (reset_cut_lj ntypes st).
Proof.
  unfold reset_cut_lj.
  apply (for_range_ind (fun n s' => reset_state st n 0 s')).
  - lia.
  - unfold reset_state, reset_done. repeat (split; [reflexivity|]).
    intros k l. split; [lia | reflexivity].
  - intros i s1 Hi H1.
    pattern (for_range (i + 1) (ntypes + 1)
               (fun j st0 =>
                  if truth (setflag st0 i j)
                  then set_cut_lj st0 i j (doubles st0 cut_lj_global)
                  else st0) s1).
    apply (for_range_ind_then (fun m s' => reset_state st i m s')).
    + lia.
    + destruct H1 as (A & B & C & D & E & F).
      unfold reset_state. repeat (split; [assumption|]).
      intros k l. destruct (F k l) as [F1 F2]. split; intros H.
      * apply F1. unfold reset_done in *; intuition lia.
      * apply F2. unfold reset_done in *; intuition lia.
    + intros j s2 Hj (A & B & C & D & E & F).
      destruct (truth (setflag s2 i j)) eqn:Ht.
      * unfold reset_state. simpl. repeat (split; [assumption|]).
        intros k l. destruct (F k l) as [F1 F2].
        destruct (Nat.eq_dec k i) as [->|Hk]; [destruct (Nat.eq_dec l j) as [->|Hl]|].
        -- rewrite set2_same, B. split; reflexivity || idtac.
           intros H. exfalso. apply H. rewrite C in Ht. unfold reset_done. intuition lia.
        -- rewrite set2_other by (right; exact Hl).
           split; intros H; [apply F1 | apply F2]; unfold reset_done in *; intuition lia.
        -- rewrite set2_other by (left; exact Hk).
           split; intros H; [apply F1 | apply F2]; unfold reset_done in *; intuition lia.
      * unfold reset_state. repeat (split; [assumption|]).
        intros k l. destruct (F k l) as [F1 F2]. rewrite C in Ht.
        split; intros H.
        -- apply F1. unfold reset_done in *.
           destruct H as (H1' & H2' & H3' & H4' & H5').
           repeat (split; [assumption|]).
           destruct H5' as [|[-> H5']]; [now left|].
           destruct (Nat.eq_dec l j) as [->|Hl]; [congruence | right; lia].
        -- apply F2. unfold reset_done in *; intuition lia.
    + intros s' (A & B & C & D & E & F).
      unfold reset_state. repeat (split; [assumption|]).
      intros k l. destruct (F k l) as [F1 F2].
      split; intros H; [apply F1 | apply F2]; unfold reset_done in *; intuition lia.
Qed.

Lemma keyword_frame (key value : String.string) (st st' : style) :
  keyword numeric inumeric key value st = Done st' ->
  ints st' allocated = ints st allocated
  /\ doubles st' cut_lj_global = doubles st cut_lj_global
  /\ doubles st' cut_coul = doubles st cut_coul
  /\ setflag st' = setflag st /\ epsilon st' = epsilon st
  /\ sigma st' = sigma st /\ cut_lj st' = cut_lj st.
Proof.
  unfold keyword, yes_no, force_numeric, force_inumeric, bind.
  intros H. style_cases H; inversion H; subst; clear H; now repeat split.
Qed.

Lemma keywords_frame :
  forall n args st st',
    List.length args <= n ->
    keywords numeric inumeric args st = Done st' ->
    ints st' allocated = ints st allocated
    /\ doubles st' cut_lj_global = doubles st cut_lj_global
    /\ doubles st' cut_coul = doubles st cut_coul
    /\ setflag st' = setflag st /\ epsilon st' = epsilon st
    /\ sigma st' = sigma st /\ cut_lj st' = cut_lj st.
Proof.
  induction n as [|n IH]; intros args st st' Hn H.
  - destruct args; [|simpl in Hn; lia]. simpl in H. inversion H; subst.
    now repeat split.
  - destruct args as [|key [|value rest]]; simpl in H.
    + inversion H; subst. now repeat split.
    + discriminate.
    + unfold bind in H.
      destruct (keyword numeric inumeric key value st) as [st1|e] eqn:Hk; [|discriminate].
      destruct (keyword_frame _ _ _ _ Hk) as (A & B & C & D & E & F & G).
      destruct (IH rest st1 st' ltac:(simpl in Hn; lia) H)
        as (A' & B' & C' & D' & E' & F' & G').
      rewrite A', B', C', D', E', F', G'. now repeat split.
Qed.

(** X14.  [settings] stores the first argument in [cut_lj_global] and,
    once the arrays are allocated, in the cutoff [cut_lj[i][j]] of every
    pair of types [i < j] whose coefficients have been set; the cutoffs of
    the pairs [i = i] and of the pairs not set stay as they are, and so do
    [setflag], [epsilon] and [sigma]. *)
Theorem settings_resets_cutoffs :
  forall arg st st',
    settings ntypes numeric inumeric arg st = Done st' ->
    numeric (hd String.EmptyString arg) = Some (doubles st' cut_lj_global)
    /\ ints st' allocated = ints st allocated
    /\ setflag st' = setflag st /\ epsilon st' = epsilon st /\ sigma st' = sigma st
    /\ forall i j,
         (truth (ints st allocated) = true ->
          1 <= i -> i < j -> j <= ntypes -> truth (setflag st i j) = true ->
          cut_lj st' i j = doubles st' cut_lj_global)
         /\ (truth (ints st allocated) = false \/ i = 0 \/ j <= i \/ ntypes < j
             \/ truth (setflag st i j) = false ->
             cut_lj st' i j = cut_lj st i j).
Proof.
  intros arg st st' H. unfold settings in H.
  destruct arg as [|a0 rest]; [discriminate|].
  unfold bind, force_numeric in H. simpl hd.
  destruct (numeric a0) as [g|]; [|discriminate].
  set (st0 := set_double st cut_lj_global g) in H.
  destruct (match rest with
            | [] => Done (set_double st0 cut_coul (doubles st0 cut_lj_global))
            | a1 :: _ =>
                match match numeric a1 with
                      | Some d => Done d
                      | None => Abort Library_error
                      end with
                | Done a => Done (set_double st0 cut_coul a)
                | Abort e => Abort e
                end
            end) as [st1|e] eqn:H1; [|discriminate].
  assert (F1 : ints st1 allocated = ints st allocated
               /\ doubles st1 cut_lj_global = g
               /\ setflag st1 = setflag st /\ epsilon st1 = epsilon st
               /\ sigma st1 = sigma st /\ cut_lj st1 = cut_lj st).
  { destruct rest as [|a1 rest'].
    - inversion H1; subst. now repeat split.
    - destruct (numeric a1); inversion H1; subst. now repeat split. }
  destruct F1 as (A1 & B1 & D1 & E1 & G1 & K1).
  destruct (keywords numeric inumeric (tl rest) st1) as [st2|e] eqn:H2; [|discriminate].
  destruct (keywords_frame _ _ _ _ (le_n _) H2) as (A2 & B2 & _ & D2 & E2 & G2 & K2).
  inversion H; subst st'. clear H.
  assert (Ha : ints st2 allocated = ints st allocated) by congruence.
  rewrite Ha.
  destruct (truth (ints st allocated)) eqn:Hal.
  - destruct (reset_cut_lj_cells st2) as (A3 & B3 & D3 & E3 & G3 & K3).
    rewrite A3, B3, D3, E3, G3.
    split; [congruence|]. split; [exact Ha|].
    split; [congruence|]. split; [congruence|]. split; [congruence|].
    intros i j. destruct (K3 i j) as [K3a K3b]. split.
    + intros _ Hi Hij Hj Ht. apply K3a. unfold reset_done.
      rewrite D2, D1. repeat (split; [assumption|]). left. lia.
    + intros Hc. rewrite K3b; [congruence|].
      unfold reset_done. rewrite D2, D1. intros (R1 & R2 & R3 & R4 & _).
      destruct Hc as [Hc|[Hc|[Hc|[Hc|Hc]]]]; try discriminate; try lia; congruence.
  - split; [congruence|]. split; [exact Ha|].
    split; [congruence|]. split; [congruence|]. split; [congruence|].
    intros i j. split; [discriminate|]. intros _. congruence.
Qed.

(** *** [coeff] *)

Lemma for_range_empty {S : Type} (lo hi : nat) (body : nat -> S -> S) (s : S) :
  hi <= lo -> for_range lo hi body s = s.
Proof. intros H. unfold for_range. now replace (hi - lo) with 0 by lia. Qed.

Section CoeffLoops.

Variables ilo ihi jlo jhi : nat.
Variables epsilon_one sigma_one cut_lj_one : float.
Variable st : style.

(** The pairs of types that the loops of [coeff] visit. *)
Definition in_region (k l : nat) : Prop :=
  ilo <= k /\ k <= ihi /\ Nat.max jlo k <= l /\ l <= jhi.

Definition visited (n m k l : nat) : Prop :=
  in_region k l /\ (k < n \/ (k = n /\ l < m)).

Definition coeff_state (n m : nat) (r : style * Z) : Prop :=
  ints (fst r) = ints st /\ doubles (fst r) = doubles st
  /\ (0 <= snd r)%Z
  /\ ((0 < snd r)%Z <-> exists k l, visited n m k l)
  /\ forall k l,
       (visited n m k l ->
        setflag (fst r) k l = 1%Z /\ epsilon (fst r) k l = epsilon_one
        /\ sigma (fst r) k l = sigma_one /\ cut_lj (fst r) k l = cut_lj_one)
       /\ (~ visited n m k l ->
           setflag (fst r) k l = setflag st k l /\ epsilon (fst r) k l = epsilon st k l
           /\ sigma (fst r) k l = sigma st k l /\ cut_lj (fst r) k l = cut_lj st k l).

Lemma coeff_state_ext (n m n' m' : nat) (r : style * Z) :
  (forall k l, visited n m k l <-> visited n' m' k l) ->
  coeff_state n m r -> coeff_state n' m' r.
Proof.
  intros He (A & B & C & D & E). unfold coeff_state.
  repeat (split; [assumption|]). split.
  - rewrite D. split; intros (k & l & H); exists k, l; now apply He.
  - intros k l. destruct (E k l) as [E1 E2]. split; intros H.
    + apply E1. now apply He.
    + apply E2. intros H'. apply H. now apply He.
Qed.

Lemma coeff_row (i : nat) (r : style * Z) :
  ilo <= i <= ihi ->
  coeff_state i 0 r ->
  coeff_state (Datatypes.S i) 0
    (for_range (Nat.max jlo i) (jhi + 1) (fun j '(st, count) =>
       let st := set_epsilon st i j epsilon_one in
       let st := set_sigma st i j sigma_one in
       let st := set_cut_lj st i j cut_lj_one in
       let st := set_setflag st i j 1 in
       (st, (count + 1)%Z)) r).
Proof.
  intros Hi H.
  destruct (Nat.le_gt_cases (Nat.max jlo i) (jhi + 1)) as [Hle|Hgt].
  - pattern (for_range (Nat.max jlo i) (jhi + 1) (fun j '(st, count) =>
       let st := set_epsilon st i j epsilon_one in
       let st := set_sigma st i j sigma_one in
       let st := set_cut_lj st i j cut_lj_one in
       let st := set_setflag st i j 1 in
       (st, (count + 1)%Z)) r).
    apply (for_range_ind_then (fun m r' => coeff_state i m r')).
    + exact Hle.
    + apply (coeff_state_ext i 0); [|exact H].
      intros k l. unfold visited, in_region. intuition lia.
    + intros j [s2 c2] Hj (A & B & C & D & E). cbn [fst snd] in *.
      unfold coeff_state. cbn [fst snd]. simpl.
      split; [exact A|]. split; [exact B|]. split; [lia|]. split.
      * split; [intros _|intros _; lia].
        exists i, j. unfold visited, in_region. lia.
      * intros k l. destruct (E k l) as [E1 E2].
        destruct (Nat.eq_dec k i) as [->|Hk]; [destruct (Nat.eq_dec l j) as [->|Hl]|].
        -- rewrite !Nat.eqb_refl, !set2_same. simpl. split; [now repeat split|].
           intros Hn. exfalso. apply Hn. unfold visited, in_region. lia.
        -- replace (Nat.eqb l j) with false by (symmetry; now apply Nat.eqb_neq).
           rewrite andb_false_r, !set2_other by (right; exact Hl).
           split; intros Hv.
           ++ apply E1. unfold visited, in_region in *. lia.
           ++ apply E2. intros Hv'. apply Hv. unfold visited, in_region in *. lia.
        -- replace (Nat.eqb k i) with false by (symmetry; now apply Nat.eqb_neq).
           rewrite !set2_other by (left; exact Hk). simpl.
           split; intros Hv.
           ++ apply E1. unfold visited, in_region in *. lia.
           ++ apply E2. intros Hv'. apply Hv. unfold visited, in_region in *. lia.
    + intros r'. apply coeff_state_ext.
      intros k l. unfold visited, in_region. lia.
  - rewrite for_range_empty by lia.
    apply (coeff_state_ext i 0); [|exact H].
    intros k l. unfold visited, in_region. lia.
Qed.

Lemma coeff_loops_spec :
  let r := coeff_loops ilo ihi jlo jhi epsilon_one sigma_one cut_lj_one st in
  ints (fst r) = ints st /\ doubles (fst r) = doubles st
  /\ ((0 < snd r)%Z <-> (ilo <= ihi /\ Nat.max jlo ilo <= jhi))
  /\ (0 <= snd r)%Z
  /\ forall k l,
       (in_region k l ->
        setflag (fst r) k l = 1%Z /\ epsilon (fst r) k l = epsilon_one
        /\ sigma (fst r) k l = sigma_one /\ cut_lj (fst r) k l = cut_lj_one)
       /\ (~ in_region k l ->
           setflag (fst r) k l = setflag st k l /\ epsilon (fst r) k l = epsilon st k l
           /\ sigma (fst r) k l = sigma st k l /\ cut_lj (fst r) k l = cut_lj st k l).
Proof.
  assert (H0 : coeff_state ilo 0 (st, 0%Z)).
  { unfold coeff_state. cbn [fst snd].
    split; [reflexivity|]. split; [reflexivity|]. split; [lia|]. split.
    - split; [intros; lia|]. intros (k & l & Hv). unfold visited, in_region in Hv. lia.
    - intros k l. split; [|now repeat split].
      unfold visited, in_region. lia. }
  assert (H : coeff_state (Nat.max ilo (ihi + 1)) 0
                (coeff_loops ilo ihi jlo jhi epsilon_one sigma_one cut_lj_one st)).
  { unfold coeff_loops.
    destruct (Nat.le_gt_cases ilo (ihi + 1)) as [Hle|Hgt].
    - replace (Nat.max ilo (ihi + 1)) with (ihi + 1) by lia.
      apply (for_range_ind (fun n r' => coeff_state n 0 r')); [exact Hle | exact H0 |].
      intros i r' Hi Hr. apply coeff_row; [lia | exact Hr].
    - rewrite for_range_empty by lia. replace (Nat.max ilo (ihi + 1)) with ilo by lia.
      exact H0. }
  destruct H as (A & B & C & D & E). cbv zeta.
  split; [exact A|]. split; [exact B|]. split; [|split; [exact C|]].
  - rewrite D. split.
    + intros (k & l & Hv). unfold visited, in_region in Hv. lia.
    + intros Hr. exists ilo, (Nat.max jlo ilo). unfold visited, in_region. lia.
  - intros k l. destruct (E k l) as [E1 E2]. split; intros Hv.
    + apply E1. unfold visited, in_region in *. lia.
    + apply E2. intros Hv'. apply Hv. unfold visited, in_region in *. lia.
Qed.

End CoeffLoops.

Lemma allocate_frame (st : style) :
  doubles (allocate ntypes fresh st) = doubles st
  /\ epsilon (allocate ntypes fresh st) = new_epsilon fresh
  /\ sigma (allocate ntypes fresh st) = new_sigma fresh
  /\ cut_lj (allocate ntypes fresh st) = new_cut_lj fresh
  /\ ints (allocate ntypes fresh st) allocated = 1%Z
  /\ (forall m, m <> allocated -> ints (allocate ntypes fresh st) m = ints st m).
Proof.
  unfold allocate. cbv zeta. cbn [doubles epsilon sigma cut_lj ints].
  repeat (split; [reflexivity || idtac|]);
    try (apply (for_range_inv (fun s' => doubles s' = doubles st)); [reflexivity|];
         intros i s1 _ H1;
         apply (for_range_inv (fun s' => doubles s' = doubles st)); [exact H1|];
         intros j s2 _ H2; exact H2).
  - apply (for_range_inv (fun s' => ints s' allocated = 1%Z)); [reflexivity|].
    intros i s1 _ H1.
    apply (for_range_inv (fun s' => ints s' allocated = 1%Z)); [exact H1|].
    intros j s2 _ H2. exact H2.
  - intros m Hm.
    apply (for_range_inv (fun s' => ints s' m = ints st m)).
    + simpl. now destruct (int_member_eq_dec m allocated).
    + intros i s1 _ H1.
      apply (for_range_inv (fun s' => ints s' m = ints st m)); [exact H1|].
      intros j s2 _ H2. exact H2.
Qed.

(** X15.  When [coeff] returns, the pairs of types it has set are those
    with [ilo <= i <= ihi] and [max(jlo,i) <= j <= jhi], of which there is
    at least one: each has [setflag] 1 and the epsilon, sigma and cutoff of
    the arguments (the global cutoff when no fifth argument is given).  No
    other pair is written, in particular none with [j < i]. *)
Theorem coeff_cells :
  forall arg st st' ilo ihi jlo jhi,
    bounds (nth 0 arg String.EmptyString) ntypes = Some (ilo, ihi) ->
    bounds (nth 1 arg String.EmptyString) ntypes = Some (jlo, jhi) ->
    coeff ntypes numeric bounds fresh arg st = Done st' ->
    let base := if truth (ints st allocated) then st else allocate ntypes fresh st in
    (exists i j, in_region ilo ihi jlo jhi i j)
    /\ forall i j,
         (in_region ilo ihi jlo jhi i j ->
          setflag st' i j = 1%Z
          /\ numeric (nth 2 arg String.EmptyString) = Some (epsilon st' i j)
          /\ numeric (nth 3 arg String.EmptyString) = Some (sigma st' i j)
          /\ (if Nat.eqb (List.length arg) 5
              then numeric (nth 4 arg String.EmptyString)
              else Some (doubles st cut_lj_global)) = Some (cut_lj st' i j))
         /\ (~ in_region ilo ihi jlo jhi i j ->
             setflag st' i j = setflag base i j /\ epsilon st' i j = epsilon base i j
             /\ sigma st' i j = sigma base i j /\ cut_lj st' i j = cut_lj base i j).
Proof.
  intros arg st st' ilo ihi jlo jhi Hb0 Hb1 H base. unfold coeff in H.
  destruct (Nat.ltb (List.length arg) 4 || Nat.ltb 5 (List.length arg))%bool;
    [discriminate|].
  fold base in H. unfold bind, force_bounds, force_numeric in H.
  rewrite Hb0, Hb1 in H. cbn [fst snd] in H.
  destruct (numeric (nth 2 arg String.EmptyString)) as [e|]; [|discriminate].
  destruct (numeric (nth 3 arg String.EmptyString)) as [s|]; [|discriminate].
  assert (Hg : doubles base cut_lj_global = doubles st cut_lj_global).
  { unfold base. destruct (truth (ints st allocated)); [reflexivity|].
    destruct (allocate_frame st) as (-> & _). reflexivity. }
  rewrite Hg in H.
  destruct (match (if Nat.eqb (List.length arg) 5
                   then match numeric (nth 4 arg String.EmptyString) with
                        | Some d => Done d
                        | None => Abort Library_error
                        end
                   else Done (doubles st cut_lj_global)) with
            | Done a => _ | Abort e0 => _ end) eqn:Hrun in H; [|discriminate].
  inversion H; subst a; clear H.
  destruct (if Nat.eqb (List.length arg) 5
            then match numeric (nth 4 arg String.EmptyString) with
                 | Some d => Done d
                 | None => Abort Library_error
                 end
            else Done (doubles st cut_lj_global)) as [c|] eqn:Hc; [|discriminate].
  pose proof (coeff_loops_spec ilo ihi jlo jhi e s c base) as Hs. cbv zeta in Hs.
  destruct (coeff_loops ilo ihi jlo jhi e s c base) as [st1 count].
  cbn [fst snd] in Hs. destruct Hs as (_ & _ & Hcount & Hpos & Hcells).
  destruct (Z.eqb_spec count 0) as [Hz|Hz]; [discriminate|].
  inversion Hrun; subst st1. clear Hrun.
  split.
  - assert (Hr : ilo <= ihi /\ Nat.max jlo ilo <= jhi) by (apply Hcount; lia).
    exists ilo, (Nat.max jlo ilo). unfold in_region. lia.
  - intros i j. destruct (Hcells i j) as [C1 C2]. split; [|exact C2].
    intros Hin. destruct (C1 Hin) as (-> & -> & -> & ->).
    repeat split.
    destruct (Nat.eqb (List.length arg) 5).
    + destruct (numeric (nth 4 arg String.EmptyString)); inversion Hc; reflexivity.
    + inversion Hc; reflexivity.
Qed.

(** X16.  With four or five arguments that the library calls accept,
    [coeff] returns exactly when its ranges hold a pair [i <= j], that is
    when [ilo <= ihi] and [max(jlo,ilo) <= jhi]; otherwise, and so for a
    second type below the first, it ends the run with "Incorrect args for
    pair coefficients". *)
Theorem coeff_accepts_iff :
  forall arg st ilo ihi jlo jhi e s,
    4 <= List.length arg <= 5 ->
    bounds (nth 0 arg String.EmptyString) ntypes = Some (ilo, ihi) ->
    bounds (nth 1 arg String.EmptyString) ntypes = Some (jlo, jhi) ->
    numeric (nth 2 arg String.EmptyString) = Some e ->
    numeric (nth 3 arg String.EmptyString) = Some s ->
    (List.length arg = 5 -> numeric (nth 4 arg String.EmptyString) <> None) ->
    ((exists st', coeff ntypes numeric bounds fresh arg st = Done st')
     <-> (ilo <= ihi /\ Nat.max jlo ilo <= jhi))
    /\ (~ (ilo <= ihi /\ Nat.max jlo ilo <= jhi) ->
        coeff ntypes numeric bounds fresh arg st = Abort Incorrect_args).
Proof.
  intros arg st ilo ihi jlo jhi e s Hn Hb0 Hb1 He Hs H4. unfold coeff.
  replace (Nat.ltb (List.length arg) 4 || Nat.ltb 5 (List.length arg))%bool with false
    by (symmetry; apply orb_false_iff; split; apply Nat.ltb_ge; lia).
  set (base := if truth (ints st allocated) then st else allocate ntypes fresh st).
  unfold bind, force_bounds, force_numeric.
  rewrite Hb0, Hb1, He, Hs. cbn [fst snd].
  assert (Hc : exists c,
             (if Nat.eqb (List.length arg) 5
              then match numeric (nth 4 arg String.EmptyString) with
                   | Some d => Done d
                   | None => Abort Library_error
                   end
              else Done (doubles base cut_lj_global)) = Done c).
  { destruct (Nat.eqb_spec (List.length arg) 5) as [E|E]; [|now eexists].
    destruct (numeric (nth 4 arg String.EmptyString)) as [c|]; [now eexists|].
    now elim (H4 E). }
  destruct Hc as [c ->].
  pose proof (coeff_loops_spec ilo ihi jlo jhi e s c base) as Hsp. cbv zeta in Hsp.
  destruct (coeff_loops ilo ihi jlo jhi e s c base) as [st1 count].
  cbn [fst snd] in Hsp. destruct Hsp as (_ & _ & Hcount & Hpos & _).
  destruct (Z.eqb_spec count 0) as [Hz|Hz].
  - split.
    + split; [intros (st' & Hd); discriminate|]. intros Hr. apply Hcount in Hr. lia.
    + reflexivity.
  - split.
    + split; [intros _; apply Hcount; lia | intros _; now eexists].
    + intros Hr. exfalso. apply Hr, Hcount. lia.
Qed.

(** *** The restart file *)

Lemma restart_settings_cells :
  forall st st0 fp tail,
    exists out,
      write_restart_settings st fp = fp ++ out
      /\ exists st',
           read_restart_settings (out ++ tail) st0 = Some (st', tail)
           /\ (forall d, doubles st' d = doubles st d)
           /\ (forall m, m <> use_previous -> m <> allocated -> ints st' m = ints st m)
           /\ ints st' use_previous = ints st0 use_previous
           /\ ints st' allocated = ints st0 allocated
           /\ setflag st' = setflag st0 /\ epsilon st' = epsilon st0
           /\ sigma st' = sigma st0 /\ cut_lj st' = cut_lj st0.
Proof.
  intros st st0 fp tail. eexists. split.
  - unfold write_restart_settings, fwrite_int, fwrite_double.
    repeat rewrite <- app_assoc. simpl. reflexivity.
  - simpl. eexists. split; [reflexivity|].
    split; [intros d; destruct d; reflexivity|].
    split; [intros m H1 H2; destruct m; try reflexivity; congruence|].
    now repeat split.
Qed.

(** X17.  What [write_restart_settings] appends to the file,
    [read_restart_settings] reads back item for item: every [double] and
    every [int] setting has the value written, except [use_previous],
    which is not in the file and keeps the value of the reading object. *)
Theorem restart_settings_round_trip :
  forall st st0 fp tail,
    exists out,
      write_restart_settings st fp = fp ++ out
      /\ exists st',
           read_restart_settings (out ++ tail) st0 = Some (st', tail)
           /\ (forall d, doubles st' d = doubles st d)
           /\ (forall m, m <> use_previous -> m <> allocated -> ints st' m = ints st m)
           /\ ints st' use_previous = ints st0 use_previous
           /\ ints st' allocated = ints st0 allocated
           /\ setflag st' = setflag st0 /\ epsilon st' = epsilon st0
           /\ sigma st' = sigma st0 /\ cut_lj st' = cut_lj st0.
Proof.
  intros st st0 fp tail. eexists. split.
  - unfold write_restart_settings, fwrite_int, fwrite_double.
    repeat rewrite <- app_assoc. simpl. reflexivity.
  - simpl. eexists. split; [reflexivity|].
    split; [intros d; destruct d; reflexivity|].
    split; [intros m H1 H2; destruct m; try reflexivity; congruence|].
    now repeat split.
Qed.

(** The items of one pair of types in the file. *)
Definition pair_cells (st : style) (i j : nat) : list cell :=
  Int (setflag st i j)
  :: (if truth (setflag st i j)
      then [Double (epsilon st i j); Double (sigma st i j); Double (cut_lj st i j)]
      else []).

(** The stores that reading the items of the pair makes. *)
Definition load_pair (src : style) (i j : nat) (st : style) : style :=
  let st := set_setflag st i j (setflag src i j) in
  if truth (setflag src i j)
  then set_cut_lj (set_sigma (set_epsilon st i j (epsilon src i j))
                     i j (sigma src i j)) i j (cut_lj src i j)
  else st.

Lemma write_pair_cells (st : style) (i j : nat) (fp : list cell) :
  write_pair st i j fp = fp ++ pair_cells st i j.
Proof.
  unfold write_pair, pair_cells, fwrite_int, fwrite_double.
  destruct (truth (setflag st i j)); repeat rewrite <- app_assoc; reflexivity.
Qed.

Lemma read_pair_cells (src : style) (i j : nat) (st : style) (tail : list cell) :
  read_pair i j (Some (st, pair_cells src i j ++ tail))
  = Some (load_pair src i j st, tail).
Proof.
  unfold read_pair, pair_cells, load_pair. simpl.
  rewrite !Nat.eqb_refl. simpl.
  destruct (truth (setflag src i j)); reflexivity.
Qed.

Lemma for_from_append {A : Type} (g : nat -> list A) (body : nat -> list A -> list A) :
  (forall j fp, body j fp = fp ++ g j) ->
  forall n lo fp,
    for_from lo n body fp = fp ++ concat (map g (seq lo n)).
Proof.
  intros Hb. induction n as [|n IH]; intros lo fp; simpl.
  - now rewrite app_nil_r.
  - rewrite IH, Hb, <- app_assoc. reflexivity.
Qed.

Lemma for_from_consume {A S : Type} (g : nat -> list A) (h : nat -> S -> S)
    (body : nat -> option (S * list A) -> option (S * list A)) :
  (forall j s tail, body j (Some (s, g j ++ tail)) = Some (h j s, tail)) ->
  forall n lo s tail,
    for_from lo n body (Some (s, concat (map g (seq lo n)) ++ tail))
    = Some (for_from lo n h s, tail).
Proof.
  intros Hb. induction n as [|n IH]; intros lo s tail; simpl.
  - reflexivity.
  - rewrite <- app_assoc, Hb. apply IH.
Qed.

(** The items of the pairs of the row [i], and of all rows. *)
Definition row_cells (st : style) (i : nat) : list cell :=
  concat (map (pair_cells st i) (seq i (ntypes + 1 - i))).

Definition coeff_cells_written (st : style) : list cell :=
  concat (map (row_cells st) (seq 1 (ntypes + 1 - 1))).

Definition load_all (src : style) (st : style) : style :=
  for_range 1 (ntypes + 1) (fun i =>
    for_range i (ntypes + 1) (fun j st => load_pair src i j st)) st.

Lemma write_restart_cells (st : style) (fp : list cell) :
  write_restart ntypes st fp
  = write_restart_settings st fp ++ coeff_cells_written st.
Proof.
  unfold write_restart, coeff_cells_written, for_range.
  apply (for_from_append (row_cells st)).
  intros i fp'. unfold row_cells.
  apply (for_from_append (pair_cells st i)).
  intros j fp''. apply write_pair_cells.
Qed.

Lemma read_coeff_cells (src st : style) (tail : list cell) :
  for_range 1 (ntypes + 1) (fun i =>
    for_range i (ntypes + 1) (fun j r => read_pair i j r))
    (Some (st, coeff_cells_written src ++ tail))
  = Some (load_all src st, tail).
Proof.
  unfold coeff_cells_written, load_all, for_range.
  apply (for_from_consume (row_cells src)
           (fun i => for_from i (ntypes + 1 - i) (fun j st => load_pair src i j st))).
  intros i s tl'. unfold row_cells.
  apply (for_from_consume (pair_cells src i) (fun j st => load_pair src i j st)).
  intros j s' tl''. apply read_pair_cells.
Qed.

(** The pairs loaded when the loops are at the row [n] and the column [m]. *)
Definition loaded (n m k l : nat) : Prop :=
  1 <= k /\ k <= l /\ l <= ntypes /\ (k < n \/ (k = n /\ l < m)).

Definition pair_agrees (src s' : style) (k l : nat) : Prop :=
  setflag s' k l = setflag src k l
  /\ (truth (setflag src k l) = true ->
      epsilon s' k l = epsilon src k l /\ sigma s' k l = sigma src k l
      /\ cut_lj s' k l = cut_lj src k l).

Lemma load_pair_agrees (src s1 : style) (i j k l : nat) :
  (k = i /\ l = j -> pair_agrees src (load_pair src i j s1) k l)
  /\ (~ (k = i /\ l = j) ->
      setflag (load_pair src i j s1) k l = setflag s1 k l
      /\ epsilon (load_pair src i j s1) k l = epsilon s1 k l
      /\ sigma (load_pair src i j s1) k l = sigma s1 k l
      /\ cut_lj (load_pair src i j s1) k l = cut_lj s1 k l).
Proof.
  unfold load_pair, pair_agrees. split.
  - intros [-> ->]. destruct (truth (setflag src i j)); simpl;
      rewrite !Nat.eqb_refl; simpl; rewrite ?set2_same; split; try reflexivity;
      intros; try discriminate; now repeat split.
  - intros Hne.
    assert (Hb : (Nat.eqb k i && Nat.eqb l j)%bool = false).
    { destruct (Nat.eqb_spec k i), (Nat.eqb_spec l j); try reflexivity.
      exfalso. now apply Hne. }
    assert (Hd : k <> i \/ l <> j) by lia.
    destruct (truth (setflag src i j)); simpl; rewrite Hb;
      rewrite ?set2_other by exact Hd; now repeat split.
Qed.

Lemma load_all_spec (src st : style) :
  ints (load_all src st) = ints st
  /\ doubles (load_all src st) = doubles st
  /\ forall k l, 1 <= k -> k <= l -> l <= ntypes ->
       pair_agrees src (load_all src st) k l.
Proof.
  unfold load_all.
  pattern (for_range 1 (ntypes + 1) (fun i =>
             for_range i (ntypes + 1) (fun j st0 => load_pair src i j st0)) st).
  apply (for_range_ind_then (fun n s' =>
    ints s' = ints st /\ doubles s' = doubles st
    /\ forall k l, loaded n 0 k l -> pair_agrees src s' k l)).
  - lia.
  - repeat (split; [reflexivity|]). intros k l H. unfold loaded in H. lia.
  - intros i s1 Hi (A & B & C).
    pattern (for_range i (ntypes + 1) (fun j st0 => load_pair src i j st0) s1).
    apply (for_range_ind_then (fun m s' =>
      ints s' = ints st /\ doubles s' = doubles st
      /\ forall k l, loaded i m k l -> pair_agrees src s' k l)).
    + lia.
    + repeat (split; [assumption|]). intros k l H. apply C.
      unfold loaded in *. lia.
    + intros j s2 Hj (A2 & B2 & C2). split; [|split].
      * unfold load_pair. now destruct (truth (setflag src i j)).
      * unfold load_pair. now destruct (truth (setflag src i j)).
      * intros k l H. destruct (load_pair_agrees src s2 i j k l) as [L1 L2].
        destruct (Nat.eq_dec k i) as [Ek|Ek]; [destruct (Nat.eq_dec l j) as [El|El]|].
        -- now apply L1.
        -- assert (Hc : pair_agrees src s2 k l) by (apply C2; unfold loaded in *; lia).
           unfold pair_agrees in *.
           destruct L2 as (-> & -> & -> & ->); [lia | exact Hc].
        -- assert (Hc : pair_agrees src s2 k l) by (apply C2; unfold loaded in *; lia).
           unfold pair_agrees in *.
           destruct L2 as (-> & -> & -> & ->); [lia | exact Hc].
    + intros s' (A2 & B2 & C2). repeat (split; [assumption|]).
      intros k l H. apply C2. unfold loaded in *. lia.
  - intros s' (A & B & C). repeat (split; [assumption|]).
    intros k l H1 H2 H3. apply C. unfold loaded. lia.
Qed.

(** X18.  A restart file round-trips: what [write_restart] appends,
    [read_restart] consumes to the last item, and afterwards every setting
    other than [use_previous] has the value written, the arrays are
    allocated, and every pair of types [1 <= i <= j <= ntypes] has the
    [setflag] written and, where that is set, the epsilon, sigma and cutoff
    written. *)
Theorem restart_round_trip :
  forall st st0 fp tail,
    exists out,
      write_restart ntypes st fp = fp ++ out
      /\ exists st',
           read_restart ntypes fresh (out ++ tail) st0 = Some (st', tail)
           /\ (forall d, doubles st' d = doubles st d)
           /\ (forall m, m <> use_previous -> m <> allocated -> ints st' m = ints st m)
           /\ ints st' use_previous = ints st0 use_previous
           /\ ints st' allocated = 1%Z
           /\ forall i j, 1 <= i -> i <= j -> j <= ntypes ->
                setflag st' i j = setflag st i j
                /\ (truth (setflag st i j) = true ->
                    epsilon st' i j = epsilon st i j /\ sigma st' i j = sigma st i j
                    /\ cut_lj st' i j = cut_lj st i j).
Proof.
  intros st st0 fp tail.
  destruct (restart_settings_cells st st0 fp (coeff_cells_written st ++ tail))
    as (out & Hw & st1 & Hr & D1 & I1 & U1 & _).
  exists (out ++ coeff_cells_written st). split.
  - rewrite write_restart_cells, Hw. now rewrite app_assoc.
  - unfold read_restart. rewrite <- app_assoc, Hr.
    rewrite read_coeff_cells. eexists. split; [reflexivity|].
    destruct (load_all_spec st (allocate ntypes fresh st1)) as (A & B & C).
    destruct (allocate_frame st1) as (F1 & _ & _ & _ & F5 & F6).
    rewrite A, B, F1.
    split; [exact D1|].
    split; [intros m H1 H2; rewrite F6 by exact H2; now apply I1|].
    split; [rewrite F6 by discriminate; exact U1|].
    split; [exact F5|].
    intros i j H1 H2 H3. exact (C i j H1 H2 H3).
Qed.

Lemma clear_setflag (s0 : style) :
  forall k l, 1 <= k -> k <= l -> l <= ntypes ->
    setflag (for_range 1 (ntypes + 1) (fun i =>
               for_range i (ntypes + 1) (fun j st0 => set_setflag st0 i j 0)) s0) k l
    = 0%Z.
Proof.
  pattern (for_range 1 (ntypes + 1) (fun i =>
             for_range i (ntypes + 1) (fun j st0 => set_setflag st0 i j 0)) s0).
  apply (for_range_ind_then (fun n s' =>
    forall k l, loaded n 0 k l -> setflag s' k l = 0%Z)).
  - lia.
  - intros k l H. unfold loaded in H. lia.
  - intros i s1 Hi C.
    pattern (for_range i (ntypes + 1) (fun j st0 => set_setflag st0 i j 0) s1).
    apply (for_range_ind_then (fun m s' =>
      forall k l, loaded i m k l -> setflag s' k l = 0%Z)).
    + lia.
    + intros k l H. apply C. unfold loaded in *. lia.
    + intros j s2 Hj C2 k l H. simpl.
      destruct (Nat.eqb_spec k i) as [Ek|Ek], (Nat.eqb_spec l j) as [El|El];
        simpl; try reflexivity; apply C2; unfold loaded in *; lia.
    + intros s' C2 k l H. apply C2. unfold loaded in *. lia.
  - intros s' C k l H1 H2 H3. apply C. unfold loaded. lia.
Qed.

Lemma allocate_setflag (st : style) :
  forall k l, 1 <= k -> k <= l -> l <= ntypes ->
    setflag (allocate ntypes fresh st) k l = 0%Z.
Proof.
  intros k l H1 H2 H3. unfold allocate. cbv zeta. cbn [setflag].
  now apply clear_setflag.
Qed.

(** What holds of the reader when the file has ended. *)
Definition at_end_of_file (sA : style) (r : option (style * list cell)) : Prop :=
  exists s',
    r = Some (s', [])
    /\ ints s' = ints sA /\ doubles s' = doubles sA
    /\ epsilon s' = epsilon sA /\ sigma s' = sigma sA /\ cut_lj s' = cut_lj sA
    /\ forall k l, 1 <= k -> k <= l -> l <= ntypes -> setflag s' k l = 0%Z.

(** X19.  A file that has ended is not noticed: [read_restart] returns,
    every setting keeps the value of the reading object, every pair of
    types is left with [setflag] 0 by [allocate], and the coefficient
    arrays are the ones [allocate] created, nothing being read into
    them. *)
Theorem read_restart_end_of_file :
  forall st0,
    exists st',
      read_restart ntypes fresh [] st0 = Some (st', [])
      /\ (forall d, doubles st' d = doubles st0 d)
      /\ (forall m, m <> allocated -> ints st' m = ints st0 m)
      /\ ints st' allocated = 1%Z
      /\ (forall i j, 1 <= i -> i <= j -> j <= ntypes -> setflag st' i j = 0%Z)
      /\ epsilon st' = new_epsilon fresh
      /\ sigma st' = new_sigma fresh
      /\ cut_lj st' = new_cut_lj fresh.
Proof.
  intros st0. unfold read_restart.
  assert (Hs : exists st1,
             read_restart_settings [] st0 = Some (st1, [])
             /\ (forall d, doubles st1 d = doubles st0 d)
             /\ (forall m, ints st1 m = ints st0 m)).
  { eexists. split; [reflexivity|].
    split; [intros d; destruct d; reflexivity|].
    intros m; destruct m; reflexivity. }
  destruct Hs as (st1 & -> & D1 & I1).
  destruct (allocate_frame st1) as (F1 & F2 & F3 & F4 & F5 & F6).
  assert (H : at_end_of_file (allocate ntypes fresh st1)
                (for_range 1 (ntypes + 1) (fun i =>
                   for_range i (ntypes + 1) (fun j r => read_pair i j r))
                   (Some (allocate ntypes fresh st1, [])))).
  { apply (for_range_inv (at_end_of_file (allocate ntypes fresh st1))).
    - exists (allocate ntypes fresh st1). repeat (split; [reflexivity|]).
      apply allocate_setflag.
    - intros i r Hi Hr.
      apply (for_range_inv (at_end_of_file (allocate ntypes fresh st1))); [exact Hr|].
      intros j r' Hj (s' & -> & A & B & C & D & E & F).
      unfold read_pair. simpl. rewrite !Nat.eqb_refl. simpl.
      rewrite (F i j) by lia. simpl.
      eexists. split; [reflexivity|]. simpl.
      repeat (split; [assumption|]).
      intros k l H1 H2 H3.
      destruct (Nat.eqb k i && Nat.eqb l j)%bool; [reflexivity | now apply F]. }
  destruct H as (s' & -> & A & B & C & D & E & F).
  exists s'. split; [reflexivity|].
  rewrite A, B, C, D, E, F1, F2, F3, F4.
  split; [exact D1|].
  split; [intros m Hm; rewrite F6 by exact Hm; apply I1|].
  split; [exact F5|].
  split; [exact F|]. now repeat split.
Qed.

End StyleFacts.

(** ** The statements above at reference configurations *)

Section ReferenceExtras.

Import Ref.
Import String.
Local Open Scope float_scope.

(** X4 at the two particles of C1 in fixed-iteration mode: the solver
    returns with the static field and the forces it was given. *)
Lemma DipoleSolverIterative_frame_witness :
  exists s',
    DipoleSolverIterative open_domain exp_unused (fixed 2)
      (two_atoms (vec3 2.0 0.0 0.0)) 3%nat unit_field = Some (2%Z, s')
    /\ ef_static s' = ef_static unit_field
    /\ f s' = f unit_field.
Proof.
  eexists. split; [reflexivity|].
  destruct (DipoleSolverIterative_frame open_domain exp_unused (fixed 2)
              (two_atoms (vec3 2.0 0.0 0.0)) 3%nat unit_field 2%Z _ eq_refl)
    as (A & B & _).
  split; [exact A | exact B].
Defined.

(** X5 with one ghost particle that holds a dipole: [compute] returns and
    the dipole and the static field of the ghost are as before. *)
Lemma compute_keeps_ghost_dipoles_witness :
  exists r s',
    compute open_domain exp_unused (fixed_jacobi 2) two_local_one_ghost true
      3%nat ghost_state = Some (r, s')
    /\ ef_static s' 2%nat 0%nat = 0.25
    /\ mu_induced s' 2%nat 0%nat = 7.0.
Proof.
  eexists. eexists. split; [reflexivity|].
  exact (compute_keeps_ghost_dipoles open_domain exp_unused (fixed_jacobi 2)
           two_local_one_ghost true 3%nat ghost_state _ _ eq_refl eq_refl
           2%nat 0%nat (le_n 2)).
Defined.

(** X6 at the two particles of C1 with [zodid yes]: no fuel is needed and
    the event log stays empty. *)
Lemma compute_zodid_witness :
  exists s',
    compute open_domain exp_unused zodid_on (two_atoms (vec3 2.0 0.0 0.0)) true
      0%nat unit_field = Some (0%Z, s')
    /\ events s' = [].
Proof.
  destruct (compute_zodid open_domain exp_unused zodid_on
              (two_atoms (vec3 2.0 0.0 0.0)) true eq_refl 0%nat unit_field)
    as (s' & H & He & _).
  exists s'. split; [exact H | exact He].
Defined.

(** X7 at the two particles of C1 without [eflag]. *)
Lemma compute_energy_off_witness :
  exists r s',
    compute open_domain exp_unused (fixed 2) (two_atoms (vec3 2.0 0.0 0.0)) false
      3%nat unit_field = Some (r, s')
    /\ eng_pol s' = 0.0.
Proof.
  eexists. eexists. split; [reflexivity|].
  exact (compute_energy_off open_domain exp_unused (fixed 2)
           (two_atoms (vec3 2.0 0.0 0.0)) false eq_refl 3%nat unit_field _ _ eq_refl).
Defined.

(** X8 at two opposite charges of polarizability zero. *)
Lemma pair_force_not_polarizable_witness :
  pair_force open_domain exp_unused defaults inert_pair true 0%nat 1%nat
    (mu_induced unit_field)
    {| u_polar_self := 1.0; u_polar_ef := 2.0; u_polar_dd := 3.0 |}
  = ((0.0, 0.0, 0.0),
     {| u_polar_self := 1.0; u_polar_ef := 2.0; u_polar_dd := 3.0 |}).
Proof.
  exact (pair_force_not_polarizable open_domain exp_unused defaults inert_pair true
           0%nat 1%nat (mu_induced unit_field)
           {| u_polar_self := 1.0; u_polar_ef := 2.0; u_polar_dd := 3.0 |}
           eq_refl eq_refl).
Defined.

(** X9 at three particles with the metrics 1, 3 and 2: the second
    particle visited has no larger metric than the first. *)
Lemma rank_dipoles_sorted_witness :
  PrimFloat.leb
    (rank_metric ranked_state
       (ranked_array (rank_dipoles defaults three_atoms ranked_state) 1%nat))
    (rank_metric ranked_state
       (ranked_array (rank_dipoles defaults three_atoms ranked_state) 0%nat)) = true.
Proof.
  refine (rank_dipoles_sorted defaults three_atoms ranked_state eq_refl _
            0%nat 1%nat _ _).
  - intros i Hi. destruct i as [|[|[|i]]]; reflexivity.
  - lia.
  - simpl. lia.
Defined.

(** X12 at the defaults: switching [polar_gs_ranked] off and [polar_gs]
    on. *)
Lemma settings_keeps_gs_exclusive_witness :
  exists st',
    Style.settings 2%nat numeric_ref inumeric_ref
      ["10.0"; "12.0"; "polar_gs_ranked"; "no"; "polar_gs"; "yes"]%string
      style_defaults = Style.Done st'
    /\ gs_exclusive st'.
Proof.
  eexists. split; [reflexivity|].
  exact (settings_keeps_gs_exclusive 2%nat numeric_ref inumeric_ref
           ["10.0"; "12.0"; "polar_gs_ranked"; "no"; "polar_gs"; "yes"]%string
           style_defaults _ eq_refl eq_refl).
Defined.

(** X13 at a keyword without its value. *)
Lemma settings_rejects_dangling_keyword_witness :
  exists e,
    Style.settings 2%nat numeric_ref inumeric_ref
      ["10.0"; "12.0"; "max_iterations"]%string style_defaults = Style.Abort e.
Proof.
  apply (settings_rejects_dangling_keyword 2%nat numeric_ref inumeric_ref
           ["10.0"; "12.0"; "max_iterations"]%string style_defaults).
  - simpl. lia.
  - reflexivity.
Defined.

(** X14 at a style with the pairs (1,1) and (1,2) set to a cutoff of 8:
    a new global cutoff of 10 reaches the pair (1,2) and not the pair
    (1,1). *)
Lemma settings_resets_cutoffs_witness :
  exists st',
    Style.settings 2%nat numeric_ref inumeric_ref ["10.0"]%string style_with_pairs
    = Style.Done st'
    /\ Style.cut_lj st' 1%nat 2%nat = Style.doubles st' Style.cut_lj_global
    /\ Style.cut_lj st' 1%nat 1%nat = 8.0.
Proof.
  eexists. split; [reflexivity|].
  destruct (settings_resets_cutoffs 2%nat numeric_ref inumeric_ref
              ["10.0"]%string style_with_pairs _ eq_refl)
    as (_ & _ & _ & _ & _ & Hc).
  split.
  - apply (proj1 (Hc 1%nat 2%nat)); try reflexivity; lia.
  - apply (proj2 (Hc 1%nat 1%nat)). right. right. left. lia.
Defined.

(** X15 at [pair_coeff 1 * 0.5 3.4] with two types. *)
Lemma coeff_cells_witness :
  exists st',
    Style.coeff 2%nat numeric_ref bounds_ref created_ref ["1"; "*"; "0.5"; "3.4"]%string
      style_defaults = Style.Done st'
    /\ Style.setflag st' 1%nat 2%nat = 1%Z
    /\ numeric_ref "0.5"%string = Some (Style.epsilon st' 1%nat 2%nat).
Proof.
  eexists. split; [reflexivity|].
  destruct (coeff_cells 2%nat numeric_ref bounds_ref created_ref
              ["1"; "*"; "0.5"; "3.4"]%string style_defaults _ 1%nat 1%nat 1%nat 2%nat
              eq_refl eq_refl eq_refl) as (_ & Hc).
  destruct (proj1 (Hc 1%nat 2%nat)) as (A & B & _).
  - unfold in_region. simpl. lia.
  - split; [exact A | exact B].
Defined.

(** X16 at [pair_coeff 2 1 0.5 3.4]: the second type is below the first. *)
Lemma coeff_accepts_iff_witness :
  Style.coeff 2%nat numeric_ref bounds_ref created_ref ["2"; "1"; "0.5"; "3.4"]%string
    style_defaults = Style.Abort Style.Incorrect_args.
Proof.
  apply (proj2 (coeff_accepts_iff 2%nat numeric_ref bounds_ref created_ref
                  ["2"; "1"; "0.5"; "3.4"]%string style_defaults
                  2%nat 2%nat 1%nat 1%nat 0.5 3.4
                  ltac:(simpl; lia) eq_refl eq_refl eq_refl eq_refl
                  ltac:(simpl; intros; lia))).
  simpl. lia.
Defined.

(** X20 at the two particles of C1 in fixed-iteration mode with
    [max_iterations 2]: the value returned is 2 and three sweeps are
    made. *)
Lemma DipoleSolverIterative_return_value_witness :
  exists s',
    DipoleSolverIterative open_domain exp_unused (fixed 2)
      (two_atoms (vec3 2.0 0.0 0.0)) 3%nat unit_field = Some (2%Z, s')
    /\ count_events is_sweep (events s') = 3%nat.
Proof.
  eexists. split; [reflexivity|].
  exact (proj1 (proj2 (DipoleSolverIterative_return_value open_domain exp_unused
                         (fixed 2) (two_atoms (vec3 2.0 0.0 0.0)) 3%nat unit_field
                         2%Z _ eq_refl))).
Defined.

(** X21 at the defaults with no particle. *)
Lemma DipoleSolverIterative_no_particles_witness :
  exists s',
    DipoleSolverIterative open_domain exp_unused defaults no_atoms 1%nat cleared
    = Some (1%Z, s')
    /\ events s' = [EvPrecisionTest; EvSweep].
Proof.
  destruct (DipoleSolverIterative_no_particles open_domain exp_unused defaults
              no_atoms eq_refl eq_refl ltac:(simpl; lia) 0%nat cleared)
    as (s' & H & He & _).
  exists s'. split; [exact H | exact He].
Defined.

End ReferenceExtras.
